(** * Fleet workspace: the per-path agent runtime, verified against its source

    A shallow embedding of the parts of [fleet-service] that the runtime's
    specification talks about:

    - [AgentNameSchema] and [StockUpdateSchema] (services/base-fleet-manager.ts),
    - [BaseFleetManager]: [saveState], [loadStateFromStorage], the websocket
      broadcast helpers (services/base-fleet-manager.ts),
    - [InventoryService.processStockUpdate] (services/inventory-service.ts),
    - [InventoryAgent]: [createAgent], [deleteAgent], [handleDeleteSubtree],
      the chat statistics (durable-objects/fleet-manager.ts),
    - the router's [app.all('/*')] handler and [handleWebSocketUpgrade]
      (the worker entry point),
    - the messages: [storeMessage] (services/base-fleet-manager.ts),
      [sendDirectMessage], [broadcastMessage], [handleMessage]
      (durable-objects/fleet-manager.ts),
    - the cache: [getCached], [setCache], [clearCache], and [handleError]
      (services/base-fleet-manager.ts), [getState],
    - the inventory endpoints: [handleStockOperation],
      [handleInventoryQuery], [handleInventorySync], [getInventoryAlerts],
      [calculateAverageConfidence] (durable-objects/fleet-manager.ts),
    - [Breadcrumb] (components/Breadcrumb.tsx).

    Conventions of the embedding.

    - A JavaScript string is a [string]; each [ascii] stands for one UTF-16
      code unit below 256.  The whitespace class of [String.prototype.trim]
      and of the regular expression escape [\s] is, in that range, the code
      units 9-13, 32 and 160.
    - A JavaScript number that holds an integer is a [Z]; the success rate,
      the only fractional quantity, is an exact rational [Q].
    - [Set<string>] is a [gset string], [Map<string, V>] a [gmap string V].
    - The embedded SQL store is a record of tables.  A table with a primary
      key is a [gmap] from the key to the row, a table with an
      auto-increment key is the list of its rows in insertion order.
      [sqlStorage.exec(query, ...bindings)] takes its bindings one by one:
      a statement that is handed as many of them as it has placeholders
      executes, and [exec] throws on any other number.  [saveState],
      [loadStateFromStorage] and [storeMessage] hand their values one by
      one; the statements on [inventory_transactions],
      [inventory_analysis], [inventory_decisions] and [chat_statistics]
      are handed all their values as one array, which is one binding, so
      they throw into the [catch] around them.
    - The clock is read once per operation and handed in as a [Time].
    - What an operation sends to its websockets, and the calls it makes to
      other agents, are collected in a trace of [Event]s. *)

From Stdlib Require Import ZArith QArith Qround String Ascii List Bool Lia.
From stdpp Require Import gmap strings list fin_maps pretty.

Local Open Scope Z_scope.

(* ===================================================================== *)
(** * JavaScript strings *)
(* ===================================================================== *)

Module JS.

(** WhiteSpace and LineTerminator code units below 256: TAB, LF, VT, FF,
    CR, SP and NBSP.  [trim] strips exactly these, [\s] matches exactly
    these. *)
Definition isWhitespace (c : ascii) : bool :=
  let n := N_of_ascii c in
  (((9 <=? n) && (n <=? 13)) || (n =? 32) || (n =? 160))%N.

Definition isDigit (c : ascii) : bool :=
  let n := N_of_ascii c in ((48 <=? n) && (n <=? 57))%N.

Definition isUpper (c : ascii) : bool :=
  let n := N_of_ascii c in ((65 <=? n) && (n <=? 90))%N.

Definition isLower (c : ascii) : bool :=
  let n := N_of_ascii c in ((97 <=? n) && (n <=? 122))%N.

Fixpoint trimStartL (l : list ascii) : list ascii :=
  match l with
  | c :: l' => if isWhitespace c then trimStartL l' else l
  | [] => []
  end.

Definition trimEndL (l : list ascii) : list ascii :=
  rev (trimStartL (rev l)).

(** [s.trim()] *)
Definition trim (s : string) : string :=
  string_of_list_ascii (trimEndL (trimStartL (list_ascii_of_string s))).

(** [s.length] *)
Definition length (s : string) : Z := Z.of_nat (String.length s).

(** [s.startsWith(p)] *)
Definition startsWith (p s : string) : bool := String.prefix p s.

(** [s.endsWith(p)] *)
Definition endsWith (p s : string) : bool :=
  let n := String.length s in
  let k := String.length p in
  (k <=? n)%nat && String.eqb (String.substring (n - k) k s) p.

(** [s.slice(0, -k)] for [k] no larger than the length; the empty string
    when [k] exceeds it. *)
Definition dropEnd (k : nat) (s : string) : string :=
  String.substring 0 (String.length s - k) s.

(** [s.indexOf(p)], [None] standing for -1. *)
Fixpoint indexOf (p s : string) : option nat :=
  if String.prefix p s then Some 0%nat
  else match s with
       | EmptyString => None
       | String _ s' => S <$> indexOf p s'
       end.

(** [s.includes(p)] *)
Definition includes (p s : string) : bool :=
  match indexOf p s with Some _ => true | None => false end.

(** [s.split(sep)] for a one-character separator: the pieces between
    the separators, empty pieces included. *)
Fixpoint split (sep : ascii) (s : string) : list string :=
  match s with
  | EmptyString => [EmptyString]
  | String c s' =>
      if Ascii.eqb c sep then EmptyString :: split sep s'
      else match split sep s' with
           | piece :: rest => String c piece :: rest
           | [] => [String c EmptyString]
           end
  end.

(** [parts.join(sep)] *)
Fixpoint join (sep : string) (parts : list string) : string :=
  match parts with
  | [] => EmptyString
  | [p] => p
  | p :: rest => p +:+ sep +:+ join sep rest
  end.

(** [Boolean(s)] on a string: the empty string is the only falsy one. *)
Definition truthy (s : string) : bool :=
  match s with EmptyString => false | _ => true end.

(** [a || b] on strings. *)
Definition or_else (a b : string) : string :=
  if truthy a then a else b.

End JS.

(* ===================================================================== *)
(** * Data model (services/base-fleet-manager.ts) *)
(* ===================================================================== *)

(** One reading of the clock: [Date.now()] in milliseconds and the same
    instant rendered by [new Date().toISOString()]. *)
Record Time := { ms : Z; iso : string }.

(** [Math.floor(Date.now() / 1000)] *)
Definition unixSeconds (now : Time) : Z := ms now / 1000.

(** [class InventoryError extends Error] *)
Record InventoryError := {
  code : string;
  message : string;
  statusCode : Z
}.

(** What a [throw] can carry: an [InventoryError] or any other [Error]. *)
Inductive Thrown :=
| ThrownInventory (e : InventoryError)
| ThrownError (msg : string).

Inductive Operation := opSet | opIncrement | opDecrement.

(** The frames of [FleetMessage] that the agent sends. *)
Inductive FleetMessage :=
| MsgState (counter : Z) (agents : list string)
| MsgError (message : string)
| MsgAgentCreated (name : string)
| MsgAgentDeleted (name : string)
| MsgMessage (from content : string)
| MsgStockUpdate (sku : string) (quantity : Z) (operation : Operation)
| MsgLowStockAlert (sku : string) (currentStock threshold : Z)
    (location : string)
| MsgChatStats (messagesToday actionsExecuted : Z) (successRate : Q)
| MsgChatResponse (role content timestamp : string) (loaded : bool)
(** [{type: 'message', from: 'System', content: `APPROVAL NEEDED: ...`}],
    kept as the values its text is rendered from *)
| MsgApprovalNeeded (sku : string) (quantity : Z) (urgency reasoning : string)
(** [{type: 'message', from: 'AI Inventory Agent', content:
    `Auto-reorder initiated: ...`}], kept as the values of its text *)
| MsgAutoReorder (quantity : Z) (sku urgency : string).

(** The fields of an update that [processStockUpdate] reads, whether it
    comes as an [InventoryUpdate] or as a [stockUpdate] frame. *)
Record InventoryUpdate := {
  u_sku : string;
  u_quantity : Z;
  u_operation : Operation
}.

Record InventoryItem := {
  sku : string;
  name : string;
  currentStock : Z;
  lowStockThreshold : Z;
  lastUpdated : string
}.

Inductive MessageType := direct | broadcast | system.

Record StoredMessage := {
  id : string;
  timestamp : string;
  from_agent : string;
  to_agent : option string;
  content : string;
  message_type : MessageType
}.

(** A server-side websocket: its identity, its [readyState], and whether
    [send] throws on it. *)
Record WebSocket := {
  ws_id : nat;
  readyState : Z;
  send_throws : bool
}.

(** [interface FleetState] *)
Record FleetState := {
  counter : Z;
  agents : gset string;
  websockets : list WebSocket;
  messages : list StoredMessage;
  inventory : gmap string InventoryItem;
  agentType : string
}.

(* ===================================================================== *)
(** * The embedded SQL store (schema version 1) *)
(* ===================================================================== *)

(** [fleet_state(id PK, counter, agents, agent_type, created_at,
    updated_at)]: the key of the table is [id].  The [agents] column holds
    the JSON text of an array of strings; it is kept as that array, since
    [JSON.parse] inverts [JSON.stringify] on arrays of strings. *)
Record FleetStateRow := {
  fs_counter : Z;
  fs_agents : list string;
  fs_agent_type : string;
  fs_created_at : Z;
  fs_updated_at : Z
}.

(** [inventory_items(sku PK, name, current_stock, low_stock_threshold,
    location, created_at, updated_at)]: the key of the table is [sku]. *)
Record InventoryRow := {
  ii_name : string;
  ii_current_stock : Z;
  ii_low_stock_threshold : Z;
  ii_location : string;
  ii_created_at : Z;
  ii_updated_at : Z
}.

(** [inventory_transactions(id auto, sku, operation, quantity, location,
    timestamp)] *)
Record TransactionRow := {
  tx_sku : string;
  tx_operation : Operation;
  tx_quantity : Z;
  tx_location : string;
  tx_timestamp : string
}.

(** [stored_messages(id PK, timestamp, from_agent, to_agent, content,
    message_type, location)] *)
Record MessageRow := {
  sm_message : StoredMessage;
  sm_location : string
}.

(** [inventory_analysis(id auto, sku, location, analysis, confidence,
    timestamp)]; the [analysis] column holds the JSON text of the insights
    and is kept as the insights. *)
Record InventoryInsights := {
  shouldReorder : bool;
  reorderQuantity : Z;
  urgency : string;
  leadTimeMs : Z;
  reasoning : string;
  confidence : Q
}.

Record AnalysisRow := {
  an_sku : string;
  an_location : string;
  an_analysis : InventoryInsights;
  an_confidence : Q;
  an_timestamp : string
}.

(** [inventory_decisions(id auto, sku, location, decision_type, reasoning,
    timestamp)] *)
Record DecisionRow := {
  de_sku : string;
  de_location : string;
  de_decision_type : string;
  de_reasoning : string;
  de_timestamp : string
}.

(** [chat_statistics(location, date, messages_today, actions_executed,
    successful_actions, success_rate, created_at, updated_at,
    UNIQUE(location, date))]: the key of the table is [(location, date)]. *)
Record ChatStatsRow := {
  cs_messages_today : Z;
  cs_actions_executed : Z;
  cs_successful_actions : Z;
  cs_success_rate : Q;
  cs_created_at : string;
  cs_updated_at : string
}.

Record Store := {
  fleet_state : gmap string FleetStateRow;
  inventory_items : gmap string InventoryRow;
  stored_messages : list MessageRow;
  inventory_transactions : list TransactionRow;
  inventory_analysis : list AnalysisRow;
  inventory_decisions : list DecisionRow;
  chat_statistics : gmap (string * string) ChatStatsRow
}.

Definition emptyStore : Store :=
  {| fleet_state := ∅; inventory_items := ∅; stored_messages := [];
     inventory_transactions := []; inventory_analysis := [];
     inventory_decisions := []; chat_statistics := ∅ |}.

(** [sqlStorage.exec(query, ...bindings)] on a statement that writes:
    [placeholders] counts the [?] of the statement, [bindings] the
    arguments handed after it, an array handed as one argument being one
    binding.  When the two agree the statement runs, as [effect] on the
    store; otherwise [exec] throws, which is [None], and the store is as it
    was. *)
Definition exec (placeholders bindings : nat) (effect : Store → Store)
    (sql : Store) : option Store :=
  if (placeholders =? bindings)%nat then Some (effect sql) else None.

(* ===================================================================== *)
(** * The agent object and its effects *)
(* ===================================================================== *)

(** What an operation does to the outside: a frame handed to [ws.send], a
    [ws.close()], or a [stub.fetch] on the agent named [target]. *)
Inductive Event :=
| Sent (ws : nat) (m : FleetMessage)
| Closed (ws : nat)
| Fetched (target method url : string).

(** [InventoryAgent.chatStats] *)
Record ChatStats := {
  messagesToday : Z;
  actionsExecuted : Z;
  successfulActions : Z;
  successRate : Q
}.

(** The fields of [BaseFleetManager] and [InventoryAgent] that the modelled
    methods use, and the [trace] of what the object did to the outside. *)
Record Agent := {
  currentPath : string;
  state : FleetState;
  cache : gset string;
  stateLoaded : bool;
  initializationComplete : bool;
  chatStats : ChatStats;
  sqlStorage : Store;
  trace : list Event
}.

Definition setChatStats (f : ChatStats → ChatStats) (a : Agent) : Agent :=
  {| currentPath := currentPath a; state := state a; cache := cache a;
     stateLoaded := stateLoaded a;
     initializationComplete := initializationComplete a;
     chatStats := f (chatStats a);
     sqlStorage := sqlStorage a; trace := trace a |}.

Definition setState (f : FleetState → FleetState) (a : Agent) : Agent :=
  {| currentPath := currentPath a; state := f (state a); cache := cache a;
     stateLoaded := stateLoaded a;
     initializationComplete := initializationComplete a;
     chatStats := chatStats a;
     sqlStorage := sqlStorage a; trace := trace a |}.

Definition setCache (f : gset string → gset string) (a : Agent) : Agent :=
  {| currentPath := currentPath a; state := state a; cache := f (cache a);
     stateLoaded := stateLoaded a;
     initializationComplete := initializationComplete a;
     chatStats := chatStats a;
     sqlStorage := sqlStorage a; trace := trace a |}.

Definition setStateLoaded (b : bool) (a : Agent) : Agent :=
  {| currentPath := currentPath a; state := state a; cache := cache a;
     stateLoaded := b;
     initializationComplete := initializationComplete a;
     chatStats := chatStats a;
     sqlStorage := sqlStorage a; trace := trace a |}.

Definition setSql (f : Store → Store) (a : Agent) : Agent :=
  {| currentPath := currentPath a; state := state a; cache := cache a;
     stateLoaded := stateLoaded a;
     initializationComplete := initializationComplete a;
     chatStats := chatStats a;
     sqlStorage := f (sqlStorage a); trace := trace a |}.

Definition addEvent (e : Event) (a : Agent) : Agent :=
  {| currentPath := currentPath a; state := state a; cache := cache a;
     stateLoaded := stateLoaded a;
     initializationComplete := initializationComplete a;
     chatStats := chatStats a;
     sqlStorage := sqlStorage a; trace := trace a ++ [e] |}.

Definition setCounter (c : Z) (s : FleetState) : FleetState :=
  {| counter := c; agents := agents s; websockets := websockets s;
     messages := messages s; inventory := inventory s;
     agentType := agentType s |}.

Definition setAgents (g : gset string) (s : FleetState) : FleetState :=
  {| counter := counter s; agents := g; websockets := websockets s;
     messages := messages s; inventory := inventory s;
     agentType := agentType s |}.

Definition setWebsockets (w : list WebSocket) (s : FleetState) : FleetState :=
  {| counter := counter s; agents := agents s; websockets := w;
     messages := messages s; inventory := inventory s;
     agentType := agentType s |}.

Definition setMessages (l : list StoredMessage) (s : FleetState) : FleetState :=
  {| counter := counter s; agents := agents s; websockets := websockets s;
     messages := l; inventory := inventory s; agentType := agentType s |}.

Definition setInventory (i : gmap string InventoryItem) (s : FleetState)
  : FleetState :=
  {| counter := counter s; agents := agents s; websockets := websockets s;
     messages := messages s; inventory := i; agentType := agentType s |}.

Definition setAgentType (t : string) (s : FleetState) : FleetState :=
  {| counter := counter s; agents := agents s; websockets := websockets s;
     messages := messages s; inventory := inventory s; agentType := t |}.

(** A method of the agent: it runs on the object, may change it, and either
    returns or throws.  What it changed before a [throw] stays changed. *)
Inductive Outcome (A : Type) :=
| Returned (x : A)
| Threw (e : Thrown).
Arguments Returned {A} x.
Arguments Threw {A} e.

Definition M (A : Type) : Type := Agent → Agent * Outcome A.

Definition ret {A} (x : A) : M A := λ a, (a, Returned x).

Definition bind {A B} (m : M A) (k : A → M B) : M B :=
  λ a, match m a with
       | (a', Returned x) => k x a'
       | (a', Threw e) => (a', Threw e)
       end.

#[global] Instance M_ret : MRet M := @ret.
#[global] Instance M_bind : MBind M := λ A B k m, bind m k.

(** [throw e] *)
Definition throw {A} (e : Thrown) : M A := λ a, (a, Threw e).

(** [try { m } catch (error) { h error }] *)
Definition tryCatch {A} (m : M A) (h : Thrown → M A) : M A :=
  λ a, match m a with
       | (a', Returned x) => (a', Returned x)
       | (a', Threw e) => h e a'
       end.

Definition get : M Agent := λ a, (a, Returned a).
Definition modify (f : Agent → Agent) : M unit := λ a, (f a, Returned tt).

(** [this.sqlStorage.exec(query, ...bindings)] of an agent, on a statement
    that writes: [exec] on its store, the [Error] that it throws when the
    bindings are not as many as the placeholders. *)
Definition sqlExec (placeholders bindings : nat) (effect : Store → Store)
  : M unit :=
  a ← get;
  match exec placeholders bindings effect (sqlStorage a) with
  | Some sql => modify (setSql (λ _, sql))
  | None =>
      throw (ThrownError "Wrong number of parameter bindings for SQL query.")
  end.

(** [this.sqlStorage.exec(query, ...bindings)] on a [SELECT]: what the
    statement reads, [result], of the store, under the same condition. *)
Definition sqlQuery {A} (placeholders bindings : nat) (result : Store → A)
  : M A :=
  a ← get;
  if (placeholders =? bindings)%nat then mret (result (sqlStorage a))
  else throw (ThrownError "Wrong number of parameter bindings for SQL query.").

(** [for (const x of xs) { body x }] *)
Fixpoint forEach {A} (xs : list A) (body : A → M unit) : M unit :=
  match xs with
  | [] => mret tt
  | x :: xs' => body x ;; forEach xs' body
  end.

(* ===================================================================== *)
(** * Input validation (services/base-fleet-manager.ts) *)
(* ===================================================================== *)

(** The character class [[a-zA-Z0-9\s_-]] of the agent name pattern. *)
Definition nameChar (c : ascii) : bool :=
  JS.isLower c || JS.isUpper c || JS.isDigit c || JS.isWhitespace c
  || Ascii.eqb c "_" || Ascii.eqb c "-".

(** [/^[a-zA-Z0-9\s_-]+$/.test(s)] *)
Definition nameRegex (s : string) : bool :=
  JS.truthy s && forallb nameChar (list_ascii_of_string s).

(** [AgentNameSchema = z.string().min(1).max(32).regex(...)]: whether
    [parse] accepts the string. *)
Definition AgentNameSchema (s : string) : bool :=
  (1 <=? JS.length s) && (JS.length s <=? 32) && nameRegex s.

(** [StockUpdateSchema]: [sku] of 1 to 50 characters, [quantity] an integer
    that is at least 0, [operation] one of the three. *)
Definition StockUpdateSchema (u : InventoryUpdate) : bool :=
  (1 <=? JS.length (u_sku u)) && (JS.length (u_sku u) <=? 50)
  && (0 <=? u_quantity u).

Definition VALIDATION_ERROR : InventoryError :=
  {| code := "VALIDATION_ERROR"; message := "Invalid input";
     statusCode := 400 |}.

(** [validateInput(schema, data)] *)
Definition validateInput {A} (schema : A → bool) (data : A) : M A :=
  if schema data then mret data
  else throw (ThrownInventory VALIDATION_ERROR).

(* ===================================================================== *)
(** * BaseFleetManager (services/base-fleet-manager.ts) *)
(* ===================================================================== *)

(** [this.state.websockets.delete(ws)] *)
Definition deleteWebSocket (ws : WebSocket) (s : FleetState) : FleetState :=
  setWebsockets
    (filter (λ w, ws_id w ≠ ws_id ws) (websockets s)) s.

(** [sendToWebSocket(ws, message)]: sends on an open socket; a socket whose
    [send] throws is dropped from the set. *)
Definition sendToWebSocket (ws : WebSocket) (m : FleetMessage) : M unit :=
  if readyState ws =? 1 then
    if send_throws ws then modify (setState (deleteWebSocket ws))
    else modify (addEvent (Sent (ws_id ws) m))
  else mret tt.

(** [broadcastToWebSockets(message)] *)
Definition broadcastToWebSockets (m : FleetMessage) : M unit :=
  a ← get;
  forEach (websockets (state a)) (λ ws, sendToWebSocket ws m).

(** [broadcastState()]; [Array.from(this.state.agents)] is [elements]. *)
Definition broadcastState : M unit :=
  a ← get;
  if initializationComplete a then
    broadcastToWebSockets
      (MsgState (counter (state a)) (elements (agents (state a))))
  else mret tt.

Definition setFleetStateTable (t : gmap string FleetStateRow) (s : Store)
  : Store :=
  {| fleet_state := t; inventory_items := inventory_items s;
     stored_messages := stored_messages s;
     inventory_transactions := inventory_transactions s;
     inventory_analysis := inventory_analysis s;
     inventory_decisions := inventory_decisions s;
     chat_statistics := chat_statistics s |}.

Definition setInventoryItems (t : gmap string InventoryRow) (s : Store)
  : Store :=
  {| fleet_state := fleet_state s; inventory_items := t;
     stored_messages := stored_messages s;
     inventory_transactions := inventory_transactions s;
     inventory_analysis := inventory_analysis s;
     inventory_decisions := inventory_decisions s;
     chat_statistics := chat_statistics s |}.

(** The row that [saveState] writes for one item. *)
Definition inventoryRow (location : string) (ts : Z) (item : InventoryItem)
  : InventoryRow :=
  {| ii_name := name item; ii_current_stock := currentStock item;
     ii_low_stock_threshold := lowStockThreshold item;
     ii_location := location; ii_created_at := ts; ii_updated_at := ts |}.

(** The loop of [saveState] over [this.state.inventory]: one
    [INSERT OR REPLACE INTO inventory_items] per entry, keyed by the item's
    own [sku].  (The entries are visited in the order of the [gmap]; the
    order only matters when two entries carry the same [item.sku].) *)
Definition saveInventory (location : string) (ts : Z)
    (inv : gmap string InventoryItem) (t : gmap string InventoryRow)
  : gmap string InventoryRow :=
  map_fold (λ _ item acc, <[sku item := inventoryRow location ts item]> acc)
    t inv.

(** [saveState()] *)
Definition saveState (now : Time) : M unit :=
  a ← get;
  let timestamp := unixSeconds now in
  modify (setSql (λ s, setFleetStateTable
    (<[currentPath a :=
         {| fs_counter := counter (state a);
            fs_agents := elements (agents (state a));
            fs_agent_type := agentType (state a);
            fs_created_at := timestamp;
            fs_updated_at := timestamp |}]> (fleet_state s)) s)) ;;
  modify (setSql (λ s, setInventoryItems
    (saveInventory (currentPath a) timestamp (inventory (state a))
       (inventory_items s)) s)).

(** [x || d] on numbers: 0 is the falsy integer. *)
Definition num_or (x d : Z) : Z := if x =? 0 then d else x.

(** The item that [loadStateFromStorage] builds from a row; [lastUpdated]
    is the time of loading. *)
Definition itemOfRow (now : Time) (k : string) (row : InventoryRow)
  : InventoryItem :=
  {| sku := k; name := ii_name row; currentStock := ii_current_stock row;
     lowStockThreshold := ii_low_stock_threshold row;
     lastUpdated := iso now |}.

(** The rows of [SELECT * FROM inventory_items WHERE location = ?], as the
    items built from them. *)
Definition loadedInventory (now : Time) (location : string)
    (t : gmap string InventoryRow) : gmap string InventoryItem :=
  map_imap (λ k row, if decide (ii_location row = location)
                      then Some (itemOfRow now k row) else None) t.

(** [loadStateFromStorage()]: when the path has a row, its counter, agent
    type and agents replace the ones in memory; every inventory row of the
    path is [set] into the inventory map.  (The fallback of
    [stateRow.agents || '[]'] is never taken: the JSON text of an array is
    not empty.) *)
Definition loadStateFromStorage (now : Time) : M unit :=
  a ← get;
  match fleet_state (sqlStorage a) !! currentPath a with
  | Some stateRow =>
      modify (setState (setCounter (num_or (fs_counter stateRow) 0))) ;;
      modify (setState (setAgentType
        (JS.or_else (fs_agent_type stateRow) "orchestrator"))) ;;
      modify (setState (setAgents (list_to_set (fs_agents stateRow))))
  | None => mret tt
  end ;;
  modify (setState (λ s, setInventory
    (loadedInventory now (currentPath a) (inventory_items (sqlStorage a))
       ∪ inventory s) s)) ;;
  modify (setStateLoaded true).

(** The object that [new InventoryAgent(ctx, env)] starts from, before any
    load: the defaults of the constructor over the storage [ctx.storage]. *)
Definition newAgent (store : Store) : Agent :=
  {| currentPath := "/";
     state := {| counter := 0; agents := ∅; websockets := [];
                 messages := []; inventory := ∅;
                 agentType := "orchestrator" |};
     cache := ∅; stateLoaded := false; initializationComplete := false;
     chatStats := {| messagesToday := 0; actionsExecuted := 0;
                    successfulActions := 0; successRate := 0 |};
     sqlStorage := store; trace := [] |}.

Definition setCurrentPath (p : string) (a : Agent) : Agent :=
  {| currentPath := p; state := state a; cache := cache a;
     stateLoaded := stateLoaded a;
     initializationComplete := initializationComplete a;
     chatStats := chatStats a;
     sqlStorage := sqlStorage a; trace := trace a |}.

Definition setInitializationComplete (b : bool) (a : Agent) : Agent :=
  {| currentPath := currentPath a; state := state a; cache := cache a;
     stateLoaded := stateLoaded a; initializationComplete := b;
     chatStats := chatStats a;
     sqlStorage := sqlStorage a; trace := trace a |}.

(** A fresh instance serving [path]: the constructor's defaults with
    [currentPath] set as [updateTenantAndPath] sets it. *)
Definition freshAgent (path : string) (store : Store) : Agent :=
  setCurrentPath path (newAgent store).

(* ===================================================================== *)
(** * InventoryAgent (durable-objects/fleet-manager.ts) *)
(* ===================================================================== *)

Definition hexDigit (n : N) : ascii :=
  ascii_of_N (if (n <? 10)%N then 48 + n else 55 + n)%N.

Definition percentByte (n : N) : string :=
  String "%" (String (hexDigit (n / 16)) (String (hexDigit (n mod 16)) "")).

(** The characters [encodeURIComponent] leaves alone. *)
Definition uriUnreserved (c : ascii) : bool :=
  JS.isLower c || JS.isUpper c || JS.isDigit c
  || existsb (Ascii.eqb c) ["-"; "_"; "."; "!"; "~"; "*"; "'"; "("; ")"]%char.

(** [encodeURIComponent(s)]: every other code unit becomes the
    percent-escaped bytes of its UTF-8 encoding. *)
Fixpoint encodeURIComponent (s : string) : string :=
  match s with
  | EmptyString => EmptyString
  | String c s' =>
      let n := N_of_ascii c in
      (if uriUnreserved c then String c EmptyString
       else if (n <? 128)%N then percentByte n
       else percentByte (192 + n / 64) +:+ percentByte (128 + n mod 64))
      +:+ encodeURIComponent s'
  end.

(** The path of the child named [name]. *)
Definition childPath (current name : string) : string :=
  if String.eqb current "/" then "/" +:+ encodeURIComponent name
  else current +:+ "/" +:+ encodeURIComponent name.

(** How a [stub.fetch] ends: with a response of some status, or rejected. *)
Inductive FetchResult :=
| Responded (status : Z)
| Rejected (reason : string).

(** [await stub.fetch(new Request(url, {method}))] on the agent named
    [target]. *)
Definition fetchStub (target method url : string) (r : FetchResult)
  : M Z :=
  modify (addEvent (Fetched target method url)) ;;
  match r with
  | Responded status => mret status
  | Rejected reason => throw (ThrownError reason)
  end.

Definition quote : string := String (ascii_of_nat 34) EmptyString.

Definition AGENT_EXISTS (trimmedName : string) : InventoryError :=
  {| code := "AGENT_EXISTS";
     message := "Agent " +:+ quote +:+ trimmedName +:+ quote +:+ " already exists";
     statusCode := 409 |}.

(** [incrementCounter()] *)
Definition incrementCounter (now : Time) : M unit :=
  modify (setState (λ s, setCounter (counter s + 1) s)) ;;
  saveState now ;;
  broadcastState.

(** The [try] block of [createAgent(name)]. *)
Definition createAgentBody (now : Time) (name : string) : M unit :=
  trimmedName ← validateInput AgentNameSchema (JS.trim name);
  a ← get;
  if decide (trimmedName ∈ agents (state a)) then
    throw (ThrownInventory (AGENT_EXISTS trimmedName))
  else
    modify (setState (λ s, setAgents (agents s ∪ {[trimmedName]}) s)) ;;
    saveState now ;;
    modify (setCache (λ c, c ∖ {["state:" +:+ currentPath a]})) ;;
    modify (setCache (λ c, c ∖ {["loaded:" +:+ currentPath a]})) ;;
    broadcastToWebSockets (MsgAgentCreated trimmedName) ;;
    broadcastState.

(** [createAgent(name)]: whatever the block throws ends as an error frame
    on the websockets. *)
Definition createAgent (now : Time) (name : string) : M unit :=
  tryCatch (createAgentBody now name)
    (λ error,
       match error with
       | ThrownInventory e => broadcastToWebSockets (MsgError (message e))
       | ThrownError _ =>
           broadcastToWebSockets
             (MsgError "Failed to create agent due to an unexpected error")
       end).

(** [deleteAgent(name)]; [cascade] is how the child's [delete-subtree]
    call ends. *)
Definition deleteAgent (now : Time) (cascade : FetchResult) (name : string)
  : M unit :=
  a ← get;
  if decide (name ∈ agents (state a)) then
    tryCatch
      (fetchStub (childPath (currentPath a) name) "POST"
         "http://internal/delete-subtree" cascade ;;
       modify (setState (λ s, setAgents (agents s ∖ {[name]}) s)) ;;
       saveState now ;;
       modify (setCache (λ c, c ∖ {["state:" +:+ currentPath a]})) ;;
       broadcastToWebSockets (MsgAgentDeleted name) ;;
       broadcastState)
      (λ _,
         modify (setState (λ s, setAgents (agents s ∖ {[name]}) s)) ;;
         saveState now ;;
         broadcastToWebSockets
           (MsgMessage "system"
              ("Deleted " +:+ name +:+ " (cascade may have failed)")) ;;
         broadcastState)
  else
    broadcastToWebSockets
      (MsgError ("Agent " +:+ quote +:+ name +:+ quote +:+ " does not exist")).

Record Response := { status : Z; body : string }.

(** [handleDeleteSubtree()]; [children] is how each child's
    [delete-subtree] call ends. *)
Definition handleDeleteSubtree (now : Time) (children : string → FetchResult)
  : M Response :=
  tryCatch
    (a ← get;
     forEach (elements (agents (state a)))
       (λ agentName,
          tryCatch
            (fetchStub (childPath (currentPath a) agentName) "POST"
               "http://internal/delete-subtree" (children agentName) ;;
             mret tt)
            (λ _, mret tt)) ;;
     modify (setState (setAgents ∅)) ;;
     modify (setState (setCounter 0)) ;;
     modify (setState (setMessages [])) ;;
     saveState now ;;
     a' ← get;
     forEach (websockets (state a'))
       (λ ws, modify (addEvent (Closed (ws_id ws)))) ;;
     modify (setState (setWebsockets [])) ;;
     mret {| status := 200; body := "Subtree deleted" |})
    (λ _, mret {| status := 500; body := "Error deleting subtree" |}).

(* ===================================================================== *)
(** * InventoryService (services/inventory-service.ts) *)
(* ===================================================================== *)

Module InventoryService.

(** What the external collaborators answer during one stock update:
    [aiParsed] is the [parsed] insights of the model call ([None] when the
    call fails), [reorderWorkflow] the id that [REORDER_WORKFLOW.create]
    returns ([None] when the binding is absent or the call throws). *)
Record Collaborators := {
  aiParsed : option InventoryInsights;
  reorderWorkflow : option string
}.

Definition addTransaction (r : TransactionRow) (s : Store) : Store :=
  {| fleet_state := fleet_state s; inventory_items := inventory_items s;
     stored_messages := stored_messages s;
     inventory_transactions := inventory_transactions s ++ [r];
     inventory_analysis := inventory_analysis s;
     inventory_decisions := inventory_decisions s;
     chat_statistics := chat_statistics s |}.

Definition addAnalysis (r : AnalysisRow) (s : Store) : Store :=
  {| fleet_state := fleet_state s; inventory_items := inventory_items s;
     stored_messages := stored_messages s;
     inventory_transactions := inventory_transactions s;
     inventory_analysis := inventory_analysis s ++ [r];
     inventory_decisions := inventory_decisions s;
     chat_statistics := chat_statistics s |}.

Definition addDecision (r : DecisionRow) (s : Store) : Store :=
  {| fleet_state := fleet_state s; inventory_items := inventory_items s;
     stored_messages := stored_messages s;
     inventory_transactions := inventory_transactions s;
     inventory_analysis := inventory_analysis s;
     inventory_decisions := inventory_decisions s ++ [r];
     chat_statistics := chat_statistics s |}.

(** [AIService.analyzeInventoryTrends]: the model's insights, or the
    conservative fallback when the model call fails. *)
Definition analyzeInventoryTrends (env : Collaborators) (item : InventoryItem)
  : InventoryInsights :=
  match aiParsed env with
  | Some insights => insights
  | None =>
      {| shouldReorder := currentStock item <=? lowStockThreshold item;
         reorderQuantity := lowStockThreshold item * 2;
         urgency := "medium";
         leadTimeMs := 7 * 24 * 60 * 60 * 1000;
         reasoning := "Fallback analysis due to AI processing error";
         confidence := 1 # 2 |}
  end.

(** [processLowStockAlert]: stores the analysis; when a reorder is advised,
    asks for approval if it is critical or large, triggers the workflow and
    announces it; stores the decision.  Whatever throws on the way ends the
    method, in its [catch], with the store and the messages as they are
    at that point.  The two [INSERT]s have five placeholders and are
    handed one array. *)
Definition processLowStockAlert (env : Collaborators) (now : Time)
    (sku : string) (item : InventoryItem) (location : string) (sql : Store)
  : Store * list FleetMessage :=
  let insights := analyzeInventoryTrends env item in
  match exec 5 1
          (addAnalysis {| an_sku := sku; an_location := location;
                          an_analysis := insights;
                          an_confidence := confidence insights;
                          an_timestamp := iso now |}) sql with
  | None => (sql, [])
  | Some sql1 =>
      let decision :=
        {| de_sku := sku; de_location := location;
           de_decision_type := "reorder_analysis";
           de_reasoning := reasoning insights; de_timestamp := iso now |} in
      let decided (s : Store) : Store :=
        match exec 5 1 (addDecision decision) s with
        | Some s' => s'
        | None => s
        end in
      if shouldReorder insights then
        let approval :=
          if String.eqb (urgency insights) "critical"
             || (1000 <? reorderQuantity insights)
          then [MsgApprovalNeeded sku (reorderQuantity insights)
                  (urgency insights) (reasoning insights)]
          else [] in
        match reorderWorkflow env with
        | Some _ =>
            (decided sql1,
             (approval ++ [MsgAutoReorder (reorderQuantity insights) sku
                             (urgency insights)])%list)
        | None => (sql1, approval)
        end
      else (decided sql1, [])
  end.

(** The [switch (operation)] of [processStockUpdate]. *)
Definition applyOperation (operation : Operation) (stock quantity : Z) : Z :=
  match operation with
  | opSet => quantity
  | opIncrement => stock + quantity
  | opDecrement => Z.max 0 (stock - quantity)
  end.

(** [inventory.get(sku)], or the item created for an unknown SKU. *)
Definition getOrCreate (now : Time) (k : string)
    (inventory : gmap string InventoryItem) : InventoryItem :=
  match inventory !! k with
  | Some item => item
  | None =>
      {| sku := k; name := "Product " +:+ k; currentStock := 0;
         lowStockThreshold := 10; lastUpdated := iso now |}
  end.

(** The item after the operation is applied to it:
    [item.currentStock = ...; item.lastUpdated = new Date().toISOString()]
    on the item found or created. *)
Definition updatedItem (now : Time) (update : InventoryUpdate)
    (inventory : gmap string InventoryItem) : InventoryItem :=
  let item := getOrCreate now (u_sku update) inventory in
  {| sku := sku item; name := name item;
     currentStock :=
       applyOperation (u_operation update) (currentStock item)
         (u_quantity update);
     lowStockThreshold := lowStockThreshold item;
     lastUpdated := iso now |}.

(** [processStockUpdate(update, location, sqlStorage, inventory,
    broadcastCallback)]: the inventory map and the store after the call,
    and the messages handed to [broadcastCallback], in order.  The [INSERT]
    of the transaction has five placeholders and is handed one array; when
    it throws, its [catch] logs and the method goes on.  (Storing the
    product embedding touches the vector index only.) *)
Definition processStockUpdate (env : Collaborators) (now : Time)
    (update : InventoryUpdate) (location : string) (sql : Store)
    (inventory : gmap string InventoryItem)
  : gmap string InventoryItem * Store * list FleetMessage :=
  let k := u_sku update in
  let quantity := u_quantity update in
  let operation := u_operation update in
  let item := updatedItem now update inventory in
  let inventory' := <[k := item]> inventory in
  let sql1 :=
    match exec 5 1
            (addTransaction {| tx_sku := k; tx_operation := operation;
                               tx_quantity := quantity;
                               tx_location := location;
                               tx_timestamp := iso now |}) sql with
    | Some sql' => sql'
    | None => sql
    end in
  let '(sql2, alerts) :=
    if currentStock item <=? lowStockThreshold item then
      let '(sql', announced) :=
        processLowStockAlert env now k item location sql1 in
      (sql', MsgLowStockAlert k (currentStock item) (lowStockThreshold item)
               location :: announced)
    else (sql1, []) in
  (inventory', sql2,
   (alerts ++ [MsgStockUpdate k (currentStock item) opSet])%list).

End InventoryService.

(** [propagateStockUpdate(update)]: away from the root, posts the update to
    the parent's stock endpoint; a failure of that call is only logged. *)
Definition propagateStockUpdate : M unit :=
  a ← get;
  if String.eqb (currentPath a) "/" then mret tt
  else
    let pathParts := filter (λ p, p ≠ "") (JS.split "/" (currentPath a)) in
    match pathParts with
    | [] => mret tt
    | _ =>
        let parentPath :=
          if (length pathParts =? 1)%nat then "/"
          else "/" +:+ JS.join "/" (removelast pathParts) in
        modify (addEvent (Fetched parentPath "POST"
                            "http://internal/inventory/stock"))
    end.

(** [InventoryAgent.processStockUpdate(update)] *)
Definition processStockUpdate (env : InventoryService.Collaborators)
    (now : Time) (update : InventoryUpdate) : M unit :=
  a ← get;
  let '(inventory', sql', announced) :=
    InventoryService.processStockUpdate env now update (currentPath a)
      (sqlStorage a) (inventory (state a)) in
  modify (setState (setInventory inventory')) ;;
  modify (setSql (λ _, sql')) ;;
  forEach announced broadcastToWebSockets ;;
  saveState now ;;
  propagateStockUpdate.

(* ===================================================================== *)
(** * Chat statistics (durable-objects/fleet-manager.ts) *)
(* ===================================================================== *)

Inductive StatKind := statMessage | statAction | statSuccess | statFailure.

(** [new Date().toISOString().split('T')[0]] *)
Definition today (now : Time) : string :=
  match JS.split "T" (iso now) with
  | d :: _ => d
  | [] => EmptyString
  end.

(** [actionsExecuted > 0 ? (successfulActions / actionsExecuted) * 100 : 0] *)
Definition computeSuccessRate (c : ChatStats) : Q :=
  if 0 <? actionsExecuted c
  then (inject_Z (successfulActions c) / inject_Z (actionsExecuted c)) * 100
  else 0.

Definition setChatStatistics (t : gmap (string * string) ChatStatsRow)
    (s : Store) : Store :=
  {| fleet_state := fleet_state s; inventory_items := inventory_items s;
     stored_messages := stored_messages s;
     inventory_transactions := inventory_transactions s;
     inventory_analysis := inventory_analysis s;
     inventory_decisions := inventory_decisions s;
     chat_statistics := t |}.

(** The statistics with the rate computed again from the two counters. *)
Definition withSuccessRate (c : ChatStats) : ChatStats :=
  {| messagesToday := messagesToday c;
     actionsExecuted := actionsExecuted c;
     successfulActions := successfulActions c;
     successRate := computeSuccessRate c |}.

(** [saveChatStatistics()]: recomputes the rate in memory, then replaces
    the row of [(location, date)], keeping the [created_at] of a row
    already there.  The statement has ten placeholders and is handed one
    array; what it throws is caught and logged.  (The test of persistence
    that follows a successful statement only reads and logs.) *)
Definition saveChatStatistics (now : Time) : M unit :=
  tryCatch
    (modify (setChatStats withSuccessRate) ;;
     a ← get;
     let key := (currentPath a, today now) in
     sqlExec 10 1 (λ s, setChatStatistics
       (<[key :=
            {| cs_messages_today := messagesToday (chatStats a);
               cs_actions_executed := actionsExecuted (chatStats a);
               cs_successful_actions := successfulActions (chatStats a);
               cs_success_rate := successRate (chatStats a);
               cs_created_at :=
                 match chat_statistics s !! key with
                 | Some old => cs_created_at old
                 | None => iso now
                 end;
               cs_updated_at := iso now |}]> (chat_statistics s)) s))
    (λ _, mret tt).

(** [Math.round(x * 100) / 100] *)
Definition round2 (x : Q) : Q :=
  inject_Z (Qfloor (x * 100 + (1 # 2))) / 100.

(** [broadcastChatStats()] *)
Definition broadcastChatStats : M unit :=
  a ← get;
  broadcastToWebSockets
    (MsgChatStats (messagesToday (chatStats a))
       (actionsExecuted (chatStats a))
       (round2 (successRate (chatStats a)))).

(** The [switch (type)] of [updateChatStats]. *)
Definition countStat (type : StatKind) (c : ChatStats) : ChatStats :=
  match type with
  | statMessage =>
      {| messagesToday := messagesToday c + 1;
         actionsExecuted := actionsExecuted c;
         successfulActions := successfulActions c;
         successRate := successRate c |}
  | statAction =>
      {| messagesToday := messagesToday c;
         actionsExecuted := actionsExecuted c + 1;
         successfulActions := successfulActions c;
         successRate := successRate c |}
  | statSuccess =>
      {| messagesToday := messagesToday c;
         actionsExecuted := actionsExecuted c;
         successfulActions := successfulActions c + 1;
         successRate := successRate c |}
  | statFailure => c
  end.

(** [updateChatStats(type)] *)
Definition updateChatStats (now : Time) (type : StatKind) : M unit :=
  tryCatch
    (modify (setChatStats (countStat type)) ;;
     saveChatStatistics now ;;
     broadcastChatStats)
    (λ _, mret tt).

(** [sendChatHistory(ws)]: the stored messages of the user and of the
    assistant, as chat frames to the one socket. *)
Definition sendChatHistory (ws : WebSocket) : M unit :=
  a ← get;
  forEach (messages (state a))
    (λ m,
       if String.eqb (from_agent m) "user" then
         sendToWebSocket ws
           (MsgChatResponse "user" (content m) (timestamp m) false)
       else if String.eqb (from_agent m) "ai-assistant" then
         sendToWebSocket ws
           (MsgChatResponse "assistant" (content m) (timestamp m) true)
       else mret tt).

(** [handleWebSocket(request)]: the accepted socket [server] joins the set;
    it is sent the state once initialisation is complete, then the chat
    history; the statistics go to every socket. *)
Definition handleWebSocket (server : WebSocket) : M Response :=
  modify (setState (λ s, setWebsockets (websockets s ++ [server]) s)) ;;
  a ← get;
  (if initializationComplete a then
     sendToWebSocket server
       (MsgState (counter (state a)) (elements (agents (state a))))
   else mret tt) ;;
  sendChatHistory server ;;
  broadcastChatStats ;;
  mret {| status := 101; body := "" |}.

(** [webSocketClose(ws, ...)] *)
Definition webSocketClose (ws : WebSocket) : M unit :=
  modify (setState (deleteWebSocket ws)).

(** [x || 0.0] on a fractional number. *)
Definition rate_or (x d : Q) : Q := if Qeq_bool x 0 then d else x.

(** [loadChatStatistics()]: today's row of the current path, when there is
    one, replaces the statistics in memory.  The [SELECT] has two
    placeholders and is handed one array; what it throws is caught and
    logged. *)
Definition loadChatStatistics (now : Time) : M unit :=
  tryCatch
    (a ← get;
     stats ← sqlQuery 2 1
       (λ s, chat_statistics s !! (currentPath a, today now));
     match stats with
     | Some stats =>
         modify (setChatStats (λ _,
           {| messagesToday := num_or (cs_messages_today stats) 0;
              actionsExecuted := num_or (cs_actions_executed stats) 0;
              successfulActions := num_or (cs_successful_actions stats) 0;
              successRate := rate_or (cs_success_rate stats) 0 |}))
     | None => mret tt
     end)
    (λ _, mret tt).

(** One round of the loop of [executeChatActions]: the action is counted,
    runs, and is then counted as a success, or as a failure when it threw.
    [succeeds] tells whether the action's own code returns; what that code
    does concerns the rest of the agent (a stock update that a chat action
    asks for is the operation [processStockUpdate] of its own). *)
Definition executeChatAction (now : Time) (succeeds : bool) : M unit :=
  tryCatch
    (updateChatStats now statAction ;;
     (if succeeds then mret tt
      else throw (ThrownError "action failed")) ;;
     updateChatStats now statSuccess)
    (λ _, updateChatStats now statFailure).

(** [executeChatActions(actions, ws)] *)
Definition executeChatActions (now : Time) (actions : list bool) : M unit :=
  forEach actions (executeChatAction now).

(** The statistics side of [processChatMessage]: the message is counted,
    then the actions of the reply, if any, are executed. *)
Definition processChatMessage (now : Time) (actions : list bool) : M unit :=
  tryCatch
    (updateChatStats now statMessage ;;
     executeChatActions now actions)
    (λ _, mret tt).

(** The constructor's initialisation of a restarted agent, as far as the
    state and the statistics go: both are loaded for the default path.
    The constructor also loads the chat history into [messages] and
    deletes the chat messages older than 30 days; neither is part of the
    model, which leaves the messages of a restarted agent empty and says
    nothing of them. *)
Definition initialize (now : Time) (store : Store) : Agent :=
  let a1 := fst (loadStateFromStorage now (newAgent store)) in
  let a2 := fst (loadChatStatistics now a1) in
  setInitializationComplete true a2.

(* ===================================================================== *)
(** * The router (worker entry point) *)
(* ===================================================================== *)

Module Router.

(** What the handler reads from a request: the [host] header (empty when
    absent), [c.req.path], the method, and whether the [upgrade] header is
    [websocket]. *)
Record Request := {
  host : string;
  path : string;
  method : string;
  upgradeWebsocket : bool
}.

(** What the handler answers with: the HTML page, or the request forwarded
    to the agent [idFromName(tenantFleetId)] with the two routing headers
    and the URL path it is given. *)
Inductive Routed :=
| ServeHtml (uiPath tenantId : string)
| Forward (tenantFleetId xFleetPath xTenantId pathname : string).

(** [path.split('/').filter(Boolean)] *)
Definition pathParts (p : string) : list string :=
  filter (λ x, JS.truthy x = true) (JS.split "/" p).

(** The tenant and the tenant-relative path, by the three branches: a
    subdomain of the host, a [/tenant/<id>/] prefix, the first segment. *)
Definition deriveTenant (r : Request) : option string * string :=
  let hostParts := JS.split "." (host r) in
  if (3 <=? length hostParts)%nat
     && negb (String.eqb (hd "" hostParts) "www")
  then (Some (hd "" hostParts), path r)
  else if JS.startsWith "/tenant/" (path r) then
    let parts := pathParts (path r) in
    if (2 <=? length parts)%nat
    then (Some (nth 1 parts ""), "/" +:+ JS.join "/" (drop 2 parts))
    else (None, path r)
  else
    let parts := pathParts (path r) in
    if (1 <=? length parts)%nat
    then (Some (hd "" parts), "/" +:+ JS.join "/" (drop 1 parts))
    else (None, path r).

(** [if (!tenantId) tenantId = 'demo'] *)
Definition defaultTenant (t : option string) : string :=
  match t with
  | Some t' => JS.or_else t' "demo"
  | None => "demo"
  end.

(** [handleWebSocketUpgrade(c, path, tenantId)] *)
Definition handleWebSocketUpgrade (r : Request) (tenantPath tenantId : string)
  : Routed :=
  let fleetPath :=
    if JS.endsWith "/ws" tenantPath then JS.dropEnd 3 tenantPath
    else tenantPath in
  Forward (tenantId +:+ ":" +:+ fleetPath) fleetPath tenantId (path r).

Definition apiEndpoints : list string :=
  ["/messages"; "/state"; "/increment"; "/delete-subtree"; "/message";
   "/inventory/stock"; "/inventory/query"; "/inventory/sync";
   "/inventory/alerts"; "/ai/analyze"; "/ai/forecast"; "/ai/insights";
   "/debug/locations"; "/debug/db"].

(** The conditions of [isApiRequest] on the path. *)
Definition isApiPath (p : string) : bool :=
  JS.includes "/api/" p
  || existsb (λ e, JS.endsWith e p)
       ["/messages"; "/state"; "/increment"; "/delete-subtree";
        "/inventory/stock"; "/inventory/query"; "/inventory/sync";
        "/inventory/alerts"; "/ai/analyze"; "/ai/forecast"; "/ai/insights"].

(** The loop over [apiEndpoints]: the first endpoint that ends the path
    splits it into the fleet path and the endpoint. *)
Fixpoint splitEndpoint (endpoints : list string) (p : string)
  : string * string :=
  match endpoints with
  | [] => (p, "/")
  | e :: rest =>
      if JS.endsWith e p then (JS.dropEnd (String.length e) p, e)
      else splitEndpoint rest p
  end.

(** The handler of [app.all('/*')]. *)
Definition allHandler (r : Request) : Routed :=
  let '(derived, tenantPath) := deriveTenant r in
  let tenantId := defaultTenant derived in
  if upgradeWebsocket r then handleWebSocketUpgrade r tenantPath tenantId
  else
    let pathWithoutQuery := JS.or_else tenantPath (path r) in
    let isGet := String.eqb (method r) "GET" in
    let isApiRequest := isApiPath pathWithoutQuery || negb isGet in
    if isGet && negb isApiRequest then
      ServeHtml (if JS.endsWith "/ws" tenantPath
                 then JS.dropEnd 3 tenantPath else tenantPath) tenantId
    else
      let '(fleetPath0, apiEndpoint0) :=
        splitEndpoint apiEndpoints pathWithoutQuery in
      let '(fleetPath1, apiEndpoint1) :=
        match JS.indexOf "/inventory/" pathWithoutQuery with
        | Some inventoryIndex =>
            (JS.or_else
               (String.substring 0 inventoryIndex pathWithoutQuery) "/",
             String.substring inventoryIndex
               (String.length pathWithoutQuery - inventoryIndex)
               pathWithoutQuery)
        | None => (fleetPath0, apiEndpoint0)
        end in
      let '(fleetPath2, apiEndpoint2) :=
        if JS.endsWith "/ws" tenantPath
        then (JS.dropEnd 3 tenantPath, "/")
        else (fleetPath1, apiEndpoint1) in
      let fleetPath := JS.or_else fleetPath2 "/" in
      Forward (tenantId +:+ ":" +:+ fleetPath) fleetPath
        (JS.or_else tenantId "demo") apiEndpoint2.

(** The owner key a request is routed to, when it is routed to an agent. *)
Definition ownerKey (x : Routed) : option string :=
  match x with
  | Forward tenantFleetId _ _ _ => Some tenantFleetId
  | ServeHtml _ _ => None
  end.

End Router.

(* ===================================================================== *)
(** * The agent as a state machine *)
(* ===================================================================== *)

(** [updateTenantAndPath(tenantId, path)], as far as the path goes: the
    model holds no tenant, and the chat history that the method loads
    again is not part of it. *)
Definition updateTenantAndPath (path : string) : M unit :=
  modify (setCurrentPath path).

(** [loadState()] *)
Definition loadState (now : Time) : M unit :=
  a ← get;
  if stateLoaded a then loadStateFromStorage now
  else tryCatch (loadStateFromStorage now) (λ _, mret tt).

(** The head of [fetch(request)], up to the dispatch on the URL;
    [fleetPath] is the [x-fleet-path] header, empty when it is absent.  A
    header that differs from the path makes [fleetPath || '/'] the path
    (a tenant that differs, with the path of the agent in the header,
    leaves the path as it is).  The state is then loaded from the store
    only when [this.cache] has no [loaded:<path>] key; [has] does not look
    at the time the entry expires at.  (The deletion of old messages that
    one request in a hundred starts is not part of the model.) *)
Definition fetchPath (now : Time) (fleetPath : string) : M unit :=
  a ← get;
  (if String.eqb fleetPath (currentPath a) then mret tt
   else updateTenantAndPath (JS.or_else fleetPath "/")) ;;
  a' ← get;
  let stateKey := "loaded:" +:+ currentPath a' in
  if negb (stateLoaded a') || negb (bool_decide (stateKey ∈ cache a')) then
    loadState now ;;
    modify (setStateLoaded true) ;;
    modify (setCache (λ c, c ∪ {[stateKey]}))
  else mret tt.

(** A restarted agent that is then asked for [path]: the constructor's
    initialisation, then the head of the first [fetch]. *)
Definition resume (now : Time) (path : string) (store : Store) : Agent :=
  fst (fetchPath now path (initialize now store)).

(** The operations that change an agent, each with what the environment
    contributes to it: the clock, the answers of the collaborators and of
    the other agents. *)
Inductive Op :=
| doIncrement (now : Time)
| doCreateAgent (now : Time) (name : string)
| doDeleteAgent (now : Time) (cascade : FetchResult) (name : string)
| doDeleteSubtree (now : Time) (children : string → FetchResult)
| doStockUpdate (env : InventoryService.Collaborators) (now : Time)
    (update : InventoryUpdate)
| doChatMessage (now : Time) (actions : list bool)
| doConnect (server : WebSocket)
| doDisconnect (ws : WebSocket)
| doFetchPath (now : Time) (path : string)
| doRestart (now : Time) (path : string).

Definition step (a : Agent) (o : Op) : Agent :=
  match o with
  | doIncrement now => fst (incrementCounter now a)
  | doCreateAgent now name => fst (createAgent now name a)
  | doDeleteAgent now cascade name => fst (deleteAgent now cascade name a)
  | doDeleteSubtree now children => fst (handleDeleteSubtree now children a)
  | doStockUpdate env now update => fst (processStockUpdate env now update a)
  | doChatMessage now actions => fst (processChatMessage now actions a)
  | doConnect server => fst (handleWebSocket server a)
  | doDisconnect ws => fst (webSocketClose ws a)
  | doFetchPath now path => fst (fetchPath now path a)
  | doRestart now path => resume now path (sqlStorage a)
  end.

Definition run (ops : list Op) (a : Agent) : Agent := fold_left step ops a.

(** The stock operations of a run all carry a quantity that is at least 0,
    as [StockUpdateSchema] demands of them. *)
Definition nonNegativeOp (o : Op) : Prop :=
  match o with
  | doStockUpdate _ _ update => 0 <= u_quantity update
  | _ => True
  end.

(* --------------------------------------------------------------------- *)
(** ** The loops, unrolled *)
(* --------------------------------------------------------------------- *)

(** One [sendToWebSocket], as a function on the agent. *)
Definition sendOne (m : FleetMessage) (a : Agent) (ws : WebSocket) : Agent :=
  if readyState ws =? 1 then
    if send_throws ws then setState (deleteWebSocket ws) a
    else addEvent (Sent (ws_id ws) m) a
  else a.

(** [broadcastToWebSockets], as a function on the agent. *)
Definition broadcastTo (m : FleetMessage) (a : Agent) : Agent :=
  fold_left (sendOne m) (websockets (state a)) a.

(** [broadcastState], as a function on the agent. *)
Definition stateBroadcast (a : Agent) : Agent :=
  if initializationComplete a
  then broadcastTo (MsgState (counter (state a)) (elements (agents (state a)))) a
  else a.

(** The sockets a frame reaches: the open ones whose [send] works. *)
Definition reached (wss : list WebSocket) : list WebSocket :=
  filter (λ ws, readyState ws = 1 ∧ send_throws ws = false) wss.

(** The sockets a broadcast drops: the open ones whose [send] throws. *)
Definition dropped (wss : list WebSocket) : list WebSocket :=
  filter (λ ws, readyState ws = 1 ∧ send_throws ws = true) wss.

(** The [Sent] events of broadcasting [m] to [wss]. *)
Definition deliveries (m : FleetMessage) (wss : list WebSocket) : list Event :=
  map (λ ws, Sent (ws_id ws) m) (reached wss).

(** The sockets left in the set after a broadcast to [wss]. *)
Definition survivors (wss : list WebSocket) : list WebSocket :=
  filter (λ w, ws_id w ∉ map ws_id (dropped wss)) wss.

(** The part of an agent that sending frames does not touch. *)
Definition core (a : Agent) :=
  (currentPath a, counter (state a), agents (state a), messages (state a),
   inventory (state a), agentType (state a), cache a, stateLoaded a,
   initializationComplete a, chatStats a, sqlStorage a).

(** [saveState], as a function on the agent. *)
Definition persisted (now : Time) (a : Agent) : Agent :=
  fst (saveState now a).

(** The path of an agent after the head of a [fetch] whose header is
    [fleetPath]. *)
Definition servedAt (fleetPath : string) (a : Agent) : string :=
  if String.eqb fleetPath (currentPath a) then currentPath a
  else JS.or_else fleetPath "/".

(** The head of [fetch], as a function on the agent. *)
Definition fetched (now : Time) (fleetPath : string) (a : Agent) : Agent :=
  let a1 :=
    if String.eqb fleetPath (currentPath a) then a
    else setCurrentPath (JS.or_else fleetPath "/") a in
  let stateKey := "loaded:" +:+ currentPath a1 in
  if negb (stateLoaded a1) || negb (bool_decide (stateKey ∈ cache a1)) then
    setCache (λ c, c ∪ {[stateKey]})
      (setStateLoaded true (fst (loadStateFromStorage now a1)))
  else a1.

(** One round of [sendChatHistory], as a function on the agent. *)
Definition historySent (ws : WebSocket) (a : Agent) (m : StoredMessage)
  : Agent :=
  if String.eqb (from_agent m) "user" then
    sendOne (MsgChatResponse "user" (content m) (timestamp m) false) a ws
  else if String.eqb (from_agent m) "ai-assistant" then
    sendOne (MsgChatResponse "assistant" (content m) (timestamp m) true) a ws
  else a.

(** [broadcastChatStats], as a function on the agent. *)
Definition chatStatsBroadcast (a : Agent) : Agent :=
  broadcastTo
    (MsgChatStats (messagesToday (chatStats a)) (actionsExecuted (chatStats a))
       (round2 (successRate (chatStats a)))) a.

(** [updateChatStats], as a function on the agent. *)
Definition statsUpdated (now : Time) (type : StatKind) (a : Agent) : Agent :=
  chatStatsBroadcast
    (fst (saveChatStatistics now (setChatStats (countStat type) a))).

(** One round of [executeChatActions], as a function on the agent. *)
Definition actionCounted (now : Time) (a : Agent) (succeeds : bool) : Agent :=
  if succeeds
  then statsUpdated now statSuccess (statsUpdated now statAction a)
  else statsUpdated now statFailure (statsUpdated now statAction a).

(** The calls of [updateChatStats] that one chat message makes, in order:
    one for the message, then for each action of the reply one for the
    action and one for how it ended. *)
Definition chatCalls (actions : list bool) : list StatKind :=
  statMessage
  :: concat (map (λ succeeds : bool,
                    [statAction;
                     if succeeds then statSuccess else statFailure])
               actions).

(** The agent after a list of calls of [updateChatStats]. *)
Definition afterCalls (now : Time) (calls : list StatKind) (a : Agent)
  : Agent :=
  fold_left (λ x type, fst (updateChatStats now type x)) calls a.

(* --------------------------------------------------------------------- *)
(** ** Invariants of the reachable states *)
(* --------------------------------------------------------------------- *)

(** Every child, in memory and in every persisted row, has a name that
    [AgentNameSchema] accepts. *)
Definition childrenValid (a : Agent) : Prop :=
  (∀ n, n ∈ agents (state a) → AgentNameSchema n = true)
  ∧ (∀ p row, fleet_state (sqlStorage a) !! p = Some row →
       ∀ n, n ∈ fs_agents row → AgentNameSchema n = true).

(** Every entry of the inventory map sits under its own [sku]. *)
Definition inventoryKeyed (a : Agent) : Prop :=
  ∀ k item, inventory (state a) !! k = Some item → sku item = k.

(** Every inventory row persisted for the current path is in memory. *)
Definition noStaleRows (a : Agent) : Prop :=
  ∀ k row, inventory_items (sqlStorage a) !! k = Some row →
    ii_location row = currentPath a → is_Some (inventory (state a) !! k).

(** No more successes than actions, and the rate is the one computed from
    the two counters. *)
Definition statsConsistent (c : ChatStats) : Prop :=
  0 <= successfulActions c <= actionsExecuted c
  ∧ (successRate c == computeSuccessRate c)%Q.

Definition statsOfRow (r : ChatStatsRow) : ChatStats :=
  {| messagesToday := cs_messages_today r;
     actionsExecuted := cs_actions_executed r;
     successfulActions := cs_successful_actions r;
     successRate := cs_success_rate r |}.

Definition chatConsistent (a : Agent) : Prop :=
  statsConsistent (chatStats a)
  ∧ (∀ key row, chat_statistics (sqlStorage a) !! key = Some row →
       statsConsistent (statsOfRow row)).

(** Every inventory row persisted for a path that the cache holds as
    loaded is in memory. *)
Definition loadedRows (a : Agent) : Prop :=
  ∀ k row, inventory_items (sqlStorage a) !! k = Some row →
    "loaded:" +:+ ii_location row ∈ cache a →
    is_Some (inventory (state a) !! k).

Record Consistent (a : Agent) : Prop := {
  consistent_type : agentType (state a) ≠ "";
  consistent_children : childrenValid a;
  consistent_keys : inventoryKeyed a;
  consistent_rows : noStaleRows a;
  consistent_chat : chatConsistent a;
  consistent_loaded : loadedRows a
}.

(** No stock below zero, in memory or persisted. *)
Definition stocksNonNegative (a : Agent) : Prop :=
  (∀ k item, inventory (state a) !! k = Some item → 0 <= currentStock item)
  ∧ (∀ k row, inventory_items (sqlStorage a) !! k = Some row →
       0 <= ii_current_stock row).

(** The call that [deleteAgent] and [handleDeleteSubtree] make to the
    child [name]. *)
Definition cascadeCall (a : Agent) (name : string) : Event :=
  Fetched (childPath (currentPath a) name) "POST"
    "http://internal/delete-subtree".

(** The agent after [InventoryService.processStockUpdate] ran on its
    inventory and its store, before the frames go out and the state is
    saved. *)
Definition serviced (env : InventoryService.Collaborators) (now : Time)
    (update : InventoryUpdate) (a : Agent) : Agent :=
  let r := InventoryService.processStockUpdate env now update
             (currentPath a) (sqlStorage a) (inventory (state a)) in
  setSql (λ _, r.1.2) (setState (setInventory r.1.1) a).

(** The messages that the service hands to [broadcastCallback]. *)
Definition announced (env : InventoryService.Collaborators) (now : Time)
    (update : InventoryUpdate) (a : Agent) : list FleetMessage :=
  (InventoryService.processStockUpdate env now update
     (currentPath a) (sqlStorage a) (inventory (state a))).2.

(** An item as [loadStateFromStorage] rebuilds it: the persisted fields,
    and the time of loading as [lastUpdated]. *)
Definition refreshed (now : Time) (item : InventoryItem) : InventoryItem :=
  {| sku := sku item; name := name item; currentStock := currentStock item;
     lowStockThreshold := lowStockThreshold item; lastUpdated := iso now |}.

(** Saving the state at [saved] and loading it at [loaded] into a fresh
    instance for the same path. *)
Definition roundTrip (saved loaded : Time) (a : Agent) : Agent :=
  fst (loadStateFromStorage loaded
         (freshAgent (currentPath a) (sqlStorage (persisted saved a)))).

(** The in-memory state after a round trip equals the one before it:
    counter, children, agent type, and every inventory item with all its
    fields. *)
Definition statePreserved (before after : FleetState) : Prop :=
  counter after = counter before
  ∧ agents after = agents before
  ∧ agentType after = agentType before
  ∧ inventory after = inventory before.

Definition exampleEnv : InventoryService.Collaborators :=
  {| InventoryService.aiParsed := None;
     InventoryService.reorderWorkflow := None |}.

Definition exampleTime : Time :=
  {| ms := 1700000000000; iso := "2023-11-14T22:13:20.000Z" |}.

Definition laterTime : Time :=
  {| ms := 1700000060000; iso := "2023-11-14T22:14:20.000Z" |}.

(** An agent at the root that holds 100 units of one SKU. *)
Definition stockedAgent : Agent :=
  run [doStockUpdate exampleEnv exampleTime
         {| u_sku := "SKU-1"; u_quantity := 100; u_operation := opSet |}]
      (newAgent emptyStore).

(** An agent at [/a] with a counter of 1, one child and 100 units of one
    SKU. *)
Definition warehouseAgent : Agent :=
  run [doFetchPath exampleTime "/a";
       doIncrement exampleTime;
       doCreateAgent exampleTime "b";
       doStockUpdate exampleEnv exampleTime
         {| u_sku := "SKU-1"; u_quantity := 100; u_operation := opSet |}]
      (newAgent emptyStore).

(** The segment pattern in the words of the specification:
    [[A-Za-z0-9 _\-]{1,32}], the space being the only blank. *)
Definition specChar (c : ascii) : bool :=
  JS.isLower c || JS.isUpper c || JS.isDigit c
  || Ascii.eqb c " " || Ascii.eqb c "_" || Ascii.eqb c "-".

Definition specSegment (s : string) : bool :=
  (1 <=? JS.length s) && (JS.length s <=? 32)
  && forallb specChar (list_ascii_of_string s).

(** A name with a TAB between two letters. *)
Definition tabbedName : string :=
  String "a" (String (ascii_of_nat 9) (String "b" EmptyString)).

(** An agent that has counted one action and no success yet. *)
Definition busyAgent : Agent :=
  fst (updateChatStats exampleTime statAction (newAgent emptyStore)).

(** A websocket upgrade on a tenant's subdomain. *)
Definition subdomainUpgrade (p : string) : Router.Request :=
  {| Router.host := "acme.example.com"; Router.path := p;
     Router.method := "GET"; Router.upgradeWebsocket := true |}.

(** A [POST] on a tenant's subdomain. *)
Definition subdomainPost (p : string) : Router.Request :=
  {| Router.host := "acme.example.com"; Router.path := p;
     Router.method := "POST"; Router.upgradeWebsocket := false |}.

(** The same request, with a slash appended to its path. *)
Definition withTrailingSlash (r : Router.Request) : Router.Request :=
  {| Router.host := Router.host r; Router.path := Router.path r +:+ "/";
     Router.method := Router.method r;
     Router.upgradeWebsocket := Router.upgradeWebsocket r |}.

(** An open websocket whose [send] works. *)
Definition socket1 : WebSocket :=
  {| ws_id := 1; readyState := 1; send_throws := false |}.

(** An initialised agent at the root with one websocket and one child. *)
Definition rootAgent : Agent :=
  run [doRestart exampleTime "/"; doConnect socket1;
       doCreateAgent exampleTime "warehouse-ny"]
      (newAgent emptyStore).

(* ===================================================================== *)
(** * Paths, their decoding and the breadcrumb (components/Breadcrumb.tsx) *)
(* ===================================================================== *)

(** The value of a hexadecimal digit, in either case. *)
Definition hexValue (c : ascii) : option N :=
  let n := N_of_ascii c in
  if JS.isDigit c then Some (n - 48)%N
  else if ((65 <=? n) && (n <=? 70))%N then Some (n - 55)%N
  else if ((97 <=? n) && (n <=? 102))%N then Some (n - 87)%N
  else None.

(** [decodeURIComponent(s)].  [None] stands for a [URIError], and also for
    a result with a code unit above 255, which a [string] does not hold:
    an escape of one byte below 128 is that code unit, the lead bytes
    [C2] and [C3] with a continuation byte give the code units 128 to 255,
    every other escape gives [None]. *)
Fixpoint decodeURIComponent (s : string) : option string :=
  match s with
  | EmptyString => Some EmptyString
  | String c rest =>
      if Ascii.eqb c "%" then
        match rest with
        | String h1 (String h2 rest1) =>
            match hexValue h1, hexValue h2 with
            | Some x, Some y =>
                let b := (16 * x + y)%N in
                if (b <? 128)%N then
                  String (ascii_of_N b) <$> decodeURIComponent rest1
                else if ((194 <=? b) && (b <=? 195))%N then
                  match rest1 with
                  | String p (String h3 (String h4 rest2)) =>
                      if Ascii.eqb p "%" then
                        match hexValue h3, hexValue h4 with
                        | Some z, Some w =>
                            let b2 := (16 * z + w)%N in
                            if ((128 <=? b2) && (b2 <=? 191))%N then
                              String (ascii_of_N ((b - 192) * 64 + (b2 - 128)))
                                <$> decodeURIComponent rest2
                            else None
                        | _, _ => None
                        end
                      else None
                  | _ => None
                  end
                else None
            | _, _ => None
            end
        | _ => None
        end
      else String c <$> decodeURIComponent rest
  end.

(** The path that [propagateStockUpdate] and [propagateReorderDecision]
    compute for the parent of [path]; [None] where they return without a
    call. *)
Definition parentPath (path : string) : option string :=
  if String.eqb path "/" then None
  else
    let pathParts := filter (λ p, p ≠ "") (JS.split "/" path) in
    match pathParts with
    | [] => None
    | _ => Some (if (length pathParts =? 1)%nat then "/"
                 else "/" +:+ JS.join "/" (removelast pathParts))
    end.

(** A path written the way the agents write one: a slash, then the
    segments with single slashes between them. *)
Definition canonicalPath (path : string) : string :=
  "/" +:+ JS.join "/" (Router.pathParts path).

Module Breadcrumb.

(** [path.split('/').filter(Boolean)] *)
Definition segments (path : string) : list string := Router.pathParts path.

(** [getTenantUrl(targetPath)]; the empty [tenantId] stands for an absent
    one. *)
Definition getTenantUrl (tenantId targetPath : string) : string :=
  if JS.truthy tenantId && negb (String.eqb tenantId "demo") then
    let tenantPrefix := "/" +:+ tenantId in
    if String.eqb targetPath "/" then tenantPrefix
    else tenantPrefix +:+ targetPath
  else targetPath.

(** One link of the trail: where it leads, what it shows, and whether it
    is the current location.  The label is [None] where
    [decodeURIComponent] throws. *)
Record Crumb := {
  href : string;
  segmentLabel : option string;
  isLastSegment : bool
}.

(** The links after the root link, one per segment. *)
Definition crumbs (path tenantId : string) : list Crumb :=
  let segments := segments path in
  imap (λ index segment,
          {| href := getTenantUrl tenantId
                       ("/" +:+ JS.join "/" (take (S index) segments));
             segmentLabel := decodeURIComponent segment;
             isLastSegment := (index =? length segments - 1)%nat |})
       segments.

End Breadcrumb.

(* ===================================================================== *)
(** * The calls between agents and the requests of the worker *)
(* ===================================================================== *)

Definition isFetched (e : Event) : bool :=
  match e with Fetched _ _ _ => true | _ => false end.

(** The agents that an agent has called so far, by their names. *)
Definition called (a : Agent) : list string :=
  omap (λ e, match e with
             | Fetched target _ _ => Some target
             | _ => None
             end) (trace a).


(** The path that the agent takes from the [x-fleet-path] header of a
    forwarded request: [fleetPath || '/']. *)
Definition servedPath (x : Router.Routed) : option string :=
  match x with
  | Router.Forward _ xFleetPath _ _ => Some (JS.or_else xFleetPath "/")
  | Router.ServeHtml _ _ => None
  end.

(** The host names a tenant by its subdomain. *)
Definition subdomainHost (host : string) : bool :=
  (3 <=? length (JS.split "." host))%nat
  && negb (String.eqb (hd "" (JS.split "." host)) "www").

(** The tenant that a subdomain host names. *)
Definition subdomainTenant (host : string) : string :=
  Router.defaultTenant (Some (hd "" (JS.split "." host))).

(** A websocket upgrade. *)
Definition upgradeRequest (host path : string) : Router.Request :=
  {| Router.host := host; Router.path := path; Router.method := "GET";
     Router.upgradeWebsocket := true |}.

(** A request that is not a websocket upgrade. *)
Definition plainRequest (host method path : string) : Router.Request :=
  {| Router.host := host; Router.path := path; Router.method := method;
     Router.upgradeWebsocket := false |}.

(** The request is answered with the page: a [GET] of a path that does not
    look like one of the API. *)
Definition pageLoad (method path : string) : bool :=
  String.eqb method "GET" && negb (Router.isApiPath path).

(* ===================================================================== *)
(** * Messages and sockets (services/base-fleet-manager.ts, durable-objects/fleet-manager.ts) *)
(* ===================================================================== *)

Definition setStoredMessages (t : list MessageRow) (s : Store) : Store :=
  {| fleet_state := fleet_state s; inventory_items := inventory_items s;
     stored_messages := t;
     inventory_transactions := inventory_transactions s;
     inventory_analysis := inventory_analysis s;
     inventory_decisions := inventory_decisions s;
     chat_statistics := chat_statistics s |}.

(** The identifiers of the rows of [stored_messages], its primary key. *)
Definition storedIds (s : Store) : list string :=
  map (λ row, id (sm_message row)) (stored_messages s).

(** [storeMessage(fromAgent, toAgent, content, messageType)]; [newId] is
    the identifier that the clock and [Math.random()] give the message.
    The [INSERT] is refused for an identifier that the table holds already,
    and the message is then not kept in memory either; a message that is
    stored joins the buffer in memory, which keeps its last 100. *)
Definition storeMessage (now : Time) (newId fromAgent : string)
    (toAgent : option string) (content : string) (messageType : MessageType)
  : M unit :=
  let message :=
    {| id := newId; timestamp := iso now; from_agent := fromAgent;
       to_agent := toAgent; content := content;
       message_type := messageType |} in
  a ← get;
  if decide (newId ∈ storedIds (sqlStorage a)) then mret tt
  else
    modify (setSql (λ s, setStoredMessages
      (stored_messages s
       ++ [{| sm_message := message; sm_location := currentPath a |}]) s)) ;;
    modify (setState (λ s, setMessages (messages s ++ [message]) s)) ;;
    a' ← get;
    if (100 <? length (messages (state a')))%nat then
      modify (setState (λ s, setMessages
        (drop (length (messages s) - 100) (messages s)) s))
    else mret tt.

(** [error instanceof Error ? error.message : 'Unknown error'] on what a
    [catch] receives. *)
Definition errorMessage (error : Thrown) : string :=
  match error with
  | ThrownInventory e => message e
  | ThrownError msg => msg
  end.

(** [sendDirectMessage(agentName, message)]; [ids] are the identifiers of
    the two messages it stores, [delivery] is how the call to the child
    ends. *)
Definition sendDirectMessage (now : Time) (ids : string * string)
    (delivery : FetchResult) (agentName message : string) : M unit :=
  a ← get;
  if decide (agentName ∈ agents (state a)) then
    tryCatch
      (storeMessage now ids.1 (JS.or_else (currentPath a) "root")
         (Some agentName) message direct ;;
       fetchStub (childPath (currentPath a) agentName) "POST"
         "http://internal/message" delivery ;;
       let systemMessage :=
         "Message sent to " +:+ agentName +:+ ": " +:+ message in
       storeMessage now ids.2 "system" None systemMessage system ;;
       broadcastToWebSockets (MsgMessage "system" systemMessage))
      (λ error,
         let errorMessage :=
           "Failed to send message to " +:+ agentName +:+ ": "
           +:+ errorMessage error in
         storeMessage now ids.2 "system" None errorMessage system ;;
         broadcastToWebSockets (MsgError errorMessage))
  else
    broadcastToWebSockets
      (MsgError ("Agent " +:+ quote +:+ agentName +:+ quote
                 +:+ " does not exist")).

(** [storeMessage], as a function on the agent. *)
Definition stored (now : Time) (newId fromAgent : string)
    (toAgent : option string) (content : string) (messageType : MessageType)
    (a : Agent) : Agent :=
  fst (storeMessage now newId fromAgent toAgent content messageType a).

(** The last [n] elements of a list: [l.slice(-n)]. *)
Definition lastN {A} (n : nat) (l : list A) : list A :=
  drop (length l - n) l.

(** One message to store: the time, the identifier and the four arguments
    of [storeMessage]. *)
Record Storing := {
  st_now : Time;
  st_id : string;
  st_from : string;
  st_to : option string;
  st_content : string;
  st_type : MessageType
}.

(** The message that [storeMessage] builds. *)
Definition messageOf (x : Storing) : StoredMessage :=
  {| id := st_id x; timestamp := iso (st_now x); from_agent := st_from x;
     to_agent := st_to x; content := st_content x;
     message_type := st_type x |}.

Definition storeOne (a : Agent) (x : Storing) : Agent :=
  stored (st_now x) (st_id x) (st_from x) (st_to x) (st_content x)
    (st_type x) a.

(** The two messages that [sendDirectMessage] stores: the outgoing one,
    and the note of the system on how the delivery ended. *)
Definition outgoingMessage (now : Time) (newId : string) (a : Agent)
    (agentName message : string) : Storing :=
  {| st_now := now; st_id := newId;
     st_from := JS.or_else (currentPath a) "root";
     st_to := Some agentName; st_content := message; st_type := direct |}.

Definition deliveryNote (delivery : FetchResult) (agentName message : string)
  : string :=
  match delivery with
  | Responded _ => "Message sent to " +:+ agentName +:+ ": " +:+ message
  | Rejected reason =>
      "Failed to send message to " +:+ agentName +:+ ": " +:+ reason
  end.

Definition systemMessage (now : Time) (newId content : string) : Storing :=
  {| st_now := now; st_id := newId; st_from := "system"; st_to := None;
     st_content := content; st_type := system |}.

(** The frame that tells the sockets how the delivery ended. *)
Definition deliveryFrame (delivery : FetchResult) (agentName message : string)
  : FleetMessage :=
  match delivery with
  | Responded _ =>
      MsgMessage "system" (deliveryNote delivery agentName message)
  | Rejected _ => MsgError (deliveryNote delivery agentName message)
  end.

(** The two pictographs that precede the sender of a message shown to the
    sockets.  They lie above the code units that an [ascii] stands for,
    and each is held as the bytes of its UTF-8 form; nothing below depends
    on their length. *)
Definition loudspeaker : string := "📢".
Definition envelope : string := "📨".

(** [broadcastMessage(message)]; [newId] is the identifier of the message
    it stores, [children] is how each child's [/message] call ends. *)
Definition broadcastMessage (now : Time) (newId : string)
    (children : string → FetchResult) (message : string) : M unit :=
  a ← get;
  storeMessage now newId (JS.or_else (currentPath a) "root") None message
    broadcast ;;
  forEach (elements (agents (state a)))
    (λ agentName,
       tryCatch
         (fetchStub (childPath (currentPath a) agentName) "POST"
            "http://internal/message" (children agentName) ;;
          mret tt)
         (λ _, mret tt)) ;;
  broadcastToWebSockets
    (MsgMessage (loudspeaker +:+ " " +:+ JS.or_else (currentPath a) "root")
       message).

(** The body of a [/message] request: [{from, content, type}]. *)
Record MessageData := {
  md_from : string;
  md_content : string;
  md_type : MessageType
}.

Definition isDirect (t : MessageType) : bool :=
  match t with direct => true | _ => false end.

(** [handleMessage(request)]; [body] is what [request.json()] gives, [None]
    when it throws. *)
Definition handleMessage (now : Time) (newId : string)
    (body : option MessageData) : M Response :=
  tryCatch
    (messageData ← match body with
                   | Some d => mret d
                   | None => throw (ThrownError "Unexpected end of JSON input")
                   end;
     a ← get;
     storeMessage now newId (md_from messageData)
       (if isDirect (md_type messageData)
        then Some (JS.or_else (currentPath a) "root") else None)
       (md_content messageData) (md_type messageData) ;;
     broadcastToWebSockets
       (MsgMessage
          ((if isDirect (md_type messageData) then envelope else loudspeaker)
           +:+ " " +:+ md_from messageData)
          (md_content messageData)) ;;
     mret {| status := 200; body := "Message received" |})
    (λ _, mret {| status := 400; body := "Invalid message format" |}).

(** The message that [broadcastMessage] stores. *)
Definition broadcastStoring (now : Time) (newId : string) (a : Agent)
    (message : string) : Storing :=
  {| st_now := now; st_id := newId;
     st_from := JS.or_else (currentPath a) "root"; st_to := None;
     st_content := message; st_type := broadcast |}.

(** The call of [broadcastMessage] to one child. *)
Definition messageCall (a : Agent) (name : string) : Event :=
  Fetched (childPath (currentPath a) name) "POST" "http://internal/message".

(** The message that [handleMessage] stores. *)
Definition receivedStoring (now : Time) (newId : string) (a : Agent)
    (d : MessageData) : Storing :=
  {| st_now := now; st_id := newId; st_from := md_from d;
     st_to := if isDirect (md_type d)
              then Some (JS.or_else (currentPath a) "root") else None;
     st_content := md_content d; st_type := md_type d |}.

(** The body that [sendDirectMessage] and [broadcastMessage] post to a
    child: [{from: this.currentPath || 'root', content: message, type}]. *)
Definition postedBody (a : Agent) (message : string) (type : MessageType)
  : MessageData :=
  {| md_from := JS.or_else (currentPath a) "root"; md_content := message;
     md_type := type |}.

(** A socket that is open and whose [send] throws. *)
Definition failing (ws : WebSocket) : Prop :=
  readyState ws = 1 ∧ send_throws ws = true.

#[global] Instance failing_dec ws : Decision (failing ws).
Proof. unfold failing. apply _. Defined.

(* ===================================================================== *)
(** * The cache and the [/state] endpoint *)
(* ===================================================================== *)

Module Cache.

(** An entry of [this.cache]: the data and the time it expires at.  The
    keys of the map start with what their data is ([state:], [inventory:],
    [loaded:]), so the entries of one kind are a map of their own. *)
Record Entry (A : Type) := { data : A; expires : Z }.
Arguments data {A} e.
Arguments expires {A} e.

(** [getCached(key)]: the data of an entry that has not expired; an entry
    that has is deleted.  The result comes with the cache after the
    call. *)
Definition getCached {A} (now : Time) (key : string)
    (cache : gmap string (Entry A)) : option A * gmap string (Entry A) :=
  match cache !! key with
  | Some cached =>
      if ms now <? expires cached then (Some (data cached), cache)
      else (None, delete key cache)
  | None => (None, delete key cache)
  end.

(** [setCache(key, data, ttlMs)] *)
Definition setCache {A} (now : Time) (key : string) (data : A) (ttlMs : Z)
    (cache : gmap string (Entry A)) : gmap string (Entry A) :=
  <[key := {| data := data; expires := ms now + ttlMs |}]> cache.

(** [clearCache()] *)
Definition clearCache {A} (cache : gmap string (Entry A))
  : gmap string (Entry A) := ∅.

End Cache.

(** The body of the answer of [getState]. *)
Record StateView := {
  view_counter : Z;
  view_agents : list string
}.

(** [{counter: this.state.counter, agents: Array.from(this.state.agents)}] *)
Definition stateView (a : Agent) : StateView :=
  {| view_counter := counter (state a);
     view_agents := elements (agents (state a)) |}.

(** [getState()]: the body of its answer, and the cache after it; [cache]
    holds the entries of [this.cache] that carry such a body. *)
Definition getState (now : Time) (a : Agent)
    (cache : gmap string (Cache.Entry StateView))
  : StateView * gmap string (Cache.Entry StateView) :=
  let cacheKey := "state:" +:+ currentPath a in
  match Cache.getCached now cacheKey cache with
  | (Some cached, cache') => (cached, cache')
  | (None, cache') =>
      let state := stateView a in
      (state, Cache.setCache now cacheKey state 30000 cache')
  end.

(** A little less than 30 seconds after [exampleTime]. *)
Definition soonTime : Time :=
  {| ms := 1700000029999; iso := "2023-11-14T22:13:49.999Z" |}.

(* ===================================================================== *)
(** * The inventory endpoints (durable-objects/fleet-manager.ts) *)
(* ===================================================================== *)

(** The body of an error answer: [{code, message, timestamp}] (the
    [details] of an [InventoryError] are not part of the model). *)
Record ApiError := {
  err_code : string;
  err_message : string;
  err_timestamp : string
}.

(** [handleError(error)]: the status and the body of the answer. *)
Definition handleError (now : Time) (error : Thrown) : Z * ApiError :=
  match error with
  | ThrownInventory e =>
      (statusCode e,
       {| err_code := code e; err_message := message e;
          err_timestamp := iso now |})
  | ThrownError _ =>
      (500,
       {| err_code := "INTERNAL_ERROR";
          err_message := "An unexpected error occurred";
          err_timestamp := iso now |})
  end.

Definition METHOD_NOT_ALLOWED : InventoryError :=
  {| code := "METHOD_NOT_ALLOWED"; message := "Method not allowed";
     statusCode := 405 |}.

(** What a request to [/inventory/stock] is: a [GET], a [POST] with a body
    that parses as JSON and holds the three fields of an update, a [POST]
    whose body does not parse ([request.json()] rejects with [reason]), or
    a request of another method. *)
Inductive StockRequest :=
| StockGet
| StockPost (body : InventoryUpdate)
| StockUnparsed (reason : string)
| StockOther (method : string).

(** The body of the answer to a [GET] of [/inventory/stock], as the object
    that is built and cached.  Its [inventory] is
    [Array.from(this.state.inventory.values())]: an array of the item
    objects of the map themselves, not of copies, so that an update of an
    item that is listed shows in an answer that is written from the cache.
    The model names each object of the array by the key it is listed
    under, and leaves out what the object holds when an answer is
    written. *)
Record InventoryView := {
  iv_location : string;
  iv_agentType : string;
  iv_inventory : list string;
  iv_totalItems : Z;
  iv_lastUpdated : string
}.

(** The bodies of the answers of the inventory endpoints. *)
Inductive StockAnswer :=
| AnsInventory (view : InventoryView)
| AnsUpdated (update : InventoryUpdate)
| AnsItem (location : string) (item : InventoryItem) (available : bool)
| AnsNotFound (location sku : string)
| AnsError (e : ApiError)
| AnsFailed (error details : string).

(** [handleStockOperation(request)]: the status and the body of the answer,
    and the cache after it; [cache] holds the entries of [this.cache] that
    carry an inventory.  ([Array.from(this.state.inventory.values())] is
    taken in the order of the [gmap], each item as the key it sits
    under.) *)
Definition handleStockOperation (env : InventoryService.Collaborators)
    (now : Time) (request : StockRequest)
    (cache : gmap string (Cache.Entry InventoryView))
  : M (Z * StockAnswer * gmap string (Cache.Entry InventoryView)) :=
  tryCatch
    (match request with
     | StockGet =>
         a ← get;
         let cacheKey := "inventory:" +:+ currentPath a in
         match Cache.getCached now cacheKey cache with
         | (Some cached, cache') => mret (200, AnsInventory cached, cache')
         | (None, cache') =>
             let inventory := (map_to_list (inventory (state a))).*1 in
             let response :=
               {| iv_location := currentPath a;
                  iv_agentType := agentType (state a);
                  iv_inventory := inventory;
                  iv_totalItems := Z.of_nat (length inventory);
                  iv_lastUpdated := iso now |} in
             mret (200, AnsInventory response,
                   Cache.setCache now cacheKey response 60000 cache')
         end
     | StockPost body =>
         update ← validateInput StockUpdateSchema body;
         processStockUpdate env now update ;;
         mret (200, AnsUpdated update, cache)
     | StockUnparsed reason => throw (ThrownError reason)
     | StockOther _ => throw (ThrownInventory METHOD_NOT_ALLOWED)
     end)
    (λ error,
       let '(status, body) := handleError now error in
       mret (status, AnsError body, cache)).

(** [handleInventoryQuery(request)]: [sku] is the [sku] parameter of the
    URL, [None] when it is absent. *)
Definition handleInventoryQuery (env : InventoryService.Collaborators)
    (now : Time) (sku : option string) (request : StockRequest)
    (cache : gmap string (Cache.Entry InventoryView))
  : M (Z * StockAnswer * gmap string (Cache.Entry InventoryView)) :=
  tryCatch
    (match sku with
     | Some k =>
         if JS.truthy k then
           a ← get;
           match inventory (state a) !! k with
           | Some item =>
               mret (200, AnsItem (currentPath a) item (0 <? currentStock item),
                     cache)
           | None => mret (404, AnsNotFound (currentPath a) k, cache)
           end
         else handleStockOperation env now request cache
     | None => handleStockOperation env now request cache
     end)
    (λ error, mret (500, AnsFailed "Query failed" (errorMessage error), cache)).

(** One entry of the alerts of [getInventoryAlerts]. *)
Record Alert := {
  al_type : string;
  al_sku : string;
  al_name : string;
  al_currentStock : Z;
  al_threshold : Z;
  al_location : string;
  al_severity : string
}.

(** The entry pushed for an item that is at or below its threshold. *)
Definition alertOf (location k : string) (item : InventoryItem) : Alert :=
  {| al_type := "low_stock"; al_sku := k; al_name := name item;
     al_currentStock := currentStock item;
     al_threshold := lowStockThreshold item;
     al_location := location;
     al_severity :=
       if currentStock item =? 0 then "critical" else "warning" |}.

(** The body of the answer of [getInventoryAlerts]. *)
Record AlertsAnswer := {
  aa_location : string;
  aa_alerts : list Alert;
  aa_totalAlerts : Z;
  aa_criticalAlerts : Z
}.

(** [getInventoryAlerts()]: the loop over the inventory, taken in the
    order of the [gmap], and the two counts. *)
Definition getInventoryAlerts (a : Agent) : AlertsAnswer :=
  let alerts :=
    omap (λ entry : string * InventoryItem,
            let '(k, item) := entry in
            if currentStock item <=? lowStockThreshold item
            then Some (alertOf (currentPath a) k item) else None)
         (map_to_list (inventory (state a))) in
  {| aa_location := currentPath a;
     aa_alerts := alerts;
     aa_totalAlerts := Z.of_nat (length alerts);
     aa_criticalAlerts :=
       Z.of_nat (length (filter (λ al, al_severity al = "critical") alerts)) |}.

(** What [handleInventorySync] reports: the [syncResult] of its answer. *)
Record SyncResult := {
  totalUpdates : Z;
  successful : Z;
  failed : Z;
  errors : list string
}.

(** The body of the answer of [handleInventorySync]. *)
Record SyncAnswer := {
  syncResult : SyncResult;
  sync_location : string
}.

(** The loop of [handleInventorySync] over the updates, with its two
    counters and its list of errors. *)
Fixpoint syncLoop (env : InventoryService.Collaborators) (now : Time)
    (updates : list InventoryUpdate) (counts : Z * Z * list string)
  : M (Z * Z * list string) :=
  match updates with
  | [] => mret counts
  | update :: rest =>
      let '(successCount, errorCount, errors) := counts in
      counts' ← tryCatch
        (processStockUpdate env now update ;;
         mret (successCount + 1, errorCount, errors))
        (λ error,
           mret (successCount, errorCount + 1,
                 (errors ++ [u_sku update +:+ ": " +:+ errorMessage error])%list));
      syncLoop env now rest counts'
  end.

(** [handleInventorySync(request)] on a body that parses and holds a list
    of updates: the updates are processed one after the other, as they
    come, none of them validated. *)
Definition handleInventorySync (env : InventoryService.Collaborators)
    (now : Time) (updates : list InventoryUpdate) : M SyncAnswer :=
  counts ← syncLoop env now updates (0, 0, []);
  let '(successCount, errorCount, errors) := counts in
  a ← get;
  mret {| syncResult :=
            {| totalUpdates := Z.of_nat (length updates);
               successful := successCount; failed := errorCount;
               errors := take 10 errors |};
          sync_location := currentPath a |}.

(** The stock that a list of updates makes of a stock: each update of the
    list applied in turn. *)
Definition applyAll (updates : list InventoryUpdate) (stock : Z) : Z :=
  fold_left (λ s u, InventoryService.applyOperation (u_operation u) s
                      (u_quantity u)) updates stock.

(** The stock of a SKU, 0 for one that the inventory does not hold. *)
Definition stockOf (k : string) (a : Agent) : Z :=
  match inventory (state a) !! k with
  | Some item => currentStock item
  | None => 0
  end.

(** [calculateAverageConfidence(analyses)] on rows of [inventory_analysis];
    [analysis.confidence || 0] is [rate_or]. *)
Definition calculateAverageConfidence (analyses : list AnalysisRow) : Q :=
  if (length analyses =? 0)%nat then 0%Q
  else
    let totalConfidence :=
      fold_left (λ sum analysis, (sum + rate_or (an_confidence analysis) 0)%Q)
        analyses 0%Q in
    (totalConfidence / inject_Z (Z.of_nat (length analyses)))%Q.

(* ===================================================================== *)
(** * What is written through to the store *)
(* ===================================================================== *)

(** The counter and the children of memory are the ones of the row that
    the path has in [fleet_state], when it has one: nothing of them waits
    to be written. *)
Definition writtenThrough (a : Agent) : Prop :=
  ∀ row, fleet_state (sqlStorage a) !! currentPath a = Some row →
    fs_counter row = counter (state a)
    ∧ list_to_set (fs_agents row) = agents (state a).

(** What [writtenThrough] looks at. *)
Definition written (a : Agent) :=
  (currentPath a, counter (state a), agents (state a),
   fleet_state (sqlStorage a)).

(** The operation brings the agent a request for the path [p], if it
    brings one: an agent object serves one path. *)
Definition servesPath (p : string) (o : Op) : Prop :=
  match o with
  | doFetchPath _ fleetPath | doRestart _ fleetPath =>
      JS.or_else fleetPath "/" = p
  | _ => True
  end.

(** The agent has loaded the state of no path but [p], and is at [p] when
    it has loaded it. *)
Definition onePath (p : string) (a : Agent) : Prop :=
  currentPath a ≠ ""
  ∧ ∀ q, "loaded:" +:+ q ∈ cache a → q = p ∧ currentPath a = p.

(** An agent that has served [/a] and [/b] by turns, counting once at
    each, and is at [/a] again. *)
Definition twoPathAgent : Agent :=
  run [doFetchPath exampleTime "/a"; doIncrement exampleTime;
       doFetchPath exampleTime "/b"; doIncrement exampleTime;
       doFetchPath exampleTime "/a"]
      (newAgent emptyStore).

(** The statistics that the constructor starts from. *)
Definition noChatStats : ChatStats :=
  {| messagesToday := 0; actionsExecuted := 0; successfulActions := 0;
     successRate := 0 |}.

(** The tables that are written with one array for all the values. *)
Definition logTables (s : Store) :=
  (inventory_transactions s, inventory_analysis s, inventory_decisions s,
   chat_statistics s).

(* ===================================================================== *)
(** * Properties *)
(* ===================================================================== *)

Ltac unfold_M :=
  unfold mbind, M_bind, bind, mret, M_ret, ret, modify, get, throw, tryCatch.

(* --------------------------------------------------------------------- *)
(** ** The loops compute what their unrolled forms say *)
(* --------------------------------------------------------------------- *)

Lemma forEach_fold {A} (f : Agent → A → Agent) (body : A → M unit) xs :
  (∀ x a, body x a = (f a x, Returned tt)) →
  ∀ a, forEach xs body a = (fold_left f xs a, Returned tt).
Proof.
  intros Hbody. induction xs as [|x xs IH]; intros a; simpl.
  - reflexivity.
  - unfold mbind, M_bind, bind. rewrite Hbody. apply IH.
Qed.

Lemma sendToWebSocket_run ws m a :
  sendToWebSocket ws m a = (sendOne m a ws, Returned tt).
Proof.
  unfold sendToWebSocket, sendOne.
  destruct (readyState ws =? 1); [destruct (send_throws ws)|]; reflexivity.
Qed.

Lemma broadcastToWebSockets_run m a :
  broadcastToWebSockets m a = (broadcastTo m a, Returned tt).
Proof.
  unfold broadcastToWebSockets, broadcastTo. unfold_M.
  apply forEach_fold. intros ws a'. apply sendToWebSocket_run.
Qed.

Lemma broadcastState_run a :
  broadcastState a = (stateBroadcast a, Returned tt).
Proof.
  unfold broadcastState, stateBroadcast. unfold_M.
  destruct (initializationComplete a);
    [apply broadcastToWebSockets_run | reflexivity].
Qed.

Lemma saveState_run now a : saveState now a = (persisted now a, Returned tt).
Proof. reflexivity. Qed.

Ltac run_M :=
  repeat (unfold_M; cbv beta iota;
          rewrite ?saveState_run, ?broadcastToWebSockets_run,
            ?broadcastState_run).

Lemma filter_all {A} (P : A → Prop) `{!∀ x, Decision (P x)} (l : list A) :
  (∀ x, P x) → filter P l = l.
Proof.
  intros HP. induction l as [|x l IH]; [done|].
  rewrite filter_cons_True by apply HP. by rewrite IH.
Qed.

(** Sending frames leaves the core of the agent alone. *)
Lemma sendAll_core m l a : core (fold_left (sendOne m) l a) = core a.
Proof.
  revert a. induction l as [|ws l IH]; intros a; simpl; [reflexivity|].
  rewrite IH. unfold sendOne.
  destruct (readyState ws =? 1); [destruct (send_throws ws)|]; reflexivity.
Qed.

(** The events of a broadcast are the deliveries to the sockets reached. *)
Lemma sendAll_trace m l a :
  trace (fold_left (sendOne m) l a) = trace a ++ deliveries m l.
Proof.
  revert a. induction l as [|ws l IH]; intros a; simpl.
  - unfold deliveries; simpl. by rewrite app_nil_r.
  - rewrite IH. unfold sendOne, deliveries, reached. rewrite filter_cons.
    destruct (Z.eqb_spec (readyState ws) 1) as [E|E].
    + destruct (send_throws ws) eqn:T; simpl.
      * rewrite decide_False by (intros [_ ?]; congruence). reflexivity.
      * rewrite decide_True by done. simpl. by rewrite <- app_assoc.
    + rewrite decide_False by (intros [? _]; congruence). reflexivity.
Qed.

(** The sockets left after a broadcast are the survivors. *)
Lemma sendAll_websockets m l a :
  websockets (state (fold_left (sendOne m) l a))
  = filter (λ w, ws_id w ∉ map ws_id (dropped l)) (websockets (state a)).
Proof.
  revert a. induction l as [|ws l IH]; intros a; simpl.
  - unfold dropped. simpl. symmetry. apply filter_all.
    intros w. apply not_elem_of_nil.
  - rewrite IH. unfold sendOne, dropped. rewrite filter_cons.
    destruct (Z.eqb_spec (readyState ws) 1) as [E|E].
    + destruct (send_throws ws) eqn:T; simpl.
      * rewrite decide_True by done. simpl.
        rewrite list_filter_filter. apply list_filter_iff.
        intros w. rewrite not_elem_of_cons. tauto.
      * rewrite decide_False by (intros [_ ?]; congruence). reflexivity.
    + rewrite decide_False by (intros [? _]; congruence). reflexivity.
Qed.

Lemma broadcastTo_core m a : core (broadcastTo m a) = core a.
Proof. apply sendAll_core. Qed.

Lemma broadcastTo_trace m a :
  trace (broadcastTo m a) = trace a ++ deliveries m (websockets (state a)).
Proof. apply sendAll_trace. Qed.

Lemma broadcastTo_websockets m a :
  websockets (state (broadcastTo m a)) = survivors (websockets (state a)).
Proof. apply sendAll_websockets. Qed.

Lemma stateBroadcast_core a : core (stateBroadcast a) = core a.
Proof.
  unfold stateBroadcast.
  destruct (initializationComplete a); [apply broadcastTo_core | done].
Qed.

Lemma broadcastAll_core ms a :
  core (fold_left (λ a m, broadcastTo m a) ms a) = core a.
Proof.
  revert a. induction ms as [|m ms IH]; intros a; simpl; [done|].
  rewrite IH. apply broadcastTo_core.
Qed.

Lemma chatStatsBroadcast_core a : core (chatStatsBroadcast a) = core a.
Proof. apply broadcastTo_core. Qed.

(** The fields that make up the core, one by one. *)
Lemma core_fields a b :
  core a = core b →
  currentPath a = currentPath b
  ∧ counter (state a) = counter (state b)
  ∧ agents (state a) = agents (state b)
  ∧ messages (state a) = messages (state b)
  ∧ inventory (state a) = inventory (state b)
  ∧ agentType (state a) = agentType (state b)
  ∧ cache a = cache b
  ∧ stateLoaded a = stateLoaded b
  ∧ initializationComplete a = initializationComplete b
  ∧ chatStats a = chatStats b
  ∧ sqlStorage a = sqlStorage b.
Proof. unfold core. intros H. injection H as -> -> -> -> -> -> -> -> -> -> ->. done. Qed.

(* --------------------------------------------------------------------- *)
(** ** What [saveState] and [loadStateFromStorage] do to the tables *)
(* --------------------------------------------------------------------- *)

(** Every row of the table after the loop of [saveState] was written for
    an item of the inventory, or was there before. *)
Lemma saveInventory_origin location ts (inv : gmap string InventoryItem)
    (t : gmap string InventoryRow) k row :
  saveInventory location ts inv t !! k = Some row →
  (∃ k' item, inv !! k' = Some item ∧ sku item = k
              ∧ row = inventoryRow location ts item)
  ∨ t !! k = Some row.
Proof.
  unfold saveInventory. revert k row.
  apply (map_fold_weak_ind
    (λ r (m : gmap string InventoryItem), ∀ k row, r !! k = Some row →
       (∃ k' item, m !! k' = Some item ∧ sku item = k
                   ∧ row = inventoryRow location ts item)
       ∨ t !! k = Some row)).
  - intros k row H. by right.
  - intros i item m r Hi IH k row H.
    destruct (decide (sku item = k)) as [E|E].
    + rewrite <- E, lookup_insert_eq in H. injection H as <-.
      left. exists i, item. by rewrite lookup_insert_eq.
    + rewrite lookup_insert_ne in H by done.
      destruct (IH k row H) as [(k' & item' & Hm & Hs & Hr)|Ht]; [|by right].
      left. exists k', item'. split; [|done].
      rewrite lookup_insert_ne; [done|]. intros ->. congruence.
Qed.

(** When every entry sits under its own [sku], the loop of [saveState]
    writes the row of each entry under the entry's key and leaves the
    other rows as they were. *)
Lemma saveInventory_lookup location ts (inv : gmap string InventoryItem)
    (t : gmap string InventoryRow) :
  (∀ k item, inv !! k = Some item → sku item = k) →
  ∀ k, saveInventory location ts inv t !! k
       = match inv !! k with
         | Some item => Some (inventoryRow location ts item)
         | None => t !! k
         end.
Proof.
  unfold saveInventory.
  apply (map_fold_weak_ind
    (λ r (m : gmap string InventoryItem),
       (∀ k item, m !! k = Some item → sku item = k) →
       ∀ k, r !! k = match m !! k with
                     | Some item => Some (inventoryRow location ts item)
                     | None => t !! k
                     end)).
  - intros _ k. by rewrite lookup_empty.
  - intros i item m r Hi IH Hkeys k.
    assert (sku item = i) as Hs by (apply Hkeys; by rewrite lookup_insert_eq).
    rewrite Hs. destruct (decide (i = k)) as [->|E].
    + by rewrite !lookup_insert_eq.
    + rewrite !lookup_insert_ne by done. apply IH.
      intros k' item' Hm. apply Hkeys. rewrite lookup_insert_ne; [done|].
      intros ->. congruence.
Qed.

Lemma persisted_currentPath now a :
  currentPath (persisted now a) = currentPath a.
Proof. reflexivity. Qed.

Lemma persisted_state now a : state (persisted now a) = state a.
Proof. reflexivity. Qed.

Lemma persisted_chatStats now a : chatStats (persisted now a) = chatStats a.
Proof. reflexivity. Qed.

Lemma persisted_trace now a : trace (persisted now a) = trace a.
Proof. reflexivity. Qed.

Lemma persisted_fleet_state now a :
  fleet_state (sqlStorage (persisted now a))
  = <[currentPath a :=
        {| fs_counter := counter (state a);
           fs_agents := elements (agents (state a));
           fs_agent_type := agentType (state a);
           fs_created_at := unixSeconds now;
           fs_updated_at := unixSeconds now |}]>
      (fleet_state (sqlStorage a)).
Proof. reflexivity. Qed.

Lemma persisted_inventory_items now a :
  inventory_items (sqlStorage (persisted now a))
  = saveInventory (currentPath a) (unixSeconds now) (inventory (state a))
      (inventory_items (sqlStorage a)).
Proof. reflexivity. Qed.

Lemma persisted_chat_statistics now a :
  chat_statistics (sqlStorage (persisted now a))
  = chat_statistics (sqlStorage a).
Proof. reflexivity. Qed.

Lemma persisted_transactions now a :
  inventory_transactions (sqlStorage (persisted now a))
  = inventory_transactions (sqlStorage a).
Proof. reflexivity. Qed.

Lemma loaded_currentPath now a :
  currentPath (fst (loadStateFromStorage now a)) = currentPath a.
Proof.
  unfold loadStateFromStorage. unfold_M.
  destruct (fleet_state (sqlStorage a) !! currentPath a); reflexivity.
Qed.

Lemma loaded_sqlStorage now a :
  sqlStorage (fst (loadStateFromStorage now a)) = sqlStorage a.
Proof.
  unfold loadStateFromStorage. unfold_M.
  destruct (fleet_state (sqlStorage a) !! currentPath a); reflexivity.
Qed.

Lemma loaded_chatStats now a :
  chatStats (fst (loadStateFromStorage now a)) = chatStats a.
Proof.
  unfold loadStateFromStorage. unfold_M.
  destruct (fleet_state (sqlStorage a) !! currentPath a); reflexivity.
Qed.

Lemma loaded_inventory now a :
  inventory (state (fst (loadStateFromStorage now a)))
  = loadedInventory now (currentPath a) (inventory_items (sqlStorage a))
    ∪ inventory (state a).
Proof.
  unfold loadStateFromStorage. unfold_M.
  destruct (fleet_state (sqlStorage a) !! currentPath a); reflexivity.
Qed.

Lemma loaded_agents now a :
  agents (state (fst (loadStateFromStorage now a)))
  = match fleet_state (sqlStorage a) !! currentPath a with
    | Some stateRow => list_to_set (fs_agents stateRow)
    | None => agents (state a)
    end.
Proof.
  unfold loadStateFromStorage. unfold_M.
  destruct (fleet_state (sqlStorage a) !! currentPath a); reflexivity.
Qed.

Lemma loaded_counter now a :
  counter (state (fst (loadStateFromStorage now a)))
  = match fleet_state (sqlStorage a) !! currentPath a with
    | Some stateRow => fs_counter stateRow
    | None => counter (state a)
    end.
Proof.
  unfold loadStateFromStorage. unfold_M.
  destruct (fleet_state (sqlStorage a) !! currentPath a) as [row|];
    [|reflexivity].
  simpl. unfold num_or. destruct (Z.eqb_spec (fs_counter row) 0); congruence.
Qed.

Lemma loaded_agentType now a :
  agentType (state (fst (loadStateFromStorage now a)))
  = match fleet_state (sqlStorage a) !! currentPath a with
    | Some stateRow => JS.or_else (fs_agent_type stateRow) "orchestrator"
    | None => agentType (state a)
    end.
Proof.
  unfold loadStateFromStorage. unfold_M.
  destruct (fleet_state (sqlStorage a) !! currentPath a); reflexivity.
Qed.

(** The items loaded for a path: one per row of the path, under the row's
    key. *)
Lemma loadedInventory_lookup now location (t : gmap string InventoryRow) k :
  loadedInventory now location t !! k
  = match t !! k with
    | Some row =>
        if decide (ii_location row = location)
        then Some (itemOfRow now k row) else None
    | None => None
    end.
Proof.
  unfold loadedInventory. rewrite map_lookup_imap.
  destruct (t !! k); reflexivity.
Qed.

(* --------------------------------------------------------------------- *)
(** ** The operations, as functions on the agent *)
(* --------------------------------------------------------------------- *)

Lemma incrementCounter_run now a :
  incrementCounter now a
  = (stateBroadcast
       (persisted now (setState (λ s, setCounter (counter s + 1) s) a)),
     Returned tt).
Proof. unfold incrementCounter. run_M. reflexivity. Qed.

Lemma createAgent_exists now name a :
  AgentNameSchema (JS.trim name) = true →
  JS.trim name ∈ agents (state a) →
  createAgentBody now name a
  = (a, Threw (ThrownInventory (AGENT_EXISTS (JS.trim name))))
  ∧ createAgent now name a
    = (broadcastTo (MsgError (message (AGENT_EXISTS (JS.trim name)))) a,
       Returned tt).
Proof.
  intros Hv Hin.
  assert (createAgentBody now name a
          = (a, Threw (ThrownInventory (AGENT_EXISTS (JS.trim name))))) as Hb.
  { unfold createAgentBody, validateInput. rewrite Hv. run_M.
    rewrite decide_True by done. reflexivity. }
  split; [done|]. unfold createAgent. unfold tryCatch. rewrite Hb.
  apply broadcastToWebSockets_run.
Qed.

Lemma createAgent_invalid now name a :
  AgentNameSchema (JS.trim name) = false →
  createAgent now name a
    = (broadcastTo (MsgError "Invalid input") a, Returned tt).
Proof.
  intros Hv. unfold createAgent, createAgentBody, validateInput. rewrite Hv.
  run_M. reflexivity.
Qed.

Lemma createAgent_fresh now name a :
  AgentNameSchema (JS.trim name) = true →
  JS.trim name ∉ agents (state a) →
  createAgent now name a
    = (stateBroadcast (broadcastTo (MsgAgentCreated (JS.trim name))
         (setCache (λ c, c ∖ {["loaded:" +:+ currentPath a]})
           (setCache (λ c, c ∖ {["state:" +:+ currentPath a]})
             (persisted now
               (setState (λ s, setAgents (agents s ∪ {[JS.trim name]}) s) a))))),
       Returned tt).
Proof.
  intros Hv Hin. unfold createAgent, createAgentBody, validateInput. rewrite Hv.
  run_M. rewrite decide_False by done. run_M. reflexivity.
Qed.

Lemma deleteAgent_absent now cascade name a :
  name ∉ agents (state a) →
  deleteAgent now cascade name a
  = (broadcastTo (MsgError ("Agent " +:+ quote +:+ name +:+ quote +:+ " does not exist")) a,
     Returned tt).
Proof.
  intros Hin. unfold deleteAgent. run_M. rewrite decide_False by done.
  apply broadcastToWebSockets_run.
Qed.

Lemma deleteAgent_responded now status name a :
  name ∈ agents (state a) →
  deleteAgent now (Responded status) name a
  = (stateBroadcast (broadcastTo (MsgAgentDeleted name)
       (setCache (λ c, c ∖ {["state:" +:+ currentPath a]})
         (persisted now
           (setState (λ s, setAgents (agents s ∖ {[name]}) s)
             (addEvent (cascadeCall a name) a))))),
     Returned tt).
Proof.
  intros Hin. unfold deleteAgent. run_M. rewrite decide_True by done.
  unfold fetchStub. run_M. reflexivity.
Qed.

Lemma deleteAgent_rejected now reason name a :
  name ∈ agents (state a) →
  deleteAgent now (Rejected reason) name a
  = (stateBroadcast
       (broadcastTo
          (MsgMessage "system" ("Deleted " +:+ name +:+ " (cascade may have failed)"))
          (persisted now
             (setState (λ s, setAgents (agents s ∖ {[name]}) s)
                (addEvent (cascadeCall a name) a)))),
     Returned tt).
Proof.
  intros Hin. unfold deleteAgent. run_M. rewrite decide_True by done.
  unfold fetchStub. run_M. reflexivity.
Qed.

Lemma handleDeleteSubtree_run now children a :
  handleDeleteSubtree now children a
  = (setState (setWebsockets [])
       (let a3 :=
          persisted now
            (setState (setMessages [])
               (setState (setCounter 0)
                  (setState (setAgents ∅)
                     (fold_left (λ x n, addEvent (cascadeCall a n) x)
                        (elements (agents (state a))) a)))) in
        fold_left (λ x ws, addEvent (Closed (ws_id ws)) x)
          (websockets (state a3)) a3),
     Returned {| status := 200; body := "Subtree deleted" |}).
Proof.
  unfold handleDeleteSubtree. unfold_M. cbv beta iota.
  rewrite (forEach_fold (λ x n, addEvent (cascadeCall a n) x)).
  2:{ intros n x. unfold fetchStub. unfold_M. cbv beta iota.
      destruct (children n); reflexivity. }
  cbv beta iota. rewrite saveState_run. cbv beta iota.
  rewrite (forEach_fold (λ x ws, addEvent (Closed (ws_id ws)) x)).
  2:{ intros ws x. reflexivity. }
  reflexivity.
Qed.

Lemma propagateStockUpdate_run a :
  propagateStockUpdate a = (fst (propagateStockUpdate a), Returned tt).
Proof.
  unfold propagateStockUpdate. unfold_M. cbv beta iota.
  destruct (String.eqb (currentPath a) "/"); [reflexivity|].
  destruct (filter _ _); reflexivity.
Qed.

Lemma propagateStockUpdate_core a :
  core (fst (propagateStockUpdate a)) = core a.
Proof.
  unfold propagateStockUpdate. unfold_M. cbv beta iota.
  destruct (String.eqb (currentPath a) "/"); [reflexivity|].
  destruct (filter _ _); reflexivity.
Qed.

Lemma processStockUpdate_run env now update a :
  processStockUpdate env now update a
  = (fst (propagateStockUpdate
       (persisted now
          (fold_left (λ x m, broadcastTo m x) (announced env now update a)
             (serviced env now update a)))),
     Returned tt).
Proof.
  unfold processStockUpdate, serviced, announced. unfold_M. cbv beta iota.
  destruct (InventoryService.processStockUpdate env now update
              (currentPath a) (sqlStorage a) (inventory (state a)))
    as [[inv' sql'] announced]. cbv beta iota.
  rewrite (forEach_fold (λ x m, broadcastTo m x)).
  2:{ intros m x. apply broadcastToWebSockets_run. }
  cbv beta iota. rewrite saveState_run. cbv beta iota.
  apply propagateStockUpdate_run.
Qed.

Lemma loadStateFromStorage_run now a :
  loadStateFromStorage now a
  = (fst (loadStateFromStorage now a), Returned tt).
Proof.
  unfold loadStateFromStorage. unfold_M.
  by destruct (fleet_state (sqlStorage a) !! currentPath a).
Qed.

Lemma fetchPath_run now fleetPath a :
  fetchPath now fleetPath a = (fetched now fleetPath a, Returned tt).
Proof.
  unfold fetchPath, fetched, updateTenantAndPath, loadState. unfold_M.
  cbv zeta.
  destruct (String.eqb fleetPath (currentPath a)); cbv beta iota.
  - destruct (negb (stateLoaded a) || _); [|done].
    destruct (stateLoaded a); rewrite loadStateFromStorage_run; reflexivity.
  - destruct (negb _ || _); [|done].
    destruct (stateLoaded _); rewrite loadStateFromStorage_run; reflexivity.
Qed.

Lemma setCurrentPath_id a : setCurrentPath (currentPath a) a = a.
Proof. by destruct a. Qed.

(** The head of [fetch] sets the path and then loads, or leaves the
    memory as it is for a path that the cache holds as loaded. *)
Lemma fetched_cases now fleetPath a :
  let path := servedAt fleetPath a in
  fetched now fleetPath a
  = setCache (λ c, c ∪ {["loaded:" +:+ path]})
      (setStateLoaded true
         (fst (loadStateFromStorage now (setCurrentPath path a))))
  ∨ (stateLoaded a = true
     ∧ "loaded:" +:+ path ∈ cache a
     ∧ fetched now fleetPath a = setCurrentPath path a).
Proof.
  unfold fetched, servedAt. cbv zeta.
  destruct (String.eqb fleetPath (currentPath a)).
  - rewrite setCurrentPath_id.
    destruct (stateLoaded a); cbn [negb orb]; [|by left].
    case_bool_decide; cbn [negb]; [by right|by left].
  - cbn [currentPath setCurrentPath stateLoaded cache].
    destruct (stateLoaded a); cbn [negb orb]; [|by left].
    case_bool_decide; cbn [negb]; [by right|by left].
Qed.



Lemma servedAt_header fleetPath a :
  fleetPath ≠ "" → servedAt fleetPath a = fleetPath.
Proof.
  intros Hne. unfold servedAt.
  destruct (String.eqb_spec fleetPath (currentPath a)) as [<-|_]; [done|].
  unfold JS.or_else. by destruct fleetPath.
Qed.

Lemma fetched_currentPath now fleetPath a :
  currentPath (fetched now fleetPath a) = servedAt fleetPath a.
Proof.
  destruct (fetched_cases now fleetPath a) as [->|(_ & _ & ->)]; [|done].
  change (currentPath (setCache ?f (setStateLoaded ?b ?x)))
    with (currentPath x).
  by rewrite loaded_currentPath.
Qed.

Lemma saveChatStatistics_run now a :
  saveChatStatistics now a = (setChatStats withSuccessRate a, Returned tt).
Proof. reflexivity. Qed.

Lemma loadChatStatistics_run now a :
  loadChatStatistics now a = (a, Returned tt).
Proof. reflexivity. Qed.

Lemma updateChatStats_run now type a :
  updateChatStats now type a = (statsUpdated now type a, Returned tt).
Proof.
  unfold updateChatStats, statsUpdated, broadcastChatStats, chatStatsBroadcast.
  unfold_M. cbv beta iota. rewrite saveChatStatistics_run. cbv beta iota.
  cbn [fst]. by rewrite broadcastToWebSockets_run.
Qed.

Lemma executeChatAction_run now succeeds a :
  executeChatAction now succeeds a = (actionCounted now a succeeds, Returned tt).
Proof.
  unfold executeChatAction, actionCounted. unfold_M. cbv beta iota.
  rewrite updateChatStats_run. cbv beta iota.
  destruct succeeds; cbv beta iota; rewrite ?updateChatStats_run; reflexivity.
Qed.

Lemma sendOne_core m a ws : core (sendOne m a ws) = core a.
Proof.
  unfold sendOne.
  destruct (readyState ws =? 1); [destruct (send_throws ws)|]; reflexivity.
Qed.

Lemma historySent_core ws l a : core (fold_left (historySent ws) l a) = core a.
Proof.
  revert a. induction l as [|m l IH]; intros a; simpl; [reflexivity|].
  rewrite IH. unfold historySent.
  destruct (String.eqb (from_agent m) "user"); [apply sendOne_core|].
  destruct (String.eqb (from_agent m) "ai-assistant");
    [apply sendOne_core | reflexivity].
Qed.

Lemma sendChatHistory_run ws a :
  sendChatHistory ws a
  = (fold_left (historySent ws) (messages (state a)) a, Returned tt).
Proof.
  unfold sendChatHistory. unfold_M. cbv beta iota.
  apply forEach_fold. intros m x. unfold historySent.
  destruct (String.eqb (from_agent m) "user"); [apply sendToWebSocket_run|].
  destruct (String.eqb (from_agent m) "ai-assistant");
    [apply sendToWebSocket_run | reflexivity].
Qed.

(** Accepting a websocket leaves the core of the agent alone. *)
Lemma handleWebSocket_core server a :
  core (fst (handleWebSocket server a)) = core a.
Proof.
  unfold handleWebSocket, broadcastChatStats. unfold_M. cbv beta iota.
  cbn [initializationComplete setState].
  destruct (initializationComplete a).
  - rewrite sendToWebSocket_run. cbv beta iota.
    rewrite sendChatHistory_run. cbv beta iota.
    rewrite broadcastToWebSockets_run. cbn [fst].
    by rewrite broadcastTo_core, historySent_core, sendOne_core.
  - rewrite sendChatHistory_run. cbv beta iota.
    rewrite broadcastToWebSockets_run. cbn [fst].
    by rewrite broadcastTo_core, historySent_core.
Qed.

Lemma processChatMessage_run now actions a :
  processChatMessage now actions a
  = (fold_left (actionCounted now) actions (statsUpdated now statMessage a),
     Returned tt).
Proof.
  unfold processChatMessage, executeChatActions. unfold_M. cbv beta iota.
  rewrite updateChatStats_run. cbv beta iota.
  rewrite (forEach_fold (actionCounted now)).
  2:{ intros ok x. apply executeChatAction_run. }
  reflexivity.
Qed.

(* --------------------------------------------------------------------- *)
(** ** The invariants hold in every reachable state *)
(* --------------------------------------------------------------------- *)

(** The invariants only look at the path, the children, the inventory, the
    statistics and the store. *)
Lemma Consistent_same a b :
  currentPath a = currentPath b →
  agents (state a) = agents (state b) →
  inventory (state a) = inventory (state b) →
  agentType (state a) = agentType (state b) →
  cache a = cache b →
  chatStats a = chatStats b →
  sqlStorage a = sqlStorage b →
  Consistent a → Consistent b.
Proof.
  intros Hp Ha Hi Ht Hk Hc Hs [H0 H1 H2 H3 H4 H5].
  split;
    unfold childrenValid, inventoryKeyed, noStaleRows, chatConsistent,
      loadedRows in *;
    rewrite <- ?Hp, <- ?Ha, <- ?Hi, <- ?Ht, <- ?Hk, <- ?Hc, <- ?Hs;
    assumption.
Qed.

Lemma Consistent_core a b : core a = core b → Consistent a → Consistent b.
Proof.
  intros H. apply core_fields in H as (?&?&?&?&?&?&?&?&?&?&?).
  by apply Consistent_same.
Qed.

Lemma stocksNonNegative_same a b :
  inventory (state a) = inventory (state b) →
  sqlStorage a = sqlStorage b →
  stocksNonNegative a → stocksNonNegative b.
Proof. unfold stocksNonNegative. intros <- <-. done. Qed.

Lemma stocksNonNegative_core a b :
  core a = core b → stocksNonNegative a → stocksNonNegative b.
Proof.
  intros H. apply core_fields in H as (?&?&?&?&?&?&?&?&?&?&?).
  by apply stocksNonNegative_same.
Qed.

Lemma persisted_cache now a : cache (persisted now a) = cache a.
Proof. reflexivity. Qed.

Lemma Consistent_persisted now a : Consistent a → Consistent (persisted now a).
Proof.
  intros [Htype [Hmem Hrows] Hkeys Hstale Hchat Hloaded]. split.
  - by rewrite persisted_state.
  - split; rewrite ?persisted_state; [done|].
    intros p row. rewrite persisted_fleet_state, lookup_insert.
    case_decide; [|by apply Hrows].
    intros [= <-] n. simpl. rewrite elem_of_elements. apply Hmem.
  - unfold inventoryKeyed. by rewrite persisted_state.
  - intros k row. rewrite persisted_inventory_items, persisted_state,
      persisted_currentPath.
    intros Hrow Hloc. apply saveInventory_origin in Hrow
      as [(k' & item & Hm & Hs & _)|Hold]; [|by apply (Hstale k row)].
    rewrite <- Hs, (Hkeys _ _ Hm). by rewrite Hm.
  - destruct Hchat. split; [by rewrite persisted_chatStats|].
    by rewrite persisted_chat_statistics.
  - intros k row. rewrite persisted_inventory_items, persisted_state,
      persisted_cache.
    intros Hrow Hloc. apply saveInventory_origin in Hrow
      as [(k' & item & Hm & Hs & _)|Hold]; [|by apply (Hloaded k row)].
    rewrite <- Hs, (Hkeys _ _ Hm). by rewrite Hm.
Qed.

Lemma stocksNonNegative_persisted now a :
  stocksNonNegative a → stocksNonNegative (persisted now a).
Proof.
  intros [Hmem Hrows]. split; rewrite ?persisted_state; [done|].
  intros k row. rewrite persisted_inventory_items. intros Hrow.
  apply saveInventory_origin in Hrow
    as [(k' & item & Hm & _ & ->)|Hold]; [|by apply (Hrows k row)].
  simpl. by apply (Hmem k' item).
Qed.

(** Loading for a path re-establishes the invariants, whatever the path
    was before. *)
Lemma loaded_cache now a :
  cache (fst (loadStateFromStorage now a)) = cache a.
Proof.
  unfold loadStateFromStorage. unfold_M.
  by destruct (fleet_state (sqlStorage a) !! currentPath a).
Qed.

Lemma Consistent_loaded now path a :
  agentType (state a) ≠ "" →
  childrenValid a → inventoryKeyed a → chatConsistent a → loadedRows a →
  Consistent (fst (loadStateFromStorage now (setCurrentPath path a))).
Proof.
  intros Htype [Hmem Hrows] Hkeys [Hstats Hchat] Hloaded. split.
  - rewrite loaded_agentType. simpl.
    destruct (fleet_state (sqlStorage a) !! path) as [row|]; [|done].
    unfold JS.or_else. by destruct (fs_agent_type row).
  - split; rewrite ?loaded_agents, ?loaded_sqlStorage; [|apply Hrows].
    simpl. destruct (fleet_state (sqlStorage a) !! path) as [row|] eqn:E;
      [|apply Hmem].
    intros n. rewrite elem_of_list_to_set. by apply (Hrows path row).
  - intros k item. rewrite loaded_inventory, lookup_union,
      loadedInventory_lookup. simpl.
    destruct (inventory_items (sqlStorage a) !! k) as [row|];
      [case_decide|]; simpl.
    + rewrite union_Some_l. by intros [= <-].
    + rewrite left_id_L by apply _. apply Hkeys.
    + rewrite left_id_L by apply _. apply Hkeys.
  - intros k row. rewrite loaded_sqlStorage, loaded_currentPath,
      loaded_inventory. simpl. intros Hrow Hloc.
    rewrite lookup_union, loadedInventory_lookup, Hrow.
    rewrite decide_True by done. by rewrite union_Some_l.
  - split; rewrite ?loaded_chatStats, ?loaded_sqlStorage; done.
  - intros k row. rewrite loaded_sqlStorage, loaded_cache, loaded_inventory.
    simpl. intros Hrow Hkey. rewrite lookup_union.
    destruct (Hloaded k row Hrow Hkey) as [item ->].
    by destruct (loadedInventory now path (inventory_items (sqlStorage a)) !! k).
Qed.

Lemma stocksNonNegative_loaded now path a :
  stocksNonNegative a →
  stocksNonNegative (fst (loadStateFromStorage now (setCurrentPath path a))).
Proof.
  intros [Hmem Hrows]. split; rewrite ?loaded_sqlStorage; [|apply Hrows].
  intros k item. rewrite loaded_inventory, lookup_union,
    loadedInventory_lookup. simpl.
  destruct (inventory_items (sqlStorage a) !! k) as [row|] eqn:E;
    [case_decide|]; simpl.
  - rewrite union_Some_l. intros [= <-]. simpl. by apply (Hrows k row).
  - rewrite left_id_L by apply _. apply Hmem.
  - rewrite left_id_L by apply _. apply Hmem.
Qed.



(** The service leaves the store as it was: the one statement that it
    reaches throws. *)
Lemma service_store env now update location sql inv :
  (InventoryService.processStockUpdate env now update location sql inv).1.2
  = sql.
Proof.
  unfold InventoryService.processStockUpdate.
  destruct (_ <=? _); reflexivity.
Qed.

Lemma service_inventory env now update location sql inv :
  (InventoryService.processStockUpdate env now update location sql inv).1.1
  = <[u_sku update := InventoryService.updatedItem now update inv]> inv.
Proof.
  unfold InventoryService.processStockUpdate.
  destruct (_ <=? _); reflexivity.
Qed.

Lemma service_tables env now update location sql inv :
  let r := InventoryService.processStockUpdate env now update location sql inv in
  fleet_state r.1.2 = fleet_state sql
  ∧ inventory_items r.1.2 = inventory_items sql
  ∧ inventory_transactions r.1.2 = inventory_transactions sql
  ∧ chat_statistics r.1.2 = chat_statistics sql.
Proof. cbv zeta. by rewrite service_store. Qed.

Lemma updatedItem_sku now update (inv : gmap string InventoryItem) :
  (∀ k item, inv !! k = Some item → sku item = k) →
  sku (InventoryService.updatedItem now update inv) = u_sku update.
Proof.
  intros Hkeys. unfold InventoryService.updatedItem, InventoryService.getOrCreate.
  simpl. destruct (inv !! u_sku update) eqn:E; [by apply Hkeys|done].
Qed.

Lemma applyOperation_nonneg operation stock quantity :
  0 <= stock → 0 <= quantity →
  0 <= InventoryService.applyOperation operation stock quantity.
Proof. destruct operation; simpl; lia. Qed.

Lemma updatedItem_nonneg now update (inv : gmap string InventoryItem) :
  (∀ k item, inv !! k = Some item → 0 <= currentStock item) →
  0 <= u_quantity update →
  0 <= currentStock (InventoryService.updatedItem now update inv).
Proof.
  intros Hinv Hq. unfold InventoryService.updatedItem, InventoryService.getOrCreate.
  simpl. apply applyOperation_nonneg; [|done].
  destruct (inv !! u_sku update) eqn:E; [by apply (Hinv _ _ E)|simpl; lia].
Qed.

(** The agent after the service ran on it, before the state is saved. *)
Lemma Consistent_serviced env now update a :
  Consistent a → Consistent (serviced env now update a).
Proof.
  unfold serviced.
  set (r := InventoryService.processStockUpdate env now update
              (currentPath a) (sqlStorage a) (inventory (state a))).
  intros [Htype [Hmem Hrows] Hkeys Hstale [Hstats Hchat] Hloaded].
  destruct (service_tables env now update (currentPath a) (sqlStorage a)
              (inventory (state a))) as (Hfs & Hii & _ & Hcs).
  fold r in Hfs, Hii, Hcs.
  pose proof (service_inventory env now update (currentPath a) (sqlStorage a)
                (inventory (state a))) as Hinv. fold r in Hinv.
  split.
  - done.
  - split; simpl; [done|]. by rewrite Hfs.
  - intros k item. simpl. rewrite Hinv, lookup_insert.
    case_decide; [|apply Hkeys]. intros [= <-]. subst k.
    by apply updatedItem_sku.
  - intros k row. simpl. rewrite Hii, Hinv. intros Hrow Hloc.
    rewrite lookup_insert. case_decide; [done|]. by apply (Hstale k row).
  - split; simpl; [done|]. by rewrite Hcs.
  - intros k row. simpl. rewrite Hii, Hinv. intros Hrow Hkey.
    rewrite lookup_insert. case_decide; [done|]. by apply (Hloaded k row).
Qed.

Lemma stocksNonNegative_serviced env now update a :
  0 <= u_quantity update →
  stocksNonNegative a →
  stocksNonNegative (serviced env now update a).
Proof.
  unfold serviced.
  set (r := InventoryService.processStockUpdate env now update
              (currentPath a) (sqlStorage a) (inventory (state a))).
  intros Hq [Hmem Hrows].
  destruct (service_tables env now update (currentPath a) (sqlStorage a)
              (inventory (state a))) as (_ & Hii & _ & _).
  fold r in Hii.
  pose proof (service_inventory env now update (currentPath a) (sqlStorage a)
                (inventory (state a))) as Hinv. fold r in Hinv.
  split; simpl.
  - intros k item. rewrite Hinv, lookup_insert.
    case_decide; [|apply Hmem]. intros [= <-]. by apply updatedItem_nonneg.
  - by rewrite Hii.
Qed.

Lemma statsUpdated_core now type a :
  core (statsUpdated now type a)
  = core (fst (saveChatStatistics now (setChatStats (countStat type) a))).
Proof. apply chatStatsBroadcast_core. Qed.

Lemma statsUpdated_chatStats now type a :
  chatStats (statsUpdated now type a)
  = withSuccessRate (countStat type (chatStats a)).
Proof.
  pose proof (statsUpdated_core now type a) as H.
  apply core_fields in H as (_&_&_&_&_&_&_&_&_&H&_). by rewrite H.
Qed.

Lemma withSuccessRate_consistent c :
  0 <= successfulActions c <= actionsExecuted c →
  statsConsistent (withSuccessRate c).
Proof. intros H. split; [done|]. reflexivity. Qed.

Lemma Consistent_statsUpdated now type a :
  Consistent a →
  0 <= successfulActions (countStat type (chatStats a))
    <= actionsExecuted (countStat type (chatStats a)) →
  Consistent (statsUpdated now type a).
Proof.
  intros [Ht Hc Hk Hs [Hstats Hrows] Hl] Hcount.
  apply (Consistent_core _ _ (eq_sym (statsUpdated_core now type a))).
  rewrite saveChatStatistics_run. cbn [fst].
  split; [done..| |done].
  split; simpl; [by apply withSuccessRate_consistent|done].
Qed.

Lemma Consistent_actionCounted now a succeeds :
  Consistent a → Consistent (actionCounted now a succeeds).
Proof.
  intros H. pose proof (consistent_chat _ H) as [[Hle _] _].
  assert (Consistent (statsUpdated now statAction a)) as H1.
  { apply Consistent_statsUpdated; [done|]. simpl. lia. }
  unfold actionCounted. destruct succeeds;
    (apply Consistent_statsUpdated; [done|]);
    rewrite statsUpdated_chatStats; simpl; lia.
Qed.

Lemma Consistent_chatMessage now actions a :
  Consistent a →
  Consistent (fold_left (actionCounted now) actions
                (statsUpdated now statMessage a)).
Proof.
  intros H.
  assert (Consistent (statsUpdated now statMessage a)) as H0.
  { apply Consistent_statsUpdated; [done|].
    destruct (consistent_chat _ H) as [[Hle _] _]. simpl. lia. }
  revert H0. generalize (statsUpdated now statMessage a).
  induction actions as [|ok actions IH]; intros x Hx; simpl; [done|].
  apply IH. by apply Consistent_actionCounted.
Qed.

Lemma stocksNonNegative_statsUpdated now type a :
  stocksNonNegative a → stocksNonNegative (statsUpdated now type a).
Proof.
  intros H.
  apply (stocksNonNegative_core _ _ (eq_sym (statsUpdated_core now type a))).
  exact H.
Qed.

Lemma stocksNonNegative_chatMessage now actions a :
  stocksNonNegative a →
  stocksNonNegative (fold_left (actionCounted now) actions
                       (statsUpdated now statMessage a)).
Proof.
  intros H. apply (stocksNonNegative_statsUpdated now statMessage) in H.
  revert H. generalize (statsUpdated now statMessage a).
  induction actions as [|ok actions IH]; intros x Hx; simpl; [done|].
  apply IH. unfold actionCounted.
  destruct ok; by do 2 apply stocksNonNegative_statsUpdated.
Qed.

Lemma addEvents_core {A} (f : A → Event) l a :
  core (fold_left (λ x n, addEvent (f n) x) l a) = core a.
Proof.
  revert a. induction l as [|n l IH]; intros a; simpl; [done|]. by rewrite IH.
Qed.

Lemma addEvents_trace {A} (f : A → Event) l a :
  trace (fold_left (λ x n, addEvent (f n) x) l a) = trace a ++ map f l.
Proof.
  revert a. induction l as [|n l IH]; intros a; simpl.
  - by rewrite app_nil_r.
  - rewrite IH. simpl. by rewrite <- app_assoc.
Qed.

Lemma addEvents_websockets {A} (f : A → Event) l a :
  websockets (state (fold_left (λ x n, addEvent (f n) x) l a))
  = websockets (state a).
Proof.
  revert a. induction l as [|n l IH]; intros a; simpl; [done|]. by rewrite IH.
Qed.

Lemma loadChatStatistics_consistent now a :
  Consistent a → Consistent (fst (loadChatStatistics now a)).
Proof. by rewrite loadChatStatistics_run. Qed.

Lemma stocksNonNegative_loadChat now a :
  stocksNonNegative a → stocksNonNegative (fst (loadChatStatistics now a)).
Proof. by rewrite loadChatStatistics_run. Qed.

Section Preservation.

(** A property of agents that the operations may or may not preserve. *)
Variable P : Agent → Prop.

(** It only looks at the path, the children, the inventory, the keys of
    the cache, the statistics and the store ... *)
Hypothesis P_same : ∀ a b,
  currentPath a = currentPath b →
  agents (state a) = agents (state b) →
  inventory (state a) = inventory (state b) →
  agentType (state a) = agentType (state b) →
  cache a = cache b →
  chatStats a = chatStats b →
  sqlStorage a = sqlStorage b →
  P a → P b.

(** ... and survives the elementary changes the operations are made of. *)
Hypothesis P_persisted : ∀ now a, P a → P (persisted now a).
Hypothesis P_added : ∀ n a,
  AgentNameSchema n = true →
  P a → P (setState (λ s, setAgents (agents s ∪ {[n]}) s) a).
Hypothesis P_removed : ∀ n a,
  P a → P (setState (λ s, setAgents (agents s ∖ {[n]}) s) a).
Hypothesis P_cleared : ∀ a, P a → P (setState (setAgents ∅) a).
Hypothesis P_forgot : ∀ key a, P a → P (setCache (λ c, c ∖ {[key]}) a).
Hypothesis P_fetched : ∀ now path a, P a → P (fetched now path a).
Hypothesis P_initialized : ∀ now a, P a → P (initialize now (sqlStorage a)).
Hypothesis P_chatted : ∀ now actions a,
  P a →
  P (fold_left (actionCounted now) actions (statsUpdated now statMessage a)).

Variable admitted : Op → Prop.
Hypothesis P_serviced : ∀ env now update a,
  admitted (doStockUpdate env now update) →
  P a → P (serviced env now update a).

Lemma preserved_core a b : core a = core b → P a → P b.
Proof.
  intros H. apply core_fields in H as (?&?&?&?&?&?&?&?&?&?&?).
  by apply P_same.
Qed.

Ltac peel :=
  repeat first
    [ apply (preserved_core _ _ (eq_sym (stateBroadcast_core _)))
    | apply (preserved_core _ _ (eq_sym (broadcastTo_core _ _)))
    | apply (preserved_core _ _ (eq_sym (broadcastAll_core _ _)))
    | apply (preserved_core _ _ (eq_sym (addEvents_core _ _ _)))
    | apply (preserved_core _ _ (eq_sym (propagateStockUpdate_core _)))
    | apply P_persisted ].

Lemma preserved_step a o : admitted o → P a → P (step a o).
Proof.
  intros Hadm H. destruct o as [now|now name|now cascade name|now children
    |env now update|now actions|server|ws|now path|now path]; simpl.
  - rewrite incrementCounter_run. simpl. peel.
    revert H. by apply P_same.
  - destruct (AgentNameSchema (JS.trim name)) eqn:Hv.
    + destruct (decide (JS.trim name ∈ agents (state a))) as [Hin|Hin].
      * destruct (createAgent_exists now name a Hv Hin) as [_ ->]. simpl.
        by peel.
      * rewrite (createAgent_fresh now name a Hv Hin). simpl. peel.
        do 2 apply P_forgot. peel. by apply P_added.
    + rewrite (createAgent_invalid now name a Hv). simpl. by peel.
  - destruct (decide (name ∈ agents (state a))) as [Hin|Hin].
    + destruct cascade as [status|reason].
      * rewrite (deleteAgent_responded now status name a Hin). simpl. peel.
        apply P_forgot. peel. apply P_removed. revert H. by apply P_same.
      * rewrite (deleteAgent_rejected now reason name a Hin). simpl. peel.
        apply P_removed. revert H. by apply P_same.
    + rewrite (deleteAgent_absent now cascade name a Hin). simpl. by peel.
  - rewrite handleDeleteSubtree_run. simpl.
    match goal with |- P (setState (setWebsockets []) ?x) =>
      apply (P_same x); try reflexivity end.
    peel.
    match goal with |- P (setState (setMessages []) (setState (setCounter 0) ?x)) =>
      apply (P_same x); try reflexivity end.
    apply P_cleared. by peel.
  - rewrite processStockUpdate_run. simpl. peel. by apply P_serviced.
  - rewrite processChatMessage_run. simpl. by apply P_chatted.
  - by apply (preserved_core _ _ (eq_sym (handleWebSocket_core server a))).
  - revert H. by apply P_same.
  - rewrite fetchPath_run. by apply P_fetched.
  - unfold resume. rewrite fetchPath_run. apply P_fetched.
    by apply P_initialized.
Qed.

Lemma preserved_run ops a : Forall admitted ops → P a → P (run ops a).
Proof.
  unfold run. revert a.
  induction ops as [|o ops IH]; intros a Hops H; simpl; [done|].
  inversion Hops; subst. apply IH; [done|]. by apply preserved_step.
Qed.

End Preservation.

Lemma Consistent_added n a :
  AgentNameSchema n = true →
  Consistent a →
  Consistent (setState (λ s, setAgents (agents s ∪ {[n]}) s) a).
Proof.
  intros Hn [Ht [Hmem Hrows] Hk Hs Hc]. split; [done| |done..].
  split; [|done]. simpl. intros m [Hm| ->%elem_of_singleton]%elem_of_union;
    [by apply Hmem | done].
Qed.

Lemma Consistent_removed n a :
  Consistent a →
  Consistent (setState (λ s, setAgents (agents s ∖ {[n]}) s) a).
Proof.
  intros [Ht [Hmem Hrows] Hk Hs Hc]. split; [done| |done..].
  split; [|done]. simpl. intros m [Hm _]%elem_of_difference. by apply Hmem.
Qed.

Lemma Consistent_cleared a :
  Consistent a → Consistent (setState (setAgents ∅) a).
Proof.
  intros [Ht [Hmem Hrows] Hk Hs Hc]. split; [done| |done..].
  split; [|done]. simpl. intros m Hm. by apply not_elem_of_empty in Hm.
Qed.

Lemma Consistent_reloaded now path a :
  Consistent a →
  Consistent (fst (loadStateFromStorage now (setCurrentPath path a))).
Proof. intros [? ? ? ? ?]. by apply Consistent_loaded. Qed.

Lemma Consistent_initialized now a :
  Consistent a → Consistent (initialize now (sqlStorage a)).
Proof.
  intros [Ht [Hmem Hrows] Hk Hs [Hstats Hchat]]. unfold initialize.
  apply (Consistent_same
    (fst (loadChatStatistics now
       (fst (loadStateFromStorage now (newAgent (sqlStorage a)))))));
    try reflexivity.
  apply loadChatStatistics_consistent.
  change (newAgent (sqlStorage a))
    with (setCurrentPath "/" (newAgent (sqlStorage a))).
  apply Consistent_loaded.
  - done.
  - split; [|done]. simpl. intros n Hn. by apply not_elem_of_empty in Hn.
  - intros k item. simpl. by rewrite lookup_empty.
  - split; [|done]. simpl. split; simpl; [lia|reflexivity].
  - intros k row _ Hkey. simpl in Hkey. by apply not_elem_of_empty in Hkey.
Qed.

Lemma Consistent_forgot key a :
  Consistent a → Consistent (setCache (λ c, c ∖ {[key]}) a).
Proof.
  intros [Ht Hc Hk Hs Hchat Hl]. split; [done..|].
  intros k row Hrow [Hkey _]%elem_of_difference. by apply (Hl k row).
Qed.

(** The head of [fetch] keeps the invariants: it loads the rows of the
    path, or finds the path among the loaded ones, whose rows are in
    memory. *)
Lemma Consistent_fetched now fleetPath a :
  Consistent a → Consistent (fetched now fleetPath a).
Proof.
  intros H.
  destruct (fetched_cases now fleetPath a) as [->|(_ & Hkey & ->)].
  - pose proof (Consistent_reloaded now (servedAt fleetPath a) a H)
      as [Ht Hc Hk Hs Hchat Hl].
    split; [done..|].
    intros k row Hrow [Hold|Heq%elem_of_singleton]%elem_of_union.
    + by apply (Hl k row).
    + apply (Hs k row Hrow). rewrite loaded_currentPath. simpl.
      by apply (String.app_inj "loaded:") in Heq.
  - destruct H as [Ht Hc Hk Hs Hchat Hl]. split; [done..| |done|done].
    intros k row Hrow Hloc. simpl in Hloc. apply (Hl k row Hrow).
    by rewrite Hloc.
Qed.

Lemma Consistent_step a o : Consistent a → Consistent (step a o).
Proof.
  intros H.
  apply (preserved_step Consistent Consistent_same Consistent_persisted
           Consistent_added Consistent_removed Consistent_cleared
           Consistent_forgot Consistent_fetched Consistent_initialized
           Consistent_chatMessage (λ _, True)); [|done..].
  intros env now update x _. apply Consistent_serviced.
Qed.

Lemma Consistent_run ops a : Consistent a → Consistent (run ops a).
Proof.
  unfold run. revert a.
  induction ops as [|o ops IH]; intros a H; simpl; [done|].
  apply IH. by apply Consistent_step.
Qed.

Lemma Consistent_newAgent : Consistent (newAgent emptyStore).
Proof.
  split.
  - done.
  - split; simpl; [intros n Hn; by apply not_elem_of_empty in Hn|].
    intros p row. by rewrite lookup_empty.
  - intros k item. simpl. by rewrite lookup_empty.
  - intros k row. simpl. by rewrite lookup_empty.
  - split; simpl; [split; simpl; [lia|reflexivity]|].
    intros key row. by rewrite lookup_empty.
  - intros k row. simpl. by rewrite lookup_empty.
Qed.

Lemma stocksNonNegative_initialized now a :
  stocksNonNegative a → stocksNonNegative (initialize now (sqlStorage a)).
Proof.
  intros [Hmem Hrows]. unfold initialize.
  apply (stocksNonNegative_same
    (fst (loadChatStatistics now
       (fst (loadStateFromStorage now (newAgent (sqlStorage a)))))));
    try reflexivity.
  apply stocksNonNegative_loadChat.
  change (newAgent (sqlStorage a))
    with (setCurrentPath "/" (newAgent (sqlStorage a))).
  apply stocksNonNegative_loaded.
  split; [|done]. intros k item. simpl. by rewrite lookup_empty.
Qed.

Lemma stocksNonNegative_run ops a :
  Forall nonNegativeOp ops → stocksNonNegative a →
  stocksNonNegative (run ops a).
Proof.
  apply (preserved_run stocksNonNegative); try done.
  - intros x b _ _ Hi _ _ _ Hs. by apply stocksNonNegative_same.
  - apply stocksNonNegative_persisted.
  - intros now path x Hx.
    destruct (fetched_cases now path x) as [->|(_ & _ & ->)].
    + apply (stocksNonNegative_same
               (fst (loadStateFromStorage now
                       (setCurrentPath (servedAt path x) x))));
        [reflexivity..|].
      by apply stocksNonNegative_loaded.
    + revert Hx. by apply stocksNonNegative_same.
  - apply stocksNonNegative_initialized.
  - apply stocksNonNegative_chatMessage.
  - intros env now update x Hq. by apply stocksNonNegative_serviced.
Qed.

(* --------------------------------------------------------------------- *)
(** ** Stock updates *)
(* --------------------------------------------------------------------- *)

(** A stock update, seen from the agent: apart from the frames it sends
    and the call to the parent, it is the service followed by
    [saveState]. *)
Lemma stockUpdate_core env now update a :
  core (step a (doStockUpdate env now update))
  = core (persisted now (serviced env now update a)).
Proof.
  simpl. rewrite processStockUpdate_run. simpl.
  rewrite propagateStockUpdate_core.
  unfold core. rewrite !persisted_state, !persisted_currentPath.
  pose proof (broadcastAll_core (announced env now update a)
                (serviced env now update a)) as H.
  apply core_fields in H as (H1&H2&H3&H4&H5&H6&H7&H8&H9&H10&H11).
  unfold persisted, saveState. unfold_M. simpl.
  by rewrite H1, H2, H3, H4, H5, H6, H7, H8, H9, H10, H11.
Qed.

Lemma stockUpdate_inventory env now update a :
  inventory (state (step a (doStockUpdate env now update)))
  = <[u_sku update :=
        InventoryService.updatedItem now update (inventory (state a))]>
      (inventory (state a)).
Proof.
  pose proof (stockUpdate_core env now update a) as H.
  apply core_fields in H as (_&_&_&_&->&_).
  rewrite persisted_state. apply service_inventory.
Qed.

Lemma stockUpdate_currentPath env now update a :
  currentPath (step a (doStockUpdate env now update)) = currentPath a.
Proof.
  pose proof (stockUpdate_core env now update a) as H.
  by apply core_fields in H as (->&_).
Qed.

(** A stock update writes no transaction: the statement that would is
    handed one array for its five placeholders. *)
Lemma stockUpdate_transactions env now update a :
  inventory_transactions (sqlStorage (step a (doStockUpdate env now update)))
  = inventory_transactions (sqlStorage a).
Proof.
  pose proof (stockUpdate_core env now update a) as H.
  apply core_fields in H as (_&_&_&_&_&_&_&_&_&_&->).
  rewrite persisted_transactions. unfold serviced. simpl.
  by rewrite service_store.
Qed.

(** C1. A decrement of [q] on an item whose stock is [s] leaves the stock
    at [max(0, s - q)]; and from a state without negative stock, no run of
    operations whose stock updates carry quantities of at least 0 reaches
    a negative stock. *)
Theorem decrement_clamps_and_stock_never_negative :
  (∀ env now k q a item,
     inventory (state a) !! k = Some item →
     currentStock <$>
       inventory (state (step a (doStockUpdate env now
         {| u_sku := k; u_quantity := q; u_operation := opDecrement |}))) !! k
     = Some (Z.max 0 (currentStock item - q)))
  ∧ (∀ ops a,
       Forall nonNegativeOp ops →
       stocksNonNegative a →
       ∀ k item, inventory (state (run ops a)) !! k = Some item →
                 0 <= currentStock item).
Proof.
  split.
  - intros env now k q a item Hitem.
    rewrite stockUpdate_inventory. simpl. rewrite lookup_insert_eq. simpl.
    unfold InventoryService.getOrCreate. by rewrite Hitem.
  - intros ops a Hops Ha k item Hitem.
    destruct (stocksNonNegative_run ops a Hops Ha) as [Hmem _].
    by apply (Hmem k item).
Qed.

Lemma decrement_clamps_and_stock_never_negative_witness :
  currentStock <$>
    inventory (state (step stockedAgent (doStockUpdate exampleEnv laterTime
      {| u_sku := "SKU-1"; u_quantity := 150; u_operation := opDecrement |})))
      !! "SKU-1"
  = Some (Z.max 0 (100 - 150))
  ∧ 0 <= currentStock
           {| sku := "SKU-1"; name := "Product SKU-1"; currentStock := 0;
              lowStockThreshold := 10; lastUpdated := iso laterTime |}.
Proof.
  split.
  - apply (proj1 decrement_clamps_and_stock_never_negative
             exampleEnv laterTime "SKU-1" 150 stockedAgent
             {| sku := "SKU-1"; name := "Product SKU-1"; currentStock := 100;
                lowStockThreshold := 10; lastUpdated := iso exampleTime |}).
    vm_compute. reflexivity.
  - refine (proj2 decrement_clamps_and_stock_never_negative
             [doStockUpdate exampleEnv exampleTime
                {| u_sku := "SKU-1"; u_quantity := 100; u_operation := opSet |};
              doStockUpdate exampleEnv laterTime
                {| u_sku := "SKU-1"; u_quantity := 150;
                   u_operation := opDecrement |}]
             (newAgent emptyStore) _ _ "SKU-1" _ _).
    + repeat constructor; simpl; lia.
    + split; intros k x; simpl; rewrite lookup_empty; discriminate.
    + vm_compute. reflexivity.
Defined.

(** C8, as the code has it.  Two consecutive [set] updates of the same SKU
    to the same quantity leave the inventory that the second one alone
    would leave, with the stock at that quantity as after a single update;
    but the pair leaves [inventory_transactions] as it was, where the
    claim has two rows more: each [INSERT] of a transaction is handed its
    five values as one array, throws, and is only logged.  On an agent
    that starts from an empty store the table is empty after the pair. *)
Theorem set_is_idempotent_and_records_no_transaction :
  (∀ env1 env2 t1 t2 k q a,
     let update := {| u_sku := k; u_quantity := q; u_operation := opSet |} in
     let once := step a (doStockUpdate env2 t2 update) in
     let twice :=
       step (step a (doStockUpdate env1 t1 update))
         (doStockUpdate env2 t2 update) in
     inventory (state twice) = inventory (state once)
     ∧ currentStock <$> inventory (state twice) !! k = Some q
     ∧ currentStock <$>
         inventory (state (step a (doStockUpdate env1 t1 update))) !! k
       = Some q
     ∧ inventory_transactions (sqlStorage twice)
       = inventory_transactions (sqlStorage a))
  ∧ inventory_transactions
      (sqlStorage
         (run [doStockUpdate exampleEnv exampleTime
                 {| u_sku := "SKU-1"; u_quantity := 100;
                    u_operation := opSet |};
               doStockUpdate exampleEnv laterTime
                 {| u_sku := "SKU-1"; u_quantity := 100;
                    u_operation := opSet |}]
            (newAgent emptyStore)))
    = [].
Proof.
  split; [|reflexivity].
  intros env1 env2 t1 t2 k q a update once twice. subst once twice.
  repeat split.
  - rewrite !stockUpdate_inventory. simpl. rewrite insert_insert_eq.
    f_equal. unfold InventoryService.updatedItem, InventoryService.getOrCreate.
    simpl. rewrite lookup_insert_eq. simpl.
    destruct (inventory (state a) !! k); reflexivity.
  - rewrite stockUpdate_inventory. simpl. by rewrite lookup_insert_eq.
  - rewrite stockUpdate_inventory. simpl. by rewrite lookup_insert_eq.
  - by rewrite !stockUpdate_transactions.
Qed.

Lemma propagateStockUpdate_trace a :
  ∃ rest, trace (fst (propagateStockUpdate a)) = trace a ++ rest.
Proof.
  unfold propagateStockUpdate. unfold_M. cbv beta iota.
  destruct (String.eqb (currentPath a) "/");
    [exists []; simpl; by rewrite app_nil_r|].
  destruct (filter _ _); simpl; [exists []; by rewrite app_nil_r|].
  by eexists.
Qed.

Lemma broadcastAll_trace ms x :
  ∃ rest, trace (fold_left (λ x m, broadcastTo m x) ms x) = trace x ++ rest.
Proof.
  revert x. induction ms as [|m ms IH]; intros x; simpl.
  - exists []. by rewrite app_nil_r.
  - destruct (IH (broadcastTo m x)) as [rest ->].
    rewrite broadcastTo_trace, <- app_assoc. by eexists.
Qed.

(** The events of a stock update start with the broadcast of the first
    message that the service announces. *)
Lemma stockUpdate_trace env now update a m ms :
  announced env now update a = m :: ms →
  ∃ rest, trace (step a (doStockUpdate env now update))
          = trace a ++ deliveries m (websockets (state a)) ++ rest.
Proof.
  intros Hann. simpl. rewrite processStockUpdate_run. simpl.
  destruct (propagateStockUpdate_trace
    (persisted now
       (fold_left (λ x m, broadcastTo m x) (announced env now update a)
          (serviced env now update a)))) as [rest1 ->].
  rewrite persisted_trace, Hann. simpl.
  destruct (broadcastAll_trace ms (broadcastTo m (serviced env now update a)))
    as [rest2 ->].
  rewrite broadcastTo_trace. simpl.
  exists (rest2 ++ rest1). by rewrite <- !app_assoc.
Qed.

(** When the stock ends at or below the threshold, the first message
    announced is the low-stock alert. *)
Lemma announced_alert env now update a :
  let item := InventoryService.updatedItem now update (inventory (state a)) in
  currentStock item <= lowStockThreshold item →
  ∃ ms, announced env now update a
        = MsgLowStockAlert (u_sku update) (currentStock item)
            (lowStockThreshold item) (currentPath a) :: ms.
Proof.
  intros item Hlow. unfold announced, InventoryService.processStockUpdate.
  fold item. destruct (Z.leb_spec (currentStock item) (lowStockThreshold item));
    [|lia].
  destruct (InventoryService.processLowStockAlert _ _ _ _ _ _). simpl.
  by eexists.
Qed.

(** C10. A stock update of a SKU that the inventory does not hold returns
    normally and leaves under that SKU the item created for it, named
    [Product <sku>], with threshold 10 and the stock that the operation
    makes of 0; a decrement by a quantity of at least 0 leaves the stock
    at 0 and broadcasts the low-stock alert first. *)
Theorem unknown_sku_is_created_and_decrement_alerts :
  ∀ env now update a,
    inventory (state a) !! u_sku update = None →
    let a' := step a (doStockUpdate env now update) in
    snd (processStockUpdate env now update a) = Returned tt
    ∧ inventory (state a') !! u_sku update
      = Some {| sku := u_sku update;
                name := "Product " +:+ u_sku update;
                currentStock :=
                  match u_operation update with
                  | opSet => u_quantity update
                  | opIncrement => 0 + u_quantity update
                  | opDecrement => Z.max 0 (0 - u_quantity update)
                  end;
                lowStockThreshold := 10;
                lastUpdated := iso now |}
    ∧ (u_operation update = opDecrement →
       0 <= u_quantity update →
       currentStock <$> inventory (state a') !! u_sku update = Some 0
       ∧ ∃ rest,
           trace a'
           = trace a
             ++ deliveries
                  (MsgLowStockAlert (u_sku update) 0 10 (currentPath a))
                  (websockets (state a))
             ++ rest).
Proof.
  intros env now update a Hnone a'. subst a'.
  assert (InventoryService.updatedItem now update (inventory (state a))
          = {| sku := u_sku update;
               name := "Product " +:+ u_sku update;
               currentStock :=
                 match u_operation update with
                 | opSet => u_quantity update
                 | opIncrement => 0 + u_quantity update
                 | opDecrement => Z.max 0 (0 - u_quantity update)
                 end;
               lowStockThreshold := 10;
               lastUpdated := iso now |}) as Hitem.
  { unfold InventoryService.updatedItem, InventoryService.getOrCreate.
    rewrite Hnone. simpl. by destruct (u_operation update). }
  split; [by rewrite processStockUpdate_run|].
  split; [by rewrite stockUpdate_inventory, lookup_insert_eq, Hitem|].
  intros Hop Hq.
  split.
  - rewrite stockUpdate_inventory, lookup_insert_eq, Hitem, Hop. simpl.
    f_equal. lia.
  - destruct (announced_alert env now update a) as [ms Hann].
    { rewrite Hitem, Hop. simpl. lia. }
    rewrite Hitem, Hop in Hann. simpl in Hann.
    replace (Z.max 0 (0 - u_quantity update)) with 0 in Hann by lia.
    by apply (stockUpdate_trace env now update a _ ms).
Qed.

Lemma unknown_sku_is_created_and_decrement_alerts_witness :
  let update :=
    {| u_sku := "SKU-9"; u_quantity := 3; u_operation := opDecrement |} in
  let a' := step (newAgent emptyStore)
              (doStockUpdate exampleEnv exampleTime update) in
  inventory (state a') !! "SKU-9"
  = Some {| sku := "SKU-9"; name := "Product SKU-9"; currentStock := 0;
            lowStockThreshold := 10; lastUpdated := iso exampleTime |}
  ∧ currentStock <$> inventory (state a') !! "SKU-9" = Some 0.
Proof.
  intros update a'.
  destruct (unknown_sku_is_created_and_decrement_alerts
              exampleEnv exampleTime update (newAgent emptyStore))
    as (_ & Hitem & Hdec); [reflexivity|].
  split; [exact Hitem|].
  apply Hdec; [reflexivity | simpl; lia].
Defined.

(* --------------------------------------------------------------------- *)
(** ** Creating and deleting children *)
(* --------------------------------------------------------------------- *)

(** C4. In every reachable state, creating a child whose trimmed name is
    already among the children fails inside [createAgent] with the
    [AGENT_EXISTS] error of status 409, which goes out as an error frame to
    the websockets; the agent is as before: children, counter and the rest
    of its core are unchanged. *)
Theorem create_existing_child_fails_and_changes_nothing :
  ∀ ops now name,
    let a := run ops (newAgent emptyStore) in
    JS.trim name ∈ agents (state a) →
    let error :=
      {| code := "AGENT_EXISTS";
         message :=
           "Agent " +:+ quote +:+ JS.trim name +:+ quote +:+ " already exists";
         statusCode := 409 |} in
    let a' := step a (doCreateAgent now name) in
    createAgentBody now name a = (a, Threw (ThrownInventory error))
    ∧ agents (state a') = agents (state a)
    ∧ counter (state a') = counter (state a)
    ∧ core a' = core a
    ∧ trace a'
      = trace a ++ deliveries (MsgError (message error)) (websockets (state a)).
Proof.
  intros ops now name a Hin error a'. subst a'.
  assert (AgentNameSchema (JS.trim name) = true) as Hvalid.
  { pose proof (Consistent_run ops _ Consistent_newAgent) as H.
    destruct (consistent_children _ H) as [Hmem _]. by apply Hmem. }
  destruct (createAgent_exists now name a Hvalid Hin) as [Hbody Hrun].
  simpl. rewrite Hrun. simpl.
  pose proof (broadcastTo_core
    (MsgError (message (AGENT_EXISTS (JS.trim name)))) a) as Hcore.
  split; [exact Hbody|].
  pose proof (core_fields _ _ Hcore) as (_&Hc&Ha&_).
  split; [exact Ha|]. split; [exact Hc|]. split; [exact Hcore|].
  apply broadcastTo_trace.
Qed.

Lemma create_existing_child_fails_and_changes_nothing_witness :
  let a' := step rootAgent (doCreateAgent laterTime " warehouse-ny ") in
  agents (state a') = agents (state rootAgent)
  ∧ counter (state a') = counter (state rootAgent)
  ∧ trace a'
    = trace rootAgent
      ++ [Sent 1 (MsgError ("Agent " +:+ quote +:+ "warehouse-ny" +:+ quote
                            +:+ " already exists"))].
Proof.
  intros a'.
  destruct (create_existing_child_fails_and_changes_nothing
              [doRestart exampleTime "/"; doConnect socket1;
               doCreateAgent exampleTime "warehouse-ny"]
              laterTime " warehouse-ny ")
    as (_ & Hagents & Hcounter & _ & Htrace); [vm_compute; reflexivity|].
  split; [exact Hagents|]. split; [exact Hcounter|]. exact Htrace.
Defined.

(** C5. When the cascading [delete-subtree] call to an existing child is
    rejected, [deleteAgent] still returns normally, the child is removed
    from the children, the state without it is persisted, and what goes out
    to the websockets is the system notice of the partial cascade and the
    new state, with no error frame. *)
Theorem failed_cascade_still_deletes_child :
  ∀ a now reason name,
    name ∈ agents (state a) →
    let a' := step a (doDeleteAgent now (Rejected reason) name) in
    let notice :=
      MsgMessage "system"
        ("Deleted " +:+ name +:+ " (cascade may have failed)") in
    snd (deleteAgent now (Rejected reason) name a) = Returned tt
    ∧ agents (state a') = agents (state a) ∖ {[name]}
    ∧ fleet_state (sqlStorage a') !! currentPath a
      = Some {| fs_counter := counter (state a);
                fs_agents := elements (agents (state a) ∖ {[name]});
                fs_agent_type := agentType (state a);
                fs_created_at := unixSeconds now;
                fs_updated_at := unixSeconds now |}
    ∧ trace a'
      = trace a ++ [cascadeCall a name]
        ++ deliveries notice (websockets (state a))
        ++ (if initializationComplete a
            then deliveries
                   (MsgState (counter (state a))
                      (elements (agents (state a) ∖ {[name]})))
                   (survivors (websockets (state a)))
            else [])
    ∧ ∀ ws text, Sent ws (MsgError text) ∉ drop (length (trace a)) (trace a').
Proof.
  intros a now reason name Hin a' notice. subst a'.
  simpl. rewrite (deleteAgent_rejected now reason name a Hin). simpl.
  set (a1 := persisted now
               (setState (λ s, setAgents (agents s ∖ {[name]}) s)
                  (addEvent (cascadeCall a name) a))).
  fold notice.
  assert (trace (stateBroadcast (broadcastTo notice a1))
          = trace a ++ [cascadeCall a name]
            ++ deliveries notice (websockets (state a))
            ++ (if initializationComplete a
                then deliveries
                       (MsgState (counter (state a))
                          (elements (agents (state a) ∖ {[name]})))
                       (survivors (websockets (state a)))
                else [])) as Htrace.
  { unfold stateBroadcast.
    pose proof (core_fields _ _ (broadcastTo_core notice a1))
      as (_&Hc&Ha&_&_&_&_&_&Hi&_).
    rewrite Hi, Hc, Ha. simpl.
    destruct (initializationComplete a).
    - rewrite !broadcastTo_trace, broadcastTo_websockets. simpl.
      by rewrite <- !app_assoc.
    - rewrite broadcastTo_trace. simpl. by rewrite <- !app_assoc, app_nil_r. }
  split; [reflexivity|].
  pose proof (core_fields _ _ (stateBroadcast_core (broadcastTo notice a1)))
    as (_&_&Ha&_&_&_&_&_&_&_&Hs).
  pose proof (core_fields _ _ (broadcastTo_core notice a1))
    as (_&_&Ha'&_&_&_&_&_&_&_&Hs').
  split; [by rewrite Ha, Ha'|].
  split; [rewrite Hs, Hs'; simpl; by rewrite lookup_insert_eq|].
  split; [exact Htrace|].
  intros ws text. rewrite Htrace, drop_app_length.
  unfold deliveries, cascadeCall.
  intros [H|[H|H]%elem_of_app]%elem_of_cons; [discriminate| |].
  - apply list_elem_of_fmap in H as (w & H & _). discriminate.
  - destruct (initializationComplete a); [|by apply not_elem_of_nil in H].
    apply list_elem_of_fmap in H as (w & H & _). discriminate.
Qed.

Lemma failed_cascade_still_deletes_child_witness :
  let a' := step rootAgent
              (doDeleteAgent laterTime (Rejected "network") "warehouse-ny") in
  agents (state a') = agents (state rootAgent) ∖ {["warehouse-ny"]}
  ∧ trace a'
    = trace rootAgent
      ++ [Fetched "/warehouse-ny" "POST" "http://internal/delete-subtree";
          Sent 1 (MsgMessage "system"
                    "Deleted warehouse-ny (cascade may have failed)");
          Sent 1 (MsgState 0 [])].
Proof.
  intros a'.
  destruct (failed_cascade_still_deletes_child
              rootAgent laterTime "network" "warehouse-ny")
    as (_ & Hagents & _ & Htrace & _); [vm_compute; reflexivity|].
  split; [exact Hagents|].
  etransitivity; [exact Htrace|]. vm_compute. reflexivity.
Defined.

(** When the child answers, whatever the status, the child is removed and
    the state persisted all the same; the websockets get [agentDeleted] and
    the new state. *)
Lemma answered_cascade_deletes_child a now status name :
  name ∈ agents (state a) →
  let a' := step a (doDeleteAgent now (Responded status) name) in
  agents (state a') = agents (state a) ∖ {[name]}
  ∧ fleet_state (sqlStorage a') !! currentPath a
    = Some {| fs_counter := counter (state a);
              fs_agents := elements (agents (state a) ∖ {[name]});
              fs_agent_type := agentType (state a);
              fs_created_at := unixSeconds now;
              fs_updated_at := unixSeconds now |}
  ∧ ∃ rest,
      trace a'
      = trace a ++ [cascadeCall a name]
        ++ deliveries (MsgAgentDeleted name) (websockets (state a)) ++ rest.
Proof.
  intros Hin a'. subst a'. simpl.
  rewrite (deleteAgent_responded now status name a Hin). simpl.
  set (a1 := setCache (λ c, c ∖ {["state:" +:+ currentPath a]})
               (persisted now
                  (setState (λ s, setAgents (agents s ∖ {[name]}) s)
                     (addEvent (cascadeCall a name) a)))).
  pose proof (core_fields _ _
    (stateBroadcast_core (broadcastTo (MsgAgentDeleted name) a1)))
    as (_&_&Ha&_&_&_&_&_&_&_&Hs).
  pose proof (core_fields _ _ (broadcastTo_core (MsgAgentDeleted name) a1))
    as (_&_&Ha'&_&_&_&_&_&_&_&Hs').
  split; [by rewrite Ha, Ha'|].
  split; [rewrite Hs, Hs'; simpl; by rewrite lookup_insert_eq|].
  unfold stateBroadcast.
  destruct (initializationComplete _).
  - rewrite !broadcastTo_trace. unfold a1 at 2. simpl.
    rewrite <- !app_assoc. simpl. by eexists.
  - rewrite broadcastTo_trace. unfold a1. simpl. exists [].
    by rewrite <- !app_assoc, app_nil_r.
Qed.

(* --------------------------------------------------------------------- *)
(** ** Persistence *)
(* --------------------------------------------------------------------- *)

(** What a round trip makes of a consistent agent. *)
Lemma roundTrip_state saved loaded a :
  Consistent a →
  counter (state (roundTrip saved loaded a)) = counter (state a)
  ∧ agents (state (roundTrip saved loaded a)) = agents (state a)
  ∧ agentType (state (roundTrip saved loaded a)) = agentType (state a)
  ∧ inventory (state (roundTrip saved loaded a))
    = refreshed loaded <$> inventory (state a).
Proof.
  intros [Htype _ Hkeys Hstale _]. unfold roundTrip, freshAgent.
  rewrite loaded_counter, loaded_agents, loaded_agentType, loaded_inventory.
  simpl. rewrite lookup_insert_eq. simpl.
  split; [done|]. split; [apply list_to_set_elements_L|].
  split; [unfold JS.or_else; by destruct (agentType (state a))|].
  rewrite right_id_L by apply _. apply map_eq. intros k.
  rewrite loadedInventory_lookup, lookup_fmap.
  rewrite (saveInventory_lookup _ _ _ _ Hkeys).
  destruct (inventory (state a) !! k) as [item|] eqn:Hitem; simpl.
  - rewrite decide_True by done. unfold itemOfRow, refreshed. simpl.
    by rewrite (Hkeys _ _ Hitem).
  - destruct (inventory_items (sqlStorage a) !! k) as [row|] eqn:Hrow; [|done].
    case_decide as Hloc; [|done].
    destruct (Hstale k row Hrow Hloc) as [item Hsome]. congruence.
Qed.

(** C2, as the code has it. In every reachable state, saving and then
    loading into a fresh instance for the same path gives back the counter,
    the children and the agent type, and every inventory item with its
    [sku], [name], [currentStock] and [lowStockThreshold]; [lastUpdated] is
    not persisted and is the time of loading. *)
Theorem round_trip_preserves_all_but_lastUpdated :
  ∀ ops saved loaded,
    let a := run ops (newAgent emptyStore) in
    let b := roundTrip saved loaded a in
    counter (state b) = counter (state a)
    ∧ agents (state b) = agents (state a)
    ∧ agentType (state b) = agentType (state a)
    ∧ inventory (state b) = refreshed loaded <$> inventory (state a).
Proof.
  intros ops saved loaded a b. apply roundTrip_state.
  apply Consistent_run, Consistent_newAgent.
Qed.

(** C2, as stated, fails: an item updated at one time and loaded back at
    another comes back with another [lastUpdated]. *)
Lemma round_trip_loses_lastUpdated :
  ¬ statePreserved (state stockedAgent)
      (state (roundTrip exampleTime laterTime stockedAgent)).
Proof.
  intros (_ & _ & _ & Hinv).
  apply (f_equal (λ m : gmap string InventoryItem, lastUpdated <$> m !! "SKU-1"))
    in Hinv.
  vm_compute in Hinv. discriminate.
Qed.

(* --------------------------------------------------------------------- *)
(** ** Deleting a subtree *)
(* --------------------------------------------------------------------- *)

(** What [handleDeleteSubtree] does to the agent it runs on. *)
Lemma deleteSubtree_clears a now children :
  let a' := step a (doDeleteSubtree now children) in
  snd (handleDeleteSubtree now children a)
  = Returned {| status := 200; body := "Subtree deleted" |}
  ∧ agents (state a') = ∅
  ∧ counter (state a') = 0
  ∧ messages (state a') = []
  ∧ websockets (state a') = []
  ∧ inventory (state a') = inventory (state a)
  ∧ trace a'
    = trace a ++ map (cascadeCall a) (elements (agents (state a)))
      ++ map (λ ws, Closed (ws_id ws)) (websockets (state a)).
Proof.
  intros a'. subst a'. unfold step. rewrite handleDeleteSubtree_run.
  cbn [fst snd]. cbv zeta.
  set (a1 := fold_left (λ x n, addEvent (cascadeCall a n) x)
               (elements (agents (state a))) a).
  set (a3 := persisted now
               (setState (setMessages [])
                  (setState (setCounter 0) (setState (setAgents ∅) a1)))).
  set (a4 := fold_left (λ x ws, addEvent (Closed (ws_id ws)) x)
               (websockets (state a3)) a3).
  assert (websockets (state a3) = websockets (state a)) as Hws.
  { unfold a3. rewrite persisted_state. simpl. apply addEvents_websockets. }
  assert (trace a3 = trace a ++ map (cascadeCall a) (elements (agents (state a))))
    as Htr3.
  { unfold a3. rewrite persisted_trace. simpl. apply addEvents_trace. }
  pose proof (core_fields _ _
    (addEvents_core (λ ws, Closed (ws_id ws)) (websockets (state a3)) a3))
    as (_&Hc&Ha&Hm&Hi&_).
  pose proof (core_fields _ _
    (addEvents_core (cascadeCall a) (elements (agents (state a))) a))
    as (_&_&_&_&Hi1&_).
  fold a4 in Hc, Ha, Hm, Hi. fold a1 in Hi1.
  split; [done|]. simpl.
  split; [by rewrite Ha|]. split; [by rewrite Hc|]. split; [by rewrite Hm|].
  split; [done|].
  split; [rewrite Hi; unfold a3; rewrite persisted_state; simpl; exact Hi1|].
  unfold a4. rewrite addEvents_trace, Htr3, Hws. by rewrite <- app_assoc.
Qed.

Lemma persisted_core now a b :
  core a = core b → core (persisted now a) = core (persisted now b).
Proof.
  intros H. apply core_fields in H as (H1&H2&H3&H4&H5&H6&H7&H8&H9&H10&H11).
  unfold core, persisted, saveState. unfold_M. simpl.
  by rewrite H1, H2, H3, H4, H5, H6, H7, H8, H9, H10, H11.
Qed.

Lemma cleared_core a b :
  core a = core b →
  core (setState (setMessages [])
          (setState (setCounter 0) (setState (setAgents ∅) a)))
  = core (setState (setMessages [])
            (setState (setCounter 0) (setState (setAgents ∅) b))).
Proof.
  intros H. apply core_fields in H as (H1&H2&H3&H4&H5&H6&H7&H8&H9&H10&H11).
  unfold core. simpl. by rewrite H1, H5, H6, H7, H8, H9, H10, H11.
Qed.

(** Apart from the websockets and the events, [handleDeleteSubtree] is
    the clearing of children, counter and messages followed by
    [saveState]. *)
Lemma deleteSubtree_core a now children :
  core (step a (doDeleteSubtree now children))
  = core (persisted now
            (setState (setMessages [])
               (setState (setCounter 0) (setState (setAgents ∅) a)))).
Proof.
  unfold step. rewrite handleDeleteSubtree_run. cbn [fst snd]. cbv zeta.
  match goal with |- core (setState (setWebsockets []) ?x) = _ =>
    transitivity (core x); [reflexivity|] end.
  rewrite addEvents_core. apply persisted_core, cleared_core, addEvents_core.
Qed.

Lemma initialize_sqlStorage now store :
  sqlStorage (initialize now store) = store.
Proof.
  unfold initialize. rewrite loadChatStatistics_run. cbn [fst].
  change (sqlStorage (setInitializationComplete true ?x)) with (sqlStorage x).
  by rewrite loaded_sqlStorage.
Qed.

Lemma initialize_currentPath now store :
  currentPath (initialize now store) = "/".
Proof.
  unfold initialize. rewrite loadChatStatistics_run. cbn [fst].
  change (currentPath (setInitializationComplete true ?x))
    with (currentPath x).
  by rewrite loaded_currentPath.
Qed.


Lemma initialize_cache now store : cache (initialize now store) = ∅.
Proof.
  unfold initialize. rewrite loadChatStatistics_run. cbn [fst].
  change (cache (setInitializationComplete true ?x)) with (cache x).
  by rewrite loaded_cache.
Qed.

(** The first [fetch] of a restarted agent loads the state of its path:
    the cache of a new instance is empty. *)
Lemma resume_loads now path store :
  path ≠ "" →
  resume now path store
  = setCache (λ c, c ∪ {["loaded:" +:+ path]})
      (setStateLoaded true
         (fst (loadStateFromStorage now
                 (setCurrentPath path (initialize now store))))).
Proof.
  intros Hpath. unfold resume. rewrite fetchPath_run. cbn [fst].
  destruct (fetched_cases now path (initialize now store))
    as [->|(_ & Hkey & _)].
  - by rewrite servedAt_header.
  - rewrite initialize_cache in Hkey. by apply not_elem_of_empty in Hkey.
Qed.

(** After [handleDeleteSubtree], an instance resumed for the same path has
    no children and a counter of 0, and holds every inventory item that
    the deleted agent held. *)
Lemma deleteSubtree_then_resume a now children later :
  currentPath a ≠ "" →
  Consistent a →
  let a' := step a (doDeleteSubtree now children) in
  let r := resume later (currentPath a) (sqlStorage a') in
  agents (state r) = ∅
  ∧ counter (state r) = 0
  ∧ ∀ k item, inventory (state a) !! k = Some item →
              inventory (state r) !! k = Some (refreshed later item).
Proof.
  intros Hpath [_ _ Hkeys _ _ _] a' r. subst a' r.
  pose proof (core_fields _ _ (deleteSubtree_core a now children))
    as (_&_&_&_&_&_&_&_&_&_&Hsql).
  rewrite resume_loads by done.
  change (state (setCache ?f (setStateLoaded ?b ?x))) with (state x).
  set (x := setCurrentPath (currentPath a)
              (initialize later
                 (sqlStorage (step a (doDeleteSubtree now children))))).
  assert (sqlStorage x
          = sqlStorage (step a (doDeleteSubtree now children))) as Hx
    by apply initialize_sqlStorage.
  assert (currentPath x = currentPath a) as Hp by reflexivity.
  rewrite loaded_agents, loaded_counter, loaded_inventory, Hp, Hx, Hsql.
  rewrite persisted_fleet_state, persisted_inventory_items.
  cbn [currentPath setState state setMessages setCounter setAgents counter
       agents inventory sqlStorage].
  rewrite lookup_insert_eq. cbn [fs_agents fs_counter].
  split; [by rewrite elements_empty|]. split; [done|].
  intros k item Hitem. apply lookup_union_Some_l.
  rewrite loadedInventory_lookup, (saveInventory_lookup _ _ _ _ Hkeys), Hitem.
  rewrite decide_True by done. unfold itemOfRow, refreshed. simpl.
  by rewrite (Hkeys _ _ Hitem).
Qed.

(** C6, at an agent that holds inventory: after [handleDeleteSubtree] the
    children are gone, the counter is 0 and the websockets are closed, and
    a new instance resumed for the path has no children and counter 0,
    but it does hold the inventory item again. *)
Theorem deleteSubtree_leaves_inventory_behind :
  let a' := step warehouseAgent
              (doDeleteSubtree laterTime (λ _, Responded 200)) in
  let r := resume laterTime "/a" (sqlStorage a') in
  agents (state warehouseAgent) = {["b"]}
  ∧ counter (state warehouseAgent) = 1
  ∧ agents (state a') = ∅
  ∧ counter (state a') = 0
  ∧ websockets (state a') = []
  ∧ agents (state r) = ∅
  ∧ counter (state r) = 0
  ∧ inventory (state r) !! "SKU-1"
    = Some {| sku := "SKU-1"; name := "Product SKU-1"; currentStock := 100;
              lowStockThreshold := 10; lastUpdated := iso laterTime |}.
Proof. vm_compute. repeat split; reflexivity. Qed.

(* --------------------------------------------------------------------- *)
(** ** Chat statistics *)
(* --------------------------------------------------------------------- *)

Lemma percentage_bounds s e :
  0 <= s <= e → 0 < e →
  (0 <= inject_Z s / inject_Z e * 100 ∧ inject_Z s / inject_Z e * 100 <= 100)%Q.
Proof.
  intros Hse He. destruct e as [|p|p]; try lia.
  unfold Qle, Qdiv, Qmult, Qinv, inject_Z. simpl. split; nia.
Qed.

Lemma statsConsistent_bounds c :
  statsConsistent c → (0 <= successRate c ∧ successRate c <= 100)%Q.
Proof.
  intros [Hle Hrate]. rewrite Hrate. unfold computeSuccessRate.
  destruct (Z.ltb_spec 0 (actionsExecuted c)).
  - by apply percentage_bounds.
  - split; [apply Qle_refl | discriminate].
Qed.

Lemma afterCalls_statsUpdated now calls a :
  afterCalls now calls a = fold_left (λ x type, statsUpdated now type x) calls a.
Proof.
  unfold afterCalls. revert a.
  induction calls as [|type calls IH]; intros a; simpl; [done|].
  by rewrite updateChatStats_run, IH.
Qed.

(** A chat message is the calls of [chatCalls], one after the other. *)
Lemma chatMessage_calls now actions a :
  step a (doChatMessage now actions) = afterCalls now (chatCalls actions) a.
Proof.
  unfold step. rewrite processChatMessage_run, afterCalls_statsUpdated.
  cbn [fst]. unfold chatCalls. cbn [fold_left].
  generalize (statsUpdated now statMessage a) as x.
  induction actions as [|ok actions IH]; intros x; simpl; [done|].
  rewrite IH. by destruct ok.
Qed.

Lemma statsUpdated_consistent now type a :
  0 <= successfulActions (countStat type (chatStats a))
    <= actionsExecuted (countStat type (chatStats a)) →
  statsConsistent (chatStats (statsUpdated now type a)).
Proof.
  intros H. rewrite statsUpdated_chatStats.
  by apply withSuccessRate_consistent.
Qed.

(** No call that a chat message makes leaves more successes than
    actions: a success is counted right after its action. *)
Lemma chatCalls_consistent now actions calls a :
  calls `prefix_of` chatCalls actions →
  statsConsistent (chatStats a) →
  statsConsistent (chatStats (afterCalls now calls a)).
Proof.
  rewrite afterCalls_statsUpdated.
  intros [rest Hrest] Ha. unfold chatCalls in Hrest.
  destruct calls as [|first calls]; [done|].
  injection Hrest as <- Hrest. cbn [fold_left].
  assert (statsConsistent (chatStats (statsUpdated now statMessage a))) as Hx.
  { apply statsUpdated_consistent. destruct Ha as [Hle _]. simpl. lia. }
  revert Hx Hrest. generalize (statsUpdated now statMessage a) as x.
  revert calls.
  induction actions as [|ok actions IH]; intros calls x Hx Hrest.
  - simpl in Hrest. symmetry in Hrest.
    by apply app_eq_nil in Hrest as [-> _].
  - cbn [map concat app] in Hrest.
    destruct calls as [|c1 calls]; [done|].
    injection Hrest as <- Hrest. cbn [fold_left].
    assert (statsConsistent (chatStats (statsUpdated now statAction x)))
      as H1.
    { apply statsUpdated_consistent. destruct Hx as [Hle _]. simpl. lia. }
    destruct calls as [|c2 calls]; [done|].
    injection Hrest as <- Hrest. cbn [fold_left].
    apply IH; [|done].
    apply statsUpdated_consistent. rewrite statsUpdated_chatStats.
    destruct Hx as [Hle _]. destruct ok; simpl; lia.
Qed.

(** C3. Every [updateChatStats] leaves in memory the rate
    [successfulActions / actionsExecuted * 100] when [actionsExecuted] is
    above 0 and the rate 0 when it is 0.  A chat message is a sequence of
    such calls, and in every reachable state, and after each call that a
    chat message makes from it, the rate lies between 0 and 100. *)
Theorem success_rate_is_computed_and_bounded :
  (∀ a now type,
     let a' := fst (updateChatStats now type a) in
     let c := chatStats a' in
     (0 < actionsExecuted c →
      successRate c
      = (inject_Z (successfulActions c) / inject_Z (actionsExecuted c) * 100)%Q)
     ∧ (actionsExecuted c = 0 → successRate c = 0%Q))
  ∧ (∀ a now actions,
       step a (doChatMessage now actions)
       = afterCalls now (chatCalls actions) a)
  ∧ (∀ ops now actions calls,
       calls `prefix_of` chatCalls actions →
       let a := afterCalls now calls (run ops (newAgent emptyStore)) in
       (0 <= successRate (chatStats a) ∧ successRate (chatStats a) <= 100)%Q).
Proof.
  split; [|split].
  - intros a now type a' c. subst a' c. rewrite updateChatStats_run.
    cbn [fst]. rewrite statsUpdated_chatStats.
    unfold withSuccessRate. cbn [actionsExecuted successfulActions successRate].
    unfold computeSuccessRate.
    split.
    + intros H.
      by destruct (Z.ltb_spec 0
                     (actionsExecuted (countStat type (chatStats a))));
        [|lia].
    + intros H. by rewrite H.
  - intros a now actions. apply chatMessage_calls.
  - intros ops now actions calls Hcalls a. apply statsConsistent_bounds.
    apply (chatCalls_consistent now actions); [done|].
    apply (consistent_chat _ (Consistent_run ops _ Consistent_newAgent)).
Qed.

(** The bound is kept by the order of the calls in [executeChatActions],
    the only place that counts successes: [updateChatStats] by itself would
    count a success without an action. *)
Example success_counted_without_action :
  let a := fst (updateChatStats laterTime statSuccess
             (fst (updateChatStats laterTime statSuccess busyAgent))) in
  (successRate (chatStats a) == 200)%Q.
Proof. reflexivity. Qed.

(** One chat message whose single action succeeds: one message, one
    action, a rate of 100. *)
Example one_successful_action :
  let a := run [doChatMessage exampleTime [true]] (newAgent emptyStore) in
  messagesToday (chatStats a) = 1
  ∧ actionsExecuted (chatStats a) = 1
  ∧ (successRate (chatStats a) == 100)%Q.
Proof. repeat split; reflexivity. Qed.

Lemma success_rate_is_computed_and_bounded_witness :
  successRate (chatStats (fst (updateChatStats laterTime statSuccess busyAgent)))
  = (inject_Z 1 / inject_Z 1 * 100)%Q
  ∧ (0 <= successRate
            (chatStats
               (afterCalls laterTime [statMessage; statAction]
                  (run [doChatMessage exampleTime [true; false]]
                     (newAgent emptyStore))))
     ∧ successRate
         (chatStats
            (afterCalls laterTime [statMessage; statAction]
               (run [doChatMessage exampleTime [true; false]]
                  (newAgent emptyStore))))
       <= 100)%Q.
Proof.
  split.
  - refine (proj1 (proj1 success_rate_is_computed_and_bounded
                     busyAgent laterTime statSuccess) _).
    vm_compute. reflexivity.
  - refine (proj2 (proj2 success_rate_is_computed_and_bounded)
              [doChatMessage exampleTime [true; false]] laterTime [true]
              [statMessage; statAction] _).
    by exists [statSuccess].
Defined.

(* --------------------------------------------------------------------- *)
(** ** Names of children *)
(* --------------------------------------------------------------------- *)

(** What [AgentNameSchema] accepts: 1 to 32 characters, each a letter, a
    digit, a whitespace character, an underscore or a dash. *)
Lemma AgentNameSchema_accepts s :
  AgentNameSchema s = true
  ↔ (1 <= JS.length s <= 32
     ∧ ∀ c, c ∈ list_ascii_of_string s → nameChar c = true).
Proof.
  unfold AgentNameSchema, nameRegex, JS.length.
  rewrite !andb_true_iff, !Z.leb_le, forallb_forall.
  setoid_rewrite <- list_elem_of_In.
  split.
  - intros [[H1 H2] [_ H3]]. done.
  - intros [[H1 H2] H3]. repeat split; try done.
    destruct s; [simpl in H1; lia | done].
Qed.

(** Every segment of the specification's pattern is accepted. *)
Lemma specSegment_accepted s :
  specSegment s = true → AgentNameSchema s = true.
Proof.
  unfold specSegment. rewrite !andb_true_iff, !Z.leb_le, forallb_forall.
  setoid_rewrite <- list_elem_of_In.
  intros [[H1 H2] H3]. apply AgentNameSchema_accepts. split; [done|].
  intros c Hc. specialize (H3 c Hc). unfold specChar, nameChar in *.
  repeat (apply orb_prop in H3 as [H3|H3]); rewrite ?H3, ?orb_true_r; try done.
  apply Ascii.eqb_eq in H3 as ->. reflexivity.
Qed.

(** The two agree on the names whose only blanks are spaces. *)
Lemma AgentNameSchema_specSegment s :
  (∀ c, c ∈ list_ascii_of_string s → JS.isWhitespace c = true → c = " "%char) →
  AgentNameSchema s = specSegment s.
Proof.
  intros Hblank. destruct (specSegment s) eqn:Hs.
  - by apply specSegment_accepted.
  - destruct (AgentNameSchema s) eqn:Ha; [|done].
    apply AgentNameSchema_accepts in Ha as [Hlen Hchars].
    exfalso. revert Hs. apply not_false_iff_true.
    unfold specSegment. rewrite !andb_true_iff, !Z.leb_le, forallb_forall.
    setoid_rewrite <- list_elem_of_In. split; [done|].
    intros c Hc. specialize (Hchars c Hc). specialize (Hblank c Hc).
    unfold nameChar, specChar in *.
    destruct (JS.isWhitespace c) eqn:Hw.
    + rewrite (Hblank eq_refl). reflexivity.
    + rewrite orb_false_r in Hchars.
      repeat (apply orb_prop in Hchars as [Hchars|Hchars]);
        rewrite ?Hchars, ?orb_true_r; done.
Qed.

(** A name longer than 32 is rejected. *)
Lemma AgentNameSchema_too_long s :
  32 < JS.length s → AgentNameSchema s = false.
Proof.
  intros H. apply not_true_is_false. rewrite AgentNameSchema_accepts. lia.
Qed.

(** A name that holds a dot or a slash is rejected. *)
Lemma AgentNameSchema_dot_slash s :
  "."%char ∈ list_ascii_of_string s ∨ "/"%char ∈ list_ascii_of_string s →
  AgentNameSchema s = false.
Proof.
  intros H. apply not_true_is_false. rewrite AgentNameSchema_accepts.
  intros [_ Hchars]. destruct H as [H|H]; by apply Hchars in H.
Qed.

(** A name of exactly 32 letters is accepted, one of 33 is not. *)
Lemma AgentNameSchema_boundary :
  AgentNameSchema "abcdefghijklmnopqrstuvwxyzABCDEF" = true
  ∧ AgentNameSchema "abcdefghijklmnopqrstuvwxyzABCDEFG" = false.
Proof. split; reflexivity. Qed.

(** A rejected name makes [createAgent] fail with [VALIDATION_ERROR] and
    send the error frame; nothing else changes. *)
Lemma createAgent_rejects now name a :
  AgentNameSchema (JS.trim name) = false →
  createAgentBody now name a
  = (a, Threw (ThrownInventory
                 {| code := "VALIDATION_ERROR"; message := "Invalid input";
                    statusCode := 400 |}))
  ∧ core (step a (doCreateAgent now name)) = core a
  ∧ trace (step a (doCreateAgent now name))
    = trace a ++ deliveries (MsgError "Invalid input") (websockets (state a)).
Proof.
  intros Hv. split.
  - unfold createAgentBody, validateInput. rewrite Hv. reflexivity.
  - simpl. rewrite (createAgent_invalid now name a Hv). simpl.
    split; [apply broadcastTo_core | apply broadcastTo_trace].
Qed.

(** C7, at a name with a TAB in it: the specification's pattern does not
    match it, but [AgentNameSchema] accepts it and [createAgent] adds it to
    the children. *)
Theorem tab_in_name_is_accepted :
  JS.trim tabbedName = tabbedName
  ∧ specSegment tabbedName = false
  ∧ AgentNameSchema tabbedName = true
  ∧ agents (state (step (newAgent emptyStore)
                     (doCreateAgent exampleTime tabbedName)))
    = {[tabbedName]}.
Proof. vm_compute. repeat split; reflexivity. Qed.

(* --------------------------------------------------------------------- *)
(** ** Routing *)
(* --------------------------------------------------------------------- *)

Lemma split_nonempty sep s : JS.split sep s ≠ [].
Proof.
  destruct s as [|c s]; simpl; [done|].
  destruct (Ascii.eqb c sep); [done|]. by destruct (JS.split sep s).
Qed.

(** Splitting a string that ends in the separator gives one more, empty,
    piece. *)
Lemma split_trailing sep s :
  JS.split sep (s +:+ String sep EmptyString) = JS.split sep s ++ [EmptyString].
Proof.
  induction s as [|c s IH]; simpl.
  - by rewrite Ascii.eqb_refl.
  - rewrite IH. destruct (Ascii.eqb c sep); [done|].
    pose proof (split_nonempty sep s) as Hne.
    by destruct (JS.split sep s).
Qed.

(** The parts of a path do not see a trailing slash. *)
Lemma pathParts_trailing p :
  Router.pathParts (p +:+ "/") = Router.pathParts p.
Proof.
  unfold Router.pathParts.
  rewrite (split_trailing "/" p), filter_app. simpl.
  by rewrite app_nil_r.
Qed.

Lemma prefix_empty q : String.prefix q EmptyString = String.eqb q EmptyString.
Proof. by destruct q. Qed.

(** A prefix of a string extended by one character is a prefix of the
    string, or the extended string itself. *)
Lemma prefix_trailing q p c :
  String.prefix q (p +:+ String c EmptyString)
  = String.prefix q p || String.eqb q (p +:+ String c EmptyString).
Proof.
  revert p. induction q as [|a q IH]; intros p; [by destruct p|].
  destruct p as [|b p]; simpl.
  - destruct (ascii_dec a c) as [->|Hne].
    + rewrite Ascii.eqb_refl. by destruct q.
    + apply Ascii.eqb_neq in Hne. by rewrite Hne.
  - rewrite IH. destruct (ascii_dec a b) as [->|Hne].
    + by rewrite Ascii.eqb_refl.
    + apply Ascii.eqb_neq in Hne. by rewrite Hne.
Qed.

Lemma startsWith_tenant_trailing p :
  p ≠ "/tenant" →
  JS.startsWith "/tenant/" (p +:+ "/") = JS.startsWith "/tenant/" p.
Proof.
  intros Hne. unfold JS.startsWith. rewrite prefix_trailing.
  destruct (String.eqb_spec "/tenant/" (p +:+ "/")) as [E|E];
    [|by rewrite orb_false_r].
  exfalso. apply Hne.
  change "/tenant/" with ("/tenant" +:+ "/") in E.
  clear Hne. revert E. generalize "/tenant". intros q. revert p.
  induction q as [|a q IH]; intros [|b p]; simpl; try done.
  - intros [= _ E]. by destruct p.
  - intros [= _ E]. by destruct q.
  - intros [= -> E]. f_equal. by apply IH.
Qed.

(** Where the tenant is read from the path, and the path names one, a
    trailing slash does not change the owner key. *)
Lemma trailing_slash_same_owner_by_path r :
  (3 <=? length (JS.split "." (Router.host r)))%nat
    && negb (String.eqb (hd "" (JS.split "." (Router.host r))) "www") = false →
  Router.path r ≠ "/tenant" →
  ((if JS.startsWith "/tenant/" (Router.path r) then 2 else 1)
   <= length (Router.pathParts (Router.path r)))%nat →
  Router.ownerKey (Router.allHandler (withTrailingSlash r))
  = Router.ownerKey (Router.allHandler r).
Proof.
  intros Hhost Hne Hparts.
  unfold Router.allHandler, Router.deriveTenant, withTrailingSlash.
  cbn [Router.host Router.path Router.method Router.upgradeWebsocket].
  rewrite Hhost, (startsWith_tenant_trailing _ Hne), pathParts_trailing.
  destruct (JS.startsWith "/tenant/" (Router.path r)).
  - apply Nat.leb_le in Hparts. rewrite Hparts.
    destruct (Router.upgradeWebsocket r); reflexivity.
  - apply Nat.leb_le in Hparts. rewrite Hparts.
    destruct (Router.upgradeWebsocket r); reflexivity.
Qed.

(** C9, at a tenant's subdomain: the path is taken as it comes, so [/a/b]
    and [/a/b/] are routed to two different owner keys, on a websocket
    upgrade and on a [POST] alike. *)
Theorem trailing_slash_on_subdomain_routes_elsewhere :
  Router.ownerKey (Router.allHandler (subdomainUpgrade "/a/b"))
  = Some "acme:/a/b"
  ∧ Router.ownerKey (Router.allHandler (subdomainUpgrade "/a/b/"))
    = Some "acme:/a/b/"
  ∧ Router.ownerKey (Router.allHandler (subdomainPost "/a/b"))
    = Some "acme:/a/b"
  ∧ Router.ownerKey (Router.allHandler (subdomainPost "/a/b/"))
    = Some "acme:/a/b/".
Proof. repeat split; reflexivity. Qed.

(** The same two paths behind a first-segment tenant reach one owner. *)
Example trailing_slash_first_segment :
  Router.ownerKey (Router.allHandler
    {| Router.host := "example.com"; Router.path := "/acme/a/b";
       Router.method := "GET"; Router.upgradeWebsocket := true |})
  = Some "acme:/a/b"
  ∧ Router.ownerKey (Router.allHandler
    {| Router.host := "example.com"; Router.path := "/acme/a/b/";
       Router.method := "GET"; Router.upgradeWebsocket := true |})
  = Some "acme:/a/b".
Proof. split; reflexivity. Qed.

(* ===================================================================== *)
(** * Further properties of the code *)
(* ===================================================================== *)

(* --------------------------------------------------------------------- *)
(** ** Encoding and decoding of path segments *)
(* --------------------------------------------------------------------- *)

Lemma string_app_cons c (s t : string) : String c s +:+ t = String c (s +:+ t).
Proof. reflexivity. Qed.

Lemma string_app_nil_r (s : string) : s +:+ "" = s.
Proof. induction s as [|a s IH]; [done|]. by rewrite string_app_cons, IH. Qed.

Lemma string_app_assoc (a b c : string) : (a +:+ b) +:+ c = a +:+ (b +:+ c).
Proof.
  induction a as [|x a IH]; [done|]. by rewrite !string_app_cons, IH.
Qed.

(** The escape of one code unit. *)
Lemma encodeURIComponent_cons c s :
  encodeURIComponent (String c s)
  = encodeURIComponent (String c "") +:+ encodeURIComponent s.
Proof.
  change (encodeURIComponent (String c "")) with
    ((if uriUnreserved c then String c EmptyString
      else if (N_of_ascii c <? 128)%N then percentByte (N_of_ascii c)
      else percentByte (192 + N_of_ascii c / 64)
           +:+ percentByte (128 + N_of_ascii c mod 64)) +:+ "").
  by rewrite string_app_nil_r.
Qed.

Lemma decode_encoded_head c s :
  decodeURIComponent (encodeURIComponent (String c "") +:+ s)
  = String c <$> decodeURIComponent s.
Proof.
  destruct c as [[] [] [] [] [] [] [] []]; reflexivity.
Qed.

Lemma decodeURIComponent_encodeURIComponent s :
  decodeURIComponent (encodeURIComponent s) = Some s.
Proof.
  induction s as [|c s IH]; [done|].
  rewrite encodeURIComponent_cons, decode_encoded_head, IH. done.
Qed.

(** Splitting at a separator splits the two sides. *)
Lemma split_app sep q s :
  JS.split sep (q +:+ String sep s) = JS.split sep q ++ JS.split sep s.
Proof.
  induction q as [|c q IH].
  - change (JS.split sep (String sep s) = [""] ++ JS.split sep s).
    simpl. by rewrite Ascii.eqb_refl.
  - rewrite string_app_cons. simpl. rewrite IH.
    destruct (Ascii.eqb c sep); [done|].
    pose proof (split_nonempty sep q). by destruct (JS.split sep q).
Qed.

(** A string without the separator is one piece. *)
Lemma split_absent sep s :
  forallb (λ c, negb (Ascii.eqb c sep)) (list_ascii_of_string s) = true →
  JS.split sep s = [s].
Proof.
  induction s as [|c s IH]; simpl; [done|].
  intros [Hc Hs]%andb_prop. apply negb_true_iff in Hc. rewrite Hc.
  by rewrite IH.
Qed.

Lemma list_ascii_app (s t : string) :
  list_ascii_of_string (s +:+ t)
  = list_ascii_of_string s ++ list_ascii_of_string t.
Proof.
  induction s as [|c s IH]; [done|]. rewrite string_app_cons. simpl.
  by rewrite IH.
Qed.

(** An escaped name has no slash in it. *)
Lemma encodeURIComponent_no_slash s :
  forallb (λ c, negb (Ascii.eqb c "/"))
    (list_ascii_of_string (encodeURIComponent s)) = true.
Proof.
  induction s as [|c s IH]; [done|].
  rewrite encodeURIComponent_cons, list_ascii_app, forallb_app, IH.
  rewrite andb_true_r. clear.
  destruct c as [[] [] [] [] [] [] [] []]; reflexivity.
Qed.

Lemma encodeURIComponent_nonempty s :
  s ≠ "" → encodeURIComponent s ≠ "".
Proof.
  destruct s as [|c s]; [done|]. intros _.
  rewrite encodeURIComponent_cons.
  destruct c as [[] [] [] [] [] [] [] []]; discriminate.
Qed.

Lemma pathParts_app p s :
  Router.pathParts (p +:+ String "/" s)
  = Router.pathParts p ++ Router.pathParts s.
Proof. unfold Router.pathParts. by rewrite split_app, filter_app. Qed.

Lemma pathParts_root : Router.pathParts "/" = [].
Proof. reflexivity. Qed.

Lemma pathParts_encoded name :
  name ≠ "" →
  Router.pathParts (encodeURIComponent name) = [encodeURIComponent name].
Proof.
  intros Hne. unfold Router.pathParts.
  rewrite split_absent by apply encodeURIComponent_no_slash.
  rewrite filter_cons, decide_True; [done|].
  apply encodeURIComponent_nonempty in Hne.
  by destruct (encodeURIComponent name).
Qed.

(** The segments of a child's path are the parent's, then the escaped
    name. *)
Lemma pathParts_childPath p name :
  name ≠ "" →
  Router.pathParts (childPath p name)
  = Router.pathParts p ++ [encodeURIComponent name].
Proof.
  intros Hne. unfold childPath.
  destruct (String.eqb_spec p "/") as [->|_].
  - change ("/" +:+ encodeURIComponent name)
      with ("" +:+ String "/" (encodeURIComponent name)).
    rewrite pathParts_app. by rewrite pathParts_encoded.
  - change (p +:+ "/" +:+ encodeURIComponent name)
      with (p +:+ String "/" (encodeURIComponent name)).
    rewrite pathParts_app. by rewrite pathParts_encoded.
Qed.

(* --------------------------------------------------------------------- *)
(** ** The breadcrumb and the child paths *)
(* --------------------------------------------------------------------- *)

Lemma crumbs_labels path tenantId :
  map Breadcrumb.segmentLabel (Breadcrumb.crumbs path tenantId)
  = map decodeURIComponent (Breadcrumb.segments path).
Proof.
  unfold Breadcrumb.crumbs. cbv zeta.
  apply list_eq. intros i.
  rewrite !list_lookup_fmap, list_lookup_imap.
  by destruct (Breadcrumb.segments path !! i).
Qed.

(** X1. The trail of a child's page ends with the child's name, whatever
    characters the name is made of. *)
Theorem breadcrumb_of_child_ends_with_its_name p name tenantId :
  name ≠ "" →
  map Breadcrumb.segmentLabel (Breadcrumb.crumbs (childPath p name) tenantId)
  = map Breadcrumb.segmentLabel (Breadcrumb.crumbs p tenantId) ++ [Some name].
Proof.
  intros Hne. rewrite !crumbs_labels. unfold Breadcrumb.segments.
  rewrite pathParts_childPath by done.
  by rewrite map_app, (map_cons _ _ []), decodeURIComponent_encodeURIComponent.
Qed.

Lemma breadcrumb_of_child_ends_with_its_name_witness :
  map Breadcrumb.segmentLabel
    (Breadcrumb.crumbs (childPath "/region 1" "store/7") "acme")
  = [Some "region 1"; Some "store/7"].
Proof.
  etransitivity.
  - apply (breadcrumb_of_child_ends_with_its_name "/region 1" "store/7" "acme").
    discriminate.
  - reflexivity.
Defined.

(** X2. Two names never share a child path. *)
Theorem child_paths_are_distinct p name1 name2 :
  name1 ≠ name2 → childPath p name1 ≠ childPath p name2.
Proof.
  intros Hne E. apply Hne. unfold childPath in E.
  assert (encodeURIComponent name1 = encodeURIComponent name2) as E'.
  { destruct (String.eqb p "/").
    - by apply (String.app_inj "/") in E.
    - apply (String.app_inj p) in E. by apply (String.app_inj "/") in E. }
  apply (f_equal decodeURIComponent) in E'.
  rewrite !decodeURIComponent_encodeURIComponent in E'. congruence.
Qed.

Lemma child_paths_are_distinct_witness :
  childPath "/a" "b c" ≠ childPath "/a" "b%20c".
Proof.
  apply (child_paths_are_distinct "/a" "b c" "b%20c"). discriminate.
Defined.

(* --------------------------------------------------------------------- *)
(** ** The call to the parent *)
(* --------------------------------------------------------------------- *)

Lemma filter_nonempty_pathParts s :
  filter (λ p : string, p ≠ "") (JS.split "/" s) = Router.pathParts s.
Proof.
  unfold Router.pathParts. apply list_filter_iff. intros [|c x]; simpl; split; done.
Qed.

(** What [propagateStockUpdate] adds to the trace: the call to the parent,
    when there is one. *)
Lemma propagateStockUpdate_calls a :
  trace (fst (propagateStockUpdate a))
  = trace a ++ match parentPath (currentPath a) with
               | Some parent =>
                   [Fetched parent "POST" "http://internal/inventory/stock"]
               | None => []
               end.
Proof.
  unfold propagateStockUpdate, parentPath. unfold_M. cbv beta iota zeta.
  destruct (String.eqb (currentPath a) "/"); [simpl; by rewrite app_nil_r|].
  destruct (filter _ _); simpl; [by rewrite app_nil_r|done].
Qed.

Lemma string_app_nil_l (s : string) : "" +:+ s = s.
Proof. reflexivity. Qed.

Lemma childPath_not_root p name : name ≠ "" → childPath p name ≠ "/".
Proof.
  intros Hne E. apply (f_equal Router.pathParts) in E.
  rewrite pathParts_childPath in E by done.
  by destruct (Router.pathParts p).
Qed.

(** The parent of a child's path is the path the child was made under, in
    canonical form. *)
Lemma parentPath_childPath p name :
  name ≠ "" → parentPath (childPath p name) = Some (canonicalPath p).
Proof.
  intros Hne. unfold parentPath, canonicalPath.
  destruct (String.eqb_spec (childPath p name) "/") as [E|_];
    [by apply childPath_not_root in E|].
  cbv zeta. rewrite filter_nonempty_pathParts, pathParts_childPath by done.
  generalize (Router.pathParts p) as parts. intros parts.
  destruct parts as [|x parts]; [done|].
  rewrite removelast_last.
  replace (length ((x :: parts) ++ [encodeURIComponent name]) =? 1)%nat
    with false.
  2:{ symmetry. apply Nat.eqb_neq. rewrite length_app. simpl. lia. }
  reflexivity.
Qed.

Lemma deliveries_sent m wss :
  Forall (λ e, isFetched e = false) (deliveries m wss).
Proof. unfold deliveries. apply Forall_map. by apply Forall_true. Qed.

(** Broadcasting adds frames to the trace, and nothing else. *)
Lemma broadcastAll_sent ms x :
  ∃ sent, trace (fold_left (λ x m, broadcastTo m x) ms x) = trace x ++ sent
          ∧ Forall (λ e, isFetched e = false) sent.
Proof.
  revert x. induction ms as [|m ms IH]; intros x; simpl.
  - exists []. by rewrite app_nil_r.
  - destruct (IH (broadcastTo m x)) as (sent & -> & Hsent).
    rewrite broadcastTo_trace, <- app_assoc. eexists. split; [done|].
    apply Forall_app. split; [apply deliveries_sent|done].
Qed.

Lemma filter_none {A} (P : A → Prop) `{!∀ x, Decision (P x)} (l : list A) :
  Forall (λ x, ¬ P x) l → filter P l = [].
Proof.
  induction 1 as [|x l Hx _ IH]; [done|].
  by rewrite filter_cons, decide_False.
Qed.

(** X3. A stock update ends with the update posted to the parent: the agent
    at the root posts nothing, the child made under a canonical path [p]
    posts to [p]. *)
Theorem stock_update_is_posted_to_the_parent env now update a :
  let a' := fst (processStockUpdate env now update a) in
  (currentPath a = "/" →
     filter (λ e, isFetched e = true) (trace a')
     = filter (λ e, isFetched e = true) (trace a))
  ∧ (∀ p name, name ≠ "" → canonicalPath p = p →
       currentPath a = childPath p name →
       ∃ sent, trace a' = trace a ++ sent
                 ++ [Fetched p "POST" "http://internal/inventory/stock"]
               ∧ Forall (λ e, isFetched e = false) sent).
Proof.
  intros a'. subst a'. rewrite processStockUpdate_run. cbn [fst].
  rewrite propagateStockUpdate_calls, persisted_currentPath, persisted_trace.
  destruct (broadcastAll_sent (announced env now update a)
              (serviced env now update a)) as (sent & Hsent & Hnone).
  rewrite Hsent.
  change (trace (serviced env now update a)) with (trace a).
  set (x := fold_left _ _ _).
  assert (currentPath x = currentPath a) as ->.
  { pose proof (broadcastAll_core (announced env now update a)
                  (serviced env now update a)) as Hcore.
    by apply core_fields in Hcore as (?&_). }
  split.
  - intros ->. cbn. rewrite app_nil_r, filter_app.
    rewrite (filter_none _ sent), app_nil_r; [done|].
    eapply Forall_impl; [exact Hnone|]. intros e He. by rewrite He.
  - intros p name Hne Hcanon ->. rewrite parentPath_childPath, Hcanon by done.
    exists sent. by rewrite <- app_assoc.
Qed.

Lemma stock_update_is_posted_to_the_parent_witness :
  ∃ sent,
    trace (fst (processStockUpdate exampleEnv exampleTime
                  {| u_sku := "SKU-1"; u_quantity := 5;
                     u_operation := opIncrement |}
                  (freshAgent (childPath "/region 1" "store 7") emptyStore)))
    = [] ++ sent
      ++ [Fetched "/region 1" "POST" "http://internal/inventory/stock"]
    ∧ Forall (λ e, isFetched e = false) sent.
Proof.
  apply (proj2 (stock_update_is_posted_to_the_parent exampleEnv exampleTime
                  {| u_sku := "SKU-1"; u_quantity := 5;
                     u_operation := opIncrement |}
                  (freshAgent (childPath "/region 1" "store 7") emptyStore))
               "/region 1" "store 7").
  - discriminate.
  - reflexivity.
  - reflexivity.
Defined.

(* --------------------------------------------------------------------- *)
(** ** The key of a forwarded request *)
(* --------------------------------------------------------------------- *)

Lemma string_length_app (s t : string) :
  String.length (s +:+ t) = (String.length s + String.length t)%nat.
Proof.
  induction s as [|c s IH]; [done|]. rewrite string_app_cons. simpl.
  by rewrite IH.
Qed.

Lemma substring_all (s : string) : String.substring 0 (String.length s) s = s.
Proof. induction s as [|c s IH]; [done|]. simpl. by rewrite IH. Qed.

Lemma substring_app_skip (p e : string) n m :
  String.substring (String.length p + n) m (p +:+ e) = String.substring n m e.
Proof. induction p as [|c p IH]; [done|]. by rewrite string_app_cons. Qed.

Lemma substring_app_take (p e : string) :
  String.substring 0 (String.length p) (p +:+ e) = p.
Proof.
  induction p as [|c p IH]; [by destruct e|].
  rewrite string_app_cons. simpl. by rewrite IH.
Qed.

Lemma substring_split (s : string) n :
  (n <= String.length s)%nat →
  s = String.substring 0 n s
      +:+ String.substring n (String.length s - n) s.
Proof.
  revert n. induction s as [|c s IH]; intros [|n] Hn; simpl in *;
    try done; try lia.
  - by rewrite substring_all.
  - rewrite string_app_cons. f_equal. apply IH. lia.
Qed.

(** [s.endsWith(q)] says that [s] is something followed by [q]. *)
Lemma endsWith_app q p : JS.endsWith q (p +:+ q) = true.
Proof.
  unfold JS.endsWith. rewrite string_length_app.
  replace (String.length p + String.length q - String.length q)%nat
    with (String.length p + 0)%nat by lia.
  rewrite substring_app_skip, substring_all, String.eqb_refl, andb_true_r.
  apply Nat.leb_le. lia.
Qed.

Lemma endsWith_inv q s :
  JS.endsWith q s = true → ∃ pre, s = pre +:+ q.
Proof.
  unfold JS.endsWith. intros [Hle Heq]%andb_prop.
  apply Nat.leb_le in Hle. apply String.eqb_eq in Heq.
  exists (String.substring 0 (String.length s - String.length q) s).
  pose proof (substring_split s (String.length s - String.length q)
                ltac:(lia)) as Hs.
  replace (String.length s - (String.length s - String.length q))%nat
    with (String.length q) in Hs by lia.
  by rewrite Heq in Hs.
Qed.

Lemma dropEnd_app p q : JS.dropEnd (String.length q) (p +:+ q) = p.
Proof.
  unfold JS.dropEnd. rewrite string_length_app.
  replace (String.length p + String.length q - String.length q)%nat
    with (String.length p) by lia.
  apply substring_app_take.
Qed.

Lemma string_app_suffix (p e pre q : string) :
  p +:+ e = pre +:+ q → (String.length e <= String.length q)%nat →
  ∃ x, q = x +:+ e.
Proof.
  revert p. induction pre as [|c pre IH]; intros p E Hlen.
  - exists p. by rewrite E.
  - destruct p as [|c' p].
    + exfalso. change ("" +:+ e) with e in E.
      apply (f_equal String.length) in E.
      rewrite string_app_cons in E. simpl in E.
      rewrite string_length_app in E. lia.
    + rewrite !string_app_cons in E. injection E as _ E. by eapply IH.
Qed.

(** Appending in front of [e] does not make it end with another string
    unless one of the two ends with the other. *)
Lemma endsWith_other q p e :
  JS.endsWith q e = false → JS.endsWith e q = false →
  JS.endsWith q (p +:+ e) = false.
Proof.
  intros Hqe Heq. destruct (JS.endsWith q (p +:+ e)) eqn:E; [|done].
  apply endsWith_inv in E as [pre E].
  destruct (le_lt_dec (String.length e) (String.length q)) as [Hle|Hlt].
  - destruct (string_app_suffix _ _ _ _ E Hle) as [x ->].
    by rewrite endsWith_app in Heq.
  - symmetry in E.
    destruct (string_app_suffix _ _ _ _ E ltac:(lia)) as [x ->].
    by rewrite endsWith_app in Hqe.
Qed.

Lemma splitEndpoint_found before e after p :
  Forall (λ q, JS.endsWith q e = false ∧ JS.endsWith e q = false) before →
  Router.splitEndpoint (before ++ e :: after) (p +:+ e) = (p, e).
Proof.
  induction 1 as [|q before [Hqe Heq] _ IH]; simpl.
  - by rewrite endsWith_app, dropEnd_app.
  - by rewrite endsWith_other.
Qed.

(** No endpoint of the list ends with another one. *)
Lemma apiEndpoints_apart e1 e2 :
  e1 ∈ Router.apiEndpoints → e2 ∈ Router.apiEndpoints → e1 ≠ e2 →
  JS.endsWith e1 e2 = false.
Proof.
  intros H1 H2 Hne.
  assert (forallb (λ x, forallb (λ y, String.eqb x y || negb (JS.endsWith x y))
                          Router.apiEndpoints) Router.apiEndpoints = true)
    as Hall by reflexivity.
  rewrite forallb_forall in Hall.
  apply list_elem_of_In in H1, H2.
  specialize (Hall _ H1). rewrite forallb_forall in Hall.
  specialize (Hall _ H2). apply orb_prop in Hall as [E|E].
  - by apply String.eqb_eq in E.
  - by apply negb_true_iff in E.
Qed.

(** A path that ends in an endpoint of the list splits into what is before
    the endpoint, and the endpoint. *)
Lemma splitEndpoint_endpoint e p :
  e ∈ Router.apiEndpoints →
  Router.splitEndpoint Router.apiEndpoints (p +:+ e) = (p, e).
Proof.
  intros He.
  destruct (list_elem_of_split_l _ _ He) as (before & after & Hl & Hnot).
  rewrite Hl. apply splitEndpoint_found.
  apply Forall_forall. intros q Hq.
  assert (q ∈ Router.apiEndpoints) by (rewrite Hl; apply elem_of_app; by left).
  assert (q ≠ e) by (intros ->; done).
  split; by apply apiEndpoints_apart.
Qed.

(* --------------------------------------------------------------------- *)

Lemma defaultTenant_truthy d : JS.truthy (Router.defaultTenant d) = true.
Proof. destruct d as [[|c t]|]; reflexivity. Qed.

Lemma or_else_truthy s d : JS.truthy s = true → JS.or_else s d = s.
Proof. unfold JS.or_else. by intros ->. Qed.

(** What a forwarded request carries: the key of its agent is made of the
    tenant and the fleet path of its two routing headers. *)
Lemma allHandler_forward r key fleetPath tenantId pathname :
  Router.allHandler r = Router.Forward key fleetPath tenantId pathname →
  key = tenantId +:+ ":" +:+ fleetPath
  ∧ tenantId = Router.defaultTenant (Router.deriveTenant r).1
  ∧ tenantId ≠ "".
Proof.
  unfold Router.allHandler.
  destruct (Router.deriveTenant r) as [derived tenantPath]. cbn [fst].
  pose proof (defaultTenant_truthy derived) as Ht.
  assert (Router.defaultTenant derived ≠ "") as Hne
    by (intros E; by rewrite E in Ht).
  destruct (Router.upgradeWebsocket r).
  - unfold Router.handleWebSocketUpgrade. intros [= <- <- <- <-]. done.
  - destruct (_ && _); [discriminate|].
    destruct (Router.splitEndpoint _ _) as [fleetPath0 apiEndpoint0].
    destruct (JS.indexOf _ _) as [inventoryIndex|];
      destruct (JS.endsWith "/ws" tenantPath);
      intros [= <- <- <- <-]; rewrite (or_else_truthy _ _ Ht); done.
Qed.

(** X4. Every request that is forwarded goes to the agent named by the two
    routing headers it carries, and the tenant header is never empty. *)
Theorem forwarded_key_is_tenant_and_fleet_path r key fleetPath tenantId pathname :
  Router.allHandler r = Router.Forward key fleetPath tenantId pathname →
  key = tenantId +:+ ":" +:+ fleetPath
  ∧ tenantId = Router.defaultTenant (Router.deriveTenant r).1
  ∧ tenantId ≠ "".
Proof. apply allHandler_forward. Qed.

Lemma forwarded_key_is_tenant_and_fleet_path_witness :
  "acme:/warehouse" = "acme" +:+ ":" +:+ "/warehouse"
  ∧ "acme" = Router.defaultTenant
               (Router.deriveTenant
                  {| Router.host := "example.com";
                     Router.path := "/acme/warehouse/increment";
                     Router.method := "POST";
                     Router.upgradeWebsocket := false |}).1
  ∧ "acme" ≠ "".
Proof.
  apply (forwarded_key_is_tenant_and_fleet_path
           {| Router.host := "example.com";
              Router.path := "/acme/warehouse/increment";
              Router.method := "POST";
              Router.upgradeWebsocket := false |}
           "acme:/warehouse" "/warehouse" "acme" "/increment").
  reflexivity.
Defined.









(* --------------------------------------------------------------------- *)
(** ** The agents that agents call *)
(* --------------------------------------------------------------------- *)

Lemma called_addEvent e a :
  called (addEvent e a)
  = called a ++ match e with Fetched target _ _ => [target] | _ => [] end.
Proof. unfold called. simpl. rewrite omap_app. by destruct e. Qed.

Lemma called_sendOne m a ws : called (sendOne m a ws) = called a.
Proof.
  unfold sendOne.
  destruct (readyState ws =? 1); [destruct (send_throws ws)|]; try reflexivity.
  by rewrite called_addEvent, app_nil_r.
Qed.

Lemma called_broadcastTo m a : called (broadcastTo m a) = called a.
Proof.
  unfold broadcastTo. generalize (websockets (state a)) as l. intros l.
  revert a. induction l as [|ws l IH]; intros a; simpl; [done|].
  by rewrite IH, called_sendOne.
Qed.

Lemma called_stateBroadcast a : called (stateBroadcast a) = called a.
Proof.
  unfold stateBroadcast. destruct (initializationComplete a); [|done].
  apply called_broadcastTo.
Qed.










Lemma currentPath_core a b : core a = core b → currentPath a = currentPath b.
Proof. by intros (?&_)%core_fields. Qed.

Lemma currentPath_statsUpdated now type a :
  currentPath (statsUpdated now type a) = currentPath a.
Proof. by rewrite (currentPath_core _ _ (statsUpdated_core _ _ _)). Qed.

Lemma currentPath_chatted now actions x :
  currentPath (fold_left (actionCounted now) actions x) = currentPath x.
Proof.
  revert x. induction actions as [|ok actions IH]; intros x; simpl; [done|].
  rewrite IH. unfold actionCounted.
  destruct ok; by rewrite !currentPath_statsUpdated.
Qed.

(** The path of an agent changes with the path of a request, and with
    nothing else. *)
Lemma currentPath_step a o :
  currentPath (step a o)
  = match o with
    | doFetchPath _ path => servedAt path a
    | doRestart now path => servedAt path (initialize now (sqlStorage a))
    | _ => currentPath a
    end.
Proof.
  destruct o as [now|now name|now cascade name|now children
    |env now update|now actions|server|ws|now path|now path]; simpl.
  - rewrite incrementCounter_run. simpl.
    by rewrite (currentPath_core _ _ (stateBroadcast_core _)).
  - destruct (AgentNameSchema (JS.trim name)) eqn:Hv.
    + destruct (decide (JS.trim name ∈ agents (state a))) as [Hin|Hin].
      * destruct (createAgent_exists now name a Hv Hin) as [_ ->]. simpl.
        by rewrite (currentPath_core _ _ (broadcastTo_core _ _)).
      * rewrite (createAgent_fresh now name a Hv Hin). simpl.
        rewrite (currentPath_core _ _ (stateBroadcast_core _)).
        by rewrite (currentPath_core _ _ (broadcastTo_core _ _)).
    + rewrite (createAgent_invalid now name a Hv). simpl.
      by rewrite (currentPath_core _ _ (broadcastTo_core _ _)).
  - destruct (decide (name ∈ agents (state a))) as [Hin|Hin].
    + destruct cascade as [status|reason].
      * rewrite (deleteAgent_responded now status name a Hin). simpl.
        rewrite (currentPath_core _ _ (stateBroadcast_core _)).
        by rewrite (currentPath_core _ _ (broadcastTo_core _ _)).
      * rewrite (deleteAgent_rejected now reason name a Hin). simpl.
        rewrite (currentPath_core _ _ (stateBroadcast_core _)).
        by rewrite (currentPath_core _ _ (broadcastTo_core _ _)).
    + rewrite (deleteAgent_absent now cascade name a Hin). simpl.
      by rewrite (currentPath_core _ _ (broadcastTo_core _ _)).
  - rewrite handleDeleteSubtree_run. simpl.
    rewrite (currentPath_core _ _ (addEvents_core _ _ _)). simpl.
    by rewrite (currentPath_core _ _ (addEvents_core _ _ _)).
  - rewrite processStockUpdate_run. simpl.
    rewrite (currentPath_core _ _ (propagateStockUpdate_core _)).
    rewrite persisted_currentPath.
    by rewrite (currentPath_core _ _ (broadcastAll_core _ _)).
  - rewrite processChatMessage_run. simpl.
    rewrite currentPath_chatted. apply currentPath_statsUpdated.
  - by rewrite (currentPath_core _ _ (handleWebSocket_core _ _)).
  - done.
  - rewrite fetchPath_run. apply fetched_currentPath.
  - unfold resume. rewrite fetchPath_run. apply fetched_currentPath.
Qed.







Example calls_of_a_warehouse :
  called (run [doFetchPath exampleTime "/warehouse";
               doCreateAgent exampleTime "dock 1";
               doDeleteAgent exampleTime (Responded 200) "dock 1";
               doStockUpdate exampleEnv exampleTime
                 {| u_sku := "SKU-1"; u_quantity := 5;
                    u_operation := opSet |}]
            (newAgent emptyStore))
  = ["/warehouse/dock%201"; "/"].
Proof. vm_compute. reflexivity. Qed.

(* --------------------------------------------------------------------- *)
(** ** The websocket and the API of one page *)
(* --------------------------------------------------------------------- *)

Lemma or_else_nonempty s d : s ≠ "" → JS.or_else s d = s.
Proof. by destruct s. Qed.

Lemma includes_false q s : JS.includes q s = false → JS.indexOf q s = None.
Proof. unfold JS.includes. by destruct (JS.indexOf q s). Qed.

Lemma apiEndpoints_not_ws e p :
  e ∈ Router.apiEndpoints → JS.endsWith "/ws" (p +:+ e) = false.
Proof.
  intros He. apply endsWith_other.
  - assert (forallb (λ x, negb (JS.endsWith "/ws" x)) Router.apiEndpoints = true)
      as Hall by reflexivity.
    rewrite forallb_forall in Hall. apply list_elem_of_In, Hall in He.
    by apply negb_true_iff.
  - assert (forallb (λ x, negb (JS.endsWith x "/ws")) Router.apiEndpoints = true)
      as Hall by reflexivity.
    rewrite forallb_forall in Hall. apply list_elem_of_In, Hall in He.
    by apply negb_true_iff.
Qed.

Lemma string_app_nonempty (p e : string) : p ≠ "" → p +:+ e ≠ "".
Proof. by destruct p. Qed.

(** X6. Below the root of a tenant's subdomain, the websocket of a path and
    the API calls on the path are forwarded to one agent, which is told
    the path. *)
Theorem socket_and_api_of_a_path_reach_one_agent host method p e :
  subdomainHost host = true →
  p ≠ "" →
  e ∈ Router.apiEndpoints →
  JS.includes "/inventory/" (p +:+ e) = false →
  pageLoad method (p +:+ e) = false →
  Router.allHandler (upgradeRequest host (p +:+ "/ws"))
  = Router.Forward (subdomainTenant host +:+ ":" +:+ p) p
      (subdomainTenant host) (p +:+ "/ws")
  ∧ Router.allHandler (plainRequest host method (p +:+ e))
    = Router.Forward (subdomainTenant host +:+ ":" +:+ p) p
        (subdomainTenant host) e.
Proof.
  intros Hhost Hp He Hinv Hpage.
  unfold Router.allHandler, Router.deriveTenant, upgradeRequest, plainRequest.
  cbn [Router.host Router.path Router.method Router.upgradeWebsocket].
  fold (subdomainHost host). rewrite Hhost.
  fold (subdomainTenant host). split.
  - unfold Router.handleWebSocketUpgrade. cbn [Router.path].
    rewrite endsWith_app.
    pose proof (dropEnd_app p "/ws") as Hdrop.
    change (String.length "/ws") with 3%nat in Hdrop. by rewrite Hdrop.
  - rewrite or_else_nonempty by by apply string_app_nonempty.
    unfold pageLoad in Hpage.
    replace (String.eqb method "GET"
             && negb (Router.isApiPath (p +:+ e)
                      || negb (String.eqb method "GET"))) with false.
    2:{ destruct (String.eqb method "GET"), (Router.isApiPath (p +:+ e));
          done. }
    rewrite splitEndpoint_endpoint by done.
    rewrite (includes_false _ _ Hinv).
    rewrite apiEndpoints_not_ws by done.
    rewrite or_else_nonempty by done.
    by rewrite (or_else_truthy (subdomainTenant host) "demo"
                  (defaultTenant_truthy _)).
Qed.

Lemma socket_and_api_of_a_path_reach_one_agent_witness :
  Router.allHandler (upgradeRequest "acme.example.com" ("/warehouse" +:+ "/ws"))
  = Router.Forward ("acme" +:+ ":" +:+ "/warehouse") "/warehouse" "acme"
      ("/warehouse" +:+ "/ws")
  ∧ Router.allHandler
      (plainRequest "acme.example.com" "GET" ("/warehouse" +:+ "/state"))
    = Router.Forward ("acme" +:+ ":" +:+ "/warehouse") "/warehouse" "acme"
        "/state".
Proof.
  apply (socket_and_api_of_a_path_reach_one_agent "acme.example.com" "GET"
           "/warehouse" "/state").
  - reflexivity.
  - discriminate.
  - unfold Router.apiEndpoints. apply elem_of_cons. right. by left.
  - reflexivity.
  - reflexivity.
Defined.

(** X7. At the root of a tenant's subdomain the two part: the websocket of
    [/ws] goes to the agent of the empty fleet path, an API call to the
    agent of [/], and each of the two agents takes [/] for its path. *)
Theorem socket_and_api_of_the_root_reach_two_agents host method e :
  subdomainHost host = true →
  e ∈ Router.apiEndpoints →
  pageLoad method e = false →
  let socket := Router.allHandler (upgradeRequest host "/ws") in
  let api := Router.allHandler (plainRequest host method e) in
  Router.ownerKey socket = Some (subdomainTenant host +:+ ":")
  ∧ Router.ownerKey api = Some (subdomainTenant host +:+ ":/")
  ∧ servedPath socket = Some "/"
  ∧ servedPath api = Some "/".
Proof.
  intros Hhost He Hpage.
  unfold Router.allHandler, Router.deriveTenant, upgradeRequest, plainRequest.
  cbn [Router.host Router.path Router.method Router.upgradeWebsocket].
  fold (subdomainHost host). rewrite Hhost.
  fold (subdomainTenant host). cbv zeta.
  split; [reflexivity|]. 
  assert (JS.or_else e e = e) as ->.
  { apply or_else_nonempty. intros ->. unfold Router.apiEndpoints in He.
    repeat (apply elem_of_cons in He as [He|He]; [discriminate|]).
    by apply elem_of_nil in He. }
  unfold pageLoad in Hpage.
  replace (String.eqb method "GET"
           && negb (Router.isApiPath e || negb (String.eqb method "GET")))
    with false.
  2:{ destruct (String.eqb method "GET"), (Router.isApiPath e); done. }
  unfold Router.apiEndpoints in He.
  repeat (apply elem_of_cons in He as [->|He]; [by repeat split|]).
  by apply elem_of_nil in He.
Qed.

Lemma socket_and_api_of_the_root_reach_two_agents_witness :
  Router.ownerKey (Router.allHandler (upgradeRequest "acme.example.com" "/ws"))
  = Some ("acme" +:+ ":")
  ∧ Router.ownerKey
      (Router.allHandler
         (plainRequest "acme.example.com" "POST" "/inventory/stock"))
    = Some ("acme" +:+ ":/")
  ∧ servedPath (Router.allHandler (upgradeRequest "acme.example.com" "/ws"))
    = Some "/"
  ∧ servedPath
      (Router.allHandler
         (plainRequest "acme.example.com" "POST" "/inventory/stock"))
    = Some "/".
Proof.
  apply (socket_and_api_of_the_root_reach_two_agents "acme.example.com"
           "POST" "/inventory/stock").
  - reflexivity.
  - unfold Router.apiEndpoints. do 5 (apply elem_of_cons; right). by left.
  - reflexivity.
Defined.

(* --------------------------------------------------------------------- *)
(** ** The stored messages *)
(* --------------------------------------------------------------------- *)

Lemma storeMessage_run now newId fromAgent toAgent content messageType a :
  storeMessage now newId fromAgent toAgent content messageType a
  = (stored now newId fromAgent toAgent content messageType a, Returned tt).
Proof.
  unfold stored, storeMessage. unfold_M. cbv beta iota zeta.
  destruct (decide _); [done|]. cbn [state setSql setState messages setMessages].
  destruct (_ <? _)%nat; reflexivity.
Qed.

Lemma stored_known now newId fromAgent toAgent content messageType a :
  newId ∈ storedIds (sqlStorage a) →
  stored now newId fromAgent toAgent content messageType a = a.
Proof.
  intros Hin. unfold stored, storeMessage. unfold_M. cbv beta iota zeta.
  by rewrite decide_True.
Qed.

Lemma lastN_short {A} n (l : list A) : (length l <= n)%nat → lastN n l = l.
Proof. intros H. unfold lastN. by replace (length l - n)%nat with 0%nat by lia. Qed.

Lemma lastN_length {A} n (l : list A) : (length (lastN n l) <= n)%nat.
Proof. unfold lastN. rewrite length_drop. lia. Qed.

Lemma lastN_snoc {A} n (l : list A) x :
  lastN (S n) (l ++ [x]) = lastN n l ++ [x].
Proof.
  unfold lastN. rewrite length_app. simpl.
  replace (length l + 1 - S n)%nat with (length l - n)%nat by lia.
  rewrite drop_app_le by lia. done.
Qed.

Lemma lastN_lastN {A} n m (l : list A) :
  (n <= m)%nat → lastN n (lastN m l) = lastN n l.
Proof.
  intros H. unfold lastN. rewrite length_drop, drop_drop. f_equal. lia.
Qed.

(** What storing a message with a new identifier changes. *)
Lemma stored_fresh now newId fromAgent toAgent content messageType a :
  newId ∉ storedIds (sqlStorage a) →
  let message :=
    {| id := newId; timestamp := iso now; from_agent := fromAgent;
       to_agent := toAgent; content := content;
       message_type := messageType |} in
  stored now newId fromAgent toAgent content messageType a
  = setState (setMessages (lastN 100 (messages (state a) ++ [message])))
      (setSql (λ s, setStoredMessages
         (stored_messages s
          ++ [{| sm_message := message; sm_location := currentPath a |}]) s)
         a).
Proof.
  intros Hin message. unfold stored, storeMessage. unfold_M.
  cbv beta iota zeta. rewrite decide_False by done.
  cbn [state setSql setState messages setMessages fst].
  fold message.
  destruct (Nat.ltb_spec 100 (length (messages (state a) ++ [message]))).
  - reflexivity.
  - rewrite lastN_short by lia. reflexivity.
Qed.

Lemma storeOne_fresh a x :
  st_id x ∉ storedIds (sqlStorage a) →
  storeOne a x
  = setState (setMessages (lastN 100 (messages (state a) ++ [messageOf x])))
      (setSql (λ s, setStoredMessages
         (stored_messages s
          ++ [{| sm_message := messageOf x; sm_location := currentPath a |}])
         s) a).
Proof. intros H. unfold storeOne. by rewrite stored_fresh. Qed.

Lemma storeOne_bound a x :
  (length (messages (state a)) <= 100)%nat →
  (length (messages (state (storeOne a x))) <= 100)%nat.
Proof.
  intros H. destruct (decide (st_id x ∈ storedIds (sqlStorage a))) as [Hin|Hin].
  - unfold storeOne. by rewrite stored_known.
  - rewrite storeOne_fresh by done. apply lastN_length.
Qed.

Lemma lastN_app_lastN {A} n (l r : list A) :
  lastN n (lastN n l ++ r) = lastN n (l ++ r).
Proof.
  unfold lastN. rewrite <- (drop_app_le l r) by lia.
  rewrite length_drop, drop_drop, !length_app. f_equal. lia.
Qed.

Lemma storedIds_storeOne a x :
  st_id x ∉ storedIds (sqlStorage a) →
  storedIds (sqlStorage (storeOne a x)) = storedIds (sqlStorage a) ++ [st_id x].
Proof.
  intros H. rewrite storeOne_fresh by done. unfold storedIds. simpl.
  by rewrite map_app.
Qed.

(** X8. The buffer of messages in memory never holds more than 100 of them,
    whatever is stored; and when the identifiers are new, it holds the
    last 100 of all the messages, while the table holds every one of them
    under the path of the agent. *)
Theorem message_buffer_keeps_the_last_hundred xs a :
  (length (messages (state a)) <= 100)%nat →
  let a' := fold_left storeOne xs a in
  (length (messages (state a')) <= 100)%nat
  ∧ (NoDup (map st_id xs) →
     (∀ x, x ∈ xs → st_id x ∉ storedIds (sqlStorage a)) →
     messages (state a') = lastN 100 (messages (state a) ++ map messageOf xs)
     ∧ stored_messages (sqlStorage a')
       = stored_messages (sqlStorage a)
         ++ map (λ x, {| sm_message := messageOf x;
                         sm_location := currentPath a |}) xs).
Proof.
  intros Hbound. cbv zeta. split.
  - revert a Hbound. induction xs as [|x xs IH]; intros a H; simpl; [done|].
    apply IH. by apply storeOne_bound.
  - revert a Hbound. induction xs as [|x xs IH]; intros a Hbound Hnd Hfresh;
      simpl.
    + rewrite !app_nil_r. by rewrite lastN_short.
    + apply NoDup_cons in Hnd as [Hx Hnd].
      assert (st_id x ∉ storedIds (sqlStorage a)) as Hnew
        by (apply Hfresh; by left).
      destruct (IH (storeOne a x)) as [Hm Hs].
      * by apply storeOne_bound.
      * done.
      * intros y Hy. rewrite storedIds_storeOne by done.
        intros [Hin|Hin%list_elem_of_singleton]%elem_of_app.
        -- by apply (Hfresh y); [right|].
        -- apply Hx. rewrite <- Hin. apply list_elem_of_fmap. eauto.
      * rewrite Hm, Hs. rewrite storeOne_fresh by done. simpl.
        rewrite lastN_app_lastN, <- !app_assoc. done.
Qed.

Lemma message_buffer_keeps_the_last_hundred_witness :
  let x :=
    {| st_now := exampleTime; st_id := "1700000000000-k3j9x2m1q";
       st_from := "user"; st_to := None; st_content := "hello";
       st_type := direct |} in
  let a' := fold_left storeOne [x] (newAgent emptyStore) in
  messages (state a') = lastN 100 ([] ++ map messageOf [x])
  ∧ stored_messages (sqlStorage a')
    = [] ++ map (λ x, {| sm_message := messageOf x; sm_location := "/" |}) [x].
Proof.
  intros x.
  refine (proj2 (message_buffer_keeps_the_last_hundred [x]
                   (newAgent emptyStore) _) _ _).
  - simpl. lia.
  - repeat constructor. by intros ?%elem_of_nil.
  - intros y _. by intros ?%elem_of_nil.
Defined.

Lemma sendDirectMessage_absent now ids delivery agentName message a :
  agentName ∉ agents (state a) →
  sendDirectMessage now ids delivery agentName message a
  = (broadcastTo (MsgError ("Agent " +:+ quote +:+ agentName +:+ quote
                            +:+ " does not exist")) a,
     Returned tt).
Proof.
  intros Hin. unfold sendDirectMessage. unfold_M. cbv beta iota.
  rewrite decide_False by done. apply broadcastToWebSockets_run.
Qed.

Lemma sendDirectMessage_present now ids delivery agentName message a :
  agentName ∈ agents (state a) →
  sendDirectMessage now ids delivery agentName message a
  = (broadcastTo (deliveryFrame delivery agentName message)
       (storeOne
          (addEvent (Fetched (childPath (currentPath a) agentName) "POST"
                       "http://internal/message")
             (storeOne a (outgoingMessage now ids.1 a agentName message)))
          (systemMessage now ids.2 (deliveryNote delivery agentName message))),
     Returned tt).
Proof.
  intros Hin. unfold sendDirectMessage. unfold_M. cbv beta iota.
  rewrite decide_True by done.
  rewrite storeMessage_run. cbv beta iota.
  unfold fetchStub. unfold_M. cbv beta iota.
  destruct delivery as [status|reason]; cbv beta iota zeta.
  - rewrite storeMessage_run. cbv beta iota.
    rewrite broadcastToWebSockets_run. reflexivity.
  - rewrite storeMessage_run. cbv beta iota.
    rewrite broadcastToWebSockets_run. reflexivity.
Qed.

(** X9. A direct message to a name that is not a child is refused with an
    error frame: nothing is stored, in memory or in the table, and no
    agent is called. *)
Theorem direct_message_to_unknown_agent_is_refused
    now ids delivery agentName message a :
  agentName ∉ agents (state a) →
  let a' := fst (sendDirectMessage now ids delivery agentName message a) in
  messages (state a') = messages (state a)
  ∧ sqlStorage a' = sqlStorage a
  ∧ trace a'
    = trace a
      ++ deliveries (MsgError ("Agent " +:+ quote +:+ agentName +:+ quote
                               +:+ " does not exist"))
           (websockets (state a)).
Proof.
  intros Hin a'. subst a'. rewrite sendDirectMessage_absent by done.
  cbn [fst]. rewrite broadcastTo_trace.
  pose proof (broadcastTo_core
    (MsgError ("Agent " +:+ quote +:+ agentName +:+ quote
               +:+ " does not exist")) a) as Hcore.
  apply core_fields in Hcore as (?&?&?&?&?&?&?&?&?&?&?). done.
Qed.

Lemma direct_message_to_unknown_agent_is_refused_witness :
  let a' := fst (sendDirectMessage exampleTime ("id-1", "id-2") (Responded 200)
                   "dock 2" "hello" rootAgent) in
  messages (state a') = messages (state rootAgent)
  ∧ sqlStorage a' = sqlStorage rootAgent
  ∧ trace a'
    = trace rootAgent
      ++ deliveries (MsgError ("Agent " +:+ quote +:+ "dock 2" +:+ quote
                               +:+ " does not exist"))
           (websockets (state rootAgent)).
Proof.
  apply (direct_message_to_unknown_agent_is_refused exampleTime
           ("id-1", "id-2") (Responded 200) "dock 2" "hello" rootAgent).
  vm_compute. discriminate.
Defined.

Lemma trace_storeOne a x : trace (storeOne a x) = trace a.
Proof.
  destruct (decide (st_id x ∈ storedIds (sqlStorage a))) as [Hin|Hin].
  - unfold storeOne. by rewrite stored_known.
  - by rewrite storeOne_fresh.
Qed.

Lemma websockets_storeOne a x :
  websockets (state (storeOne a x)) = websockets (state a).
Proof.
  destruct (decide (st_id x ∈ storedIds (sqlStorage a))) as [Hin|Hin].
  - unfold storeOne. by rewrite stored_known.
  - by rewrite storeOne_fresh.
Qed.

Lemma called_storeOne a x : called (storeOne a x) = called a.
Proof. unfold called. by rewrite trace_storeOne. Qed.

(** X10. A direct message to a child is stored as sent before the child is
    called at [/message], and stays stored when the call fails: the table
    gains the outgoing message and the note of the system on the delivery,
    the child is the one agent called, and the sockets get the note, as a
    system message when the child answered and as an error when the call
    was rejected. *)
Theorem direct_message_to_a_child_is_stored_and_sent
    now ids delivery agentName message a :
  agentName ∈ agents (state a) →
  ids.1 ∉ storedIds (sqlStorage a) →
  ids.2 ∉ storedIds (sqlStorage a) →
  ids.1 ≠ ids.2 →
  let a' := fst (sendDirectMessage now ids delivery agentName message a) in
  let sent := outgoingMessage now ids.1 a agentName message in
  let note :=
    systemMessage now ids.2 (deliveryNote delivery agentName message) in
  stored_messages (sqlStorage a')
  = stored_messages (sqlStorage a)
    ++ [{| sm_message := messageOf sent; sm_location := currentPath a |};
        {| sm_message := messageOf note; sm_location := currentPath a |}]
  ∧ messages (state a')
    = lastN 100 (messages (state a) ++ [messageOf sent; messageOf note])
  ∧ called a' = called a ++ [childPath (currentPath a) agentName]
  ∧ ∃ before, trace a'
      = before ++ deliveries (deliveryFrame delivery agentName message)
                    (websockets (state a)).
Proof.
  intros Hin H1 H2 Hne a' sent note. subst a'.
  rewrite sendDirectMessage_present by done. cbn [fst].
  fold sent. fold note.
  set (call := Fetched _ _ _).
  pose proof (storeOne_fresh a sent H1) as Ha1.
  set (a1 := storeOne a sent) in *.
  set (a2 := addEvent call a1).
  assert (st_id note ∉ storedIds (sqlStorage a2)) as Hnote.
  { subst a2. rewrite Ha1. unfold storedIds. simpl. rewrite map_app.
    intros [Hx|Hx%list_elem_of_singleton]%elem_of_app; [done|].
    by apply Hne. }
  pose proof (storeOne_fresh a2 note Hnote) as Ha3.
  set (a3 := storeOne a2 note) in *.
  pose proof (broadcastTo_core (deliveryFrame delivery agentName message) a3)
    as Hcore.
  apply core_fields in Hcore as (_&_&_&Hm&_&_&_&_&_&_&Hs).
  rewrite Hm, Hs, called_broadcastTo, broadcastTo_trace.
  repeat split.
  - rewrite Ha3. subst a2. rewrite Ha1. simpl. by rewrite <- app_assoc.
  - rewrite Ha3. subst a2. rewrite Ha1. simpl.
    by rewrite lastN_app_lastN, <- app_assoc.
  - subst a3 a2 a1. rewrite called_storeOne, called_addEvent.
    by rewrite called_storeOne.
  - subst a3 a2 a1. rewrite websockets_storeOne.
    change (websockets (state (addEvent call ?x))) with (websockets (state x)).
    rewrite websockets_storeOne. by eexists.
Qed.

Lemma direct_message_to_a_child_is_stored_and_sent_witness :
  let a' := fst (sendDirectMessage exampleTime ("id-1", "id-2")
                   (Rejected "Network connection lost") "warehouse-ny"
                   "hello" rootAgent) in
  map (λ row, content (sm_message row)) (stored_messages (sqlStorage a'))
  = ["hello";
     "Failed to send message to warehouse-ny: Network connection lost"]
  ∧ called a' = ["/warehouse-ny"].
Proof.
  intros a'.
  destruct (direct_message_to_a_child_is_stored_and_sent exampleTime
              ("id-1", "id-2") (Rejected "Network connection lost")
              "warehouse-ny" "hello" rootAgent)
    as (Hrows & _ & Hcalled & _).
  - vm_compute. reflexivity.
  - vm_compute. by intros ?%elem_of_nil.
  - vm_compute. by intros ?%elem_of_nil.
  - discriminate.
  - split.
    + unfold a'. rewrite Hrows. vm_compute. reflexivity.
    + unfold a'. rewrite Hcalled. vm_compute. reflexivity.
Defined.

Lemma broadcastMessage_run now newId children message a :
  broadcastMessage now newId children message a
  = (broadcastTo
       (MsgMessage (loudspeaker +:+ " " +:+ JS.or_else (currentPath a) "root")
          message)
       (fold_left (λ x n, addEvent (messageCall a n) x)
          (elements (agents (state a)))
          (storeOne a (broadcastStoring now newId a message))),
     Returned tt).
Proof.
  unfold broadcastMessage. unfold_M. cbv beta iota.
  rewrite storeMessage_run. cbv beta iota.
  rewrite (forEach_fold (λ x n, addEvent (messageCall a n) x)).
  2:{ intros n x. unfold fetchStub. unfold_M. cbv beta iota.
      destruct (children n); reflexivity. }
  cbv beta iota. rewrite broadcastToWebSockets_run. reflexivity.
Qed.

Lemma messageCalls_trace a names x :
  trace (fold_left (λ x n, addEvent (messageCall a n) x) names x)
  = trace x ++ map (messageCall a) names.
Proof.
  revert x. induction names as [|n names IH]; intros x; simpl.
  - by rewrite app_nil_r.
  - rewrite IH. simpl. by rewrite <- app_assoc.
Qed.

Lemma messageCalls_core a names x :
  core (fold_left (λ x n, addEvent (messageCall a n) x) names x) = core x.
Proof.
  revert x. induction names as [|n names IH]; intros x; simpl; [done|].
  by rewrite IH.
Qed.

Lemma messageCalls_websockets a names x :
  websockets (state (fold_left (λ x n, addEvent (messageCall a n) x) names x))
  = websockets (state x).
Proof.
  revert x. induction names as [|n names IH]; intros x; simpl; [done|].
  by rewrite IH.
Qed.

Lemma sqlStorage_of_core a b : core a = core b → sqlStorage a = sqlStorage b.
Proof. unfold core. intros H. by simplify_eq. Qed.

Lemma agents_of_core a b :
  core a = core b → agents (state a) = agents (state b).
Proof. unfold core. intros H. by simplify_eq. Qed.

Lemma counter_of_core a b :
  core a = core b → counter (state a) = counter (state b).
Proof. unfold core. intros H. by simplify_eq. Qed.

(** X11. A broadcast is stored once, as a message of the agent to nobody, and
    then posted to every child at [/message], each child once and in the
    order of the set, whether the calls before it failed or not; after the
    calls the open sockets get the message.  The children and the counter
    stay as they are. *)
Theorem broadcast_is_posted_to_every_child
    now newId children message a :
  newId ∉ storedIds (sqlStorage a) →
  let a' := fst (broadcastMessage now newId children message a) in
  stored_messages (sqlStorage a')
  = stored_messages (sqlStorage a)
    ++ [{| sm_message :=
             {| id := newId; timestamp := iso now;
                from_agent := JS.or_else (currentPath a) "root";
                to_agent := None; content := message;
                message_type := broadcast |};
           sm_location := currentPath a |}]
  ∧ trace a'
    = trace a
      ++ map (λ name, Fetched (childPath (currentPath a) name) "POST"
                        "http://internal/message")
           (elements (agents (state a)))
      ++ deliveries
           (MsgMessage
              (loudspeaker +:+ " " +:+ JS.or_else (currentPath a) "root")
              message)
           (websockets (state a))
  ∧ agents (state a') = agents (state a)
  ∧ counter (state a') = counter (state a).
Proof.
  intros Hfresh a'. subst a'. rewrite broadcastMessage_run. cbn [fst].
  set (x := storeOne a (broadcastStoring now newId a message)).
  set (y := fold_left _ _ x).
  assert (core (broadcastTo
                  (MsgMessage (loudspeaker +:+ " "
                               +:+ JS.or_else (currentPath a) "root") message)
                  y) = core x) as Hcore.
  { rewrite broadcastTo_core. apply messageCalls_core. }
  assert (x = setState
                (setMessages
                   (lastN 100 (messages (state a)
                               ++ [messageOf (broadcastStoring now newId a
                                                message)])))
                (setSql (λ s, setStoredMessages
                   (stored_messages s
                    ++ [{| sm_message :=
                             messageOf (broadcastStoring now newId a message);
                           sm_location := currentPath a |}]) s) a)) as Hx.
  { apply storeOne_fresh. exact Hfresh. }
  split; [|split; [|split]].
  - rewrite (sqlStorage_of_core _ _ Hcore), Hx. reflexivity.
  - rewrite broadcastTo_trace. unfold y.
    rewrite messageCalls_trace, messageCalls_websockets.
    unfold x. rewrite trace_storeOne, websockets_storeOne.
    by rewrite <- app_assoc.
  - rewrite (agents_of_core _ _ Hcore), Hx. reflexivity.
  - rewrite (counter_of_core _ _ Hcore), Hx. reflexivity.
Qed.

Lemma broadcast_is_posted_to_every_child_witness :
  let a' := fst (broadcastMessage exampleTime "m1" (λ _, Rejected "timeout")
                   "hello" rootAgent) in
  trace a'
  = trace rootAgent
    ++ [Fetched "/warehouse-ny" "POST" "http://internal/message";
        Sent 1 (MsgMessage (loudspeaker +:+ " /") "hello")]
  ∧ agents (state a') = {["warehouse-ny"]}.
Proof.
  intros a'.
  destruct (broadcast_is_posted_to_every_child exampleTime "m1"
              (λ _, Rejected "timeout") "hello" rootAgent)
    as (_ & H2 & H3 & _).
  - vm_compute. intros H. inversion H.
  - split.
    + unfold a'. rewrite H2. reflexivity.
    + unfold a'. rewrite H3. reflexivity.
Defined.

Lemma handleMessage_some now newId d a :
  handleMessage now newId (Some d) a
  = (broadcastTo
       (MsgMessage
          ((if isDirect (md_type d) then envelope else loudspeaker)
           +:+ " " +:+ md_from d) (md_content d))
       (storeOne a (receivedStoring now newId a d)),
     Returned {| status := 200; body := "Message received" |}).
Proof.
  unfold handleMessage. unfold_M. cbv beta iota.
  rewrite storeMessage_run. cbv beta iota.
  rewrite broadcastToWebSockets_run. reflexivity.
Qed.

(** X12. What a child receives at [/message] is stored under the child's path
    with the sender and the text of the body, addressed to the child when
    the message is direct and to nobody otherwise, and it is shown to the
    open sockets; the answer is 200.  A body that is not JSON is answered
    with 400, and nothing is stored or shown.  So the message that a parent
    broadcasts is stored at the child with the parent's path as its
    sender. *)
Theorem received_message_is_stored_and_shown now newId d a :
  newId ∉ storedIds (sqlStorage a) →
  let answer := handleMessage now newId (Some d) a in
  answer.2 = Returned {| status := 200; body := "Message received" |}
  ∧ stored_messages (sqlStorage answer.1)
    = stored_messages (sqlStorage a)
      ++ [{| sm_message :=
               {| id := newId; timestamp := iso now;
                  from_agent := md_from d;
                  to_agent := if isDirect (md_type d)
                              then Some (JS.or_else (currentPath a) "root")
                              else None;
                  content := md_content d;
                  message_type := md_type d |};
             sm_location := currentPath a |}]
  ∧ trace answer.1
    = trace a
      ++ deliveries
           (MsgMessage
              ((if isDirect (md_type d) then envelope else loudspeaker)
               +:+ " " +:+ md_from d) (md_content d))
           (websockets (state a))
  ∧ handleMessage now newId None a
    = (a, Returned {| status := 400; body := "Invalid message format" |})
  ∧ ∀ parent message,
      d = postedBody parent message broadcast →
      ∃ row, last (stored_messages (sqlStorage answer.1)) = Some row
             ∧ from_agent (sm_message row)
               = JS.or_else (currentPath parent) "root"
             ∧ content (sm_message row) = message
             ∧ to_agent (sm_message row) = None
             ∧ sm_location row = currentPath a.
Proof.
  intros Hfresh answer. subst answer. rewrite handleMessage_some.
  cbn [fst snd].
  set (x := storeOne a (receivedStoring now newId a d)).
  assert (x = setState
                (setMessages
                   (lastN 100 (messages (state a)
                               ++ [messageOf (receivedStoring now newId a d)])))
                (setSql (λ s, setStoredMessages
                   (stored_messages s
                    ++ [{| sm_message :=
                             messageOf (receivedStoring now newId a d);
                           sm_location := currentPath a |}]) s) a)) as Hx.
  { apply storeOne_fresh. exact Hfresh. }
  assert (stored_messages (sqlStorage (broadcastTo
            (MsgMessage
               ((if isDirect (md_type d) then envelope else loudspeaker)
                +:+ " " +:+ md_from d) (md_content d)) x))
          = stored_messages (sqlStorage a)
            ++ [{| sm_message := messageOf (receivedStoring now newId a d);
                   sm_location := currentPath a |}]) as Hrows.
  { rewrite (sqlStorage_of_core _ _ (broadcastTo_core _ x)), Hx.
    reflexivity. }
  split; [done|]. split; [exact Hrows|]. split; [|split].
  - rewrite broadcastTo_trace. unfold x.
    by rewrite trace_storeOne, websockets_storeOne.
  - reflexivity.
  - intros parent message ->. rewrite Hrows, last_snoc.
    eexists. split; [reflexivity|]. by repeat split.
Qed.

Lemma received_message_is_stored_and_shown_witness :
  let d := postedBody rootAgent "hello" broadcast in
  let answer := handleMessage exampleTime "m1" (Some d) warehouseAgent in
  answer.2 = Returned {| status := 200; body := "Message received" |}
  ∧ storedIds (sqlStorage answer.1) = ["m1"].
Proof.
  intros d answer.
  destruct (received_message_is_stored_and_shown exampleTime "m1" d
              warehouseAgent) as (H1 & H2 & _).
  - vm_compute. intros H. inversion H.
  - split; [exact H1|]. unfold storedIds. unfold answer. rewrite H2.
    reflexivity.
Defined.

(* --------------------------------------------------------------------- *)
(** ** The sockets of a broadcast *)
(* --------------------------------------------------------------------- *)

Lemma dropped_ids l w :
  NoDup (map ws_id l) → w ∈ l →
  ws_id w ∈ map ws_id (dropped l) ↔ failing w.
Proof.
  intros Hnd Hw. unfold dropped. split.
  - intros (w' & Hid & Hw')%list_elem_of_fmap.
    apply list_elem_of_filter in Hw' as [Hf Hw'].
    assert (w = w') as ->; [|done].
    clear Hf. induction l as [|x l IH]; [by apply elem_of_nil in Hw|].
    simpl in Hnd. apply NoDup_cons in Hnd as [Hx Hnd].
    apply elem_of_cons in Hw as [->|Hw], Hw' as [->|Hw']; try done.
    + exfalso. apply Hx. rewrite Hid. by apply list_elem_of_fmap_2.
    + exfalso. apply Hx. rewrite <- Hid. by apply list_elem_of_fmap_2.
    + by apply IH.
  - intros Hf. apply list_elem_of_fmap_2. by apply list_elem_of_filter.
Qed.

Lemma survivors_filter l :
  NoDup (map ws_id l) →
  survivors l = filter (λ ws, ¬ failing ws) l.
Proof.
  intros Hnd. unfold survivors.
  assert (∀ w, w ∈ l → (ws_id w ∉ map ws_id (dropped l) ↔ ¬ failing w)) as H.
  { intros w Hw. by rewrite (dropped_ids l w Hnd Hw). }
  revert H. generalize (map ws_id (dropped l)) as ids. intros ids H.
  clear Hnd. induction l as [|x l IH]; [done|].
  rewrite !filter_cons.
  assert (∀ w, w ∈ l → ws_id w ∉ ids ↔ ¬ failing w) as Hl
    by (intros w Hw; apply H; by right).
  rewrite (IH Hl).
  destruct (decide (ws_id x ∉ ids)) as [Hx|Hx];
    destruct (decide (¬ failing x)) as [Hf|Hf]; try done.
  - exfalso. apply Hf. apply H; [by left|done].
  - exfalso. apply Hx. apply H; [by left|done].
Qed.

(** X13. A broadcast sends the frame to every socket that is open and whose
    [send] works, in the order of the set, and drops from the set the open
    sockets whose [send] throws, and only those: a socket that is not open
    is skipped and kept.  Nothing else of the agent changes, and a second
    broadcast drops no socket. *)
Theorem broadcast_reaches_the_open_sockets_and_drops_the_failing m m' a :
  NoDup (map ws_id (websockets (state a))) →
  let a' := fst (broadcastToWebSockets m a) in
  trace a'
  = trace a
    ++ map (λ ws, Sent (ws_id ws) m)
         (filter (λ ws, readyState ws = 1 ∧ send_throws ws = false)
            (websockets (state a)))
  ∧ websockets (state a')
    = filter (λ ws, ¬ failing ws) (websockets (state a))
  ∧ core a' = core a
  ∧ websockets (state (fst (broadcastToWebSockets m' a')))
    = websockets (state a').
Proof.
  intros Hnd a'. subst a'. rewrite !broadcastToWebSockets_run. cbn [fst].
  rewrite broadcastTo_trace, !broadcastTo_websockets, broadcastTo_core.
  rewrite (survivors_filter _ Hnd).
  split; [done|]. split; [done|]. split; [done|].
  rewrite survivors_filter.
  - rewrite list_filter_filter. apply list_filter_iff. intros w. tauto.
  - clear m m'. induction (websockets (state a)) as [|x l IH]; [constructor|].
    simpl in Hnd. apply NoDup_cons in Hnd as [Hx Hnd].
    rewrite filter_cons. destruct (decide (¬ failing x)); [|by apply IH].
    simpl. apply NoDup_cons. split; [|by apply IH].
    intros (w & Hid & Hw)%list_elem_of_fmap.
    apply list_elem_of_filter in Hw as [_ Hw].
    apply Hx. rewrite Hid. by apply list_elem_of_fmap_2.
Qed.

Lemma broadcast_reaches_the_open_sockets_and_drops_the_failing_witness :
  let open := {| ws_id := 1; readyState := 1; send_throws := false |} in
  let broken := {| ws_id := 2; readyState := 1; send_throws := true |} in
  let closing := {| ws_id := 3; readyState := 2; send_throws := false |} in
  let a := setState (setWebsockets [open; broken; closing])
             (newAgent emptyStore) in
  let a' := fst (broadcastToWebSockets (MsgError "x") a) in
  trace a' = [Sent 1 (MsgError "x")]
  ∧ websockets (state a') = [open; closing].
Proof.
  intros open broken closing a a'.
  destruct (broadcast_reaches_the_open_sockets_and_drops_the_failing
              (MsgError "x") (MsgError "x") a) as (H1 & H2 & _).
  - simpl. repeat constructor; rewrite ?elem_of_cons, ?elem_of_nil; lia.
  - split.
    + unfold a'. rewrite H1. reflexivity.
    + unfold a'. rewrite H2. reflexivity.
Defined.

(* --------------------------------------------------------------------- *)
(** ** The cache *)
(* --------------------------------------------------------------------- *)

Lemma getCached_setCache {A} written key (data : A) ttlMs
    (cache : gmap string (Cache.Entry A)) now :
  let cache' := Cache.setCache written key data ttlMs cache in
  (ms now < ms written + ttlMs →
     Cache.getCached now key cache' = (Some data, cache'))
  ∧ (ms written + ttlMs <= ms now →
       Cache.getCached now key cache' = (None, delete key cache)).
Proof.
  cbv zeta. unfold Cache.getCached, Cache.setCache.
  rewrite lookup_insert_eq. cbn [Cache.expires Cache.data]. split; intros H.
  - by destruct (Z.ltb_spec (ms now) (ms written + ttlMs)); [|lia].
  - destruct (Z.ltb_spec (ms now) (ms written + ttlMs)); [lia|].
    by rewrite delete_insert_eq.
Qed.

(** X14. What was cached is read back until it expires, and is gone once it
    has: an entry written at some time with a time to live is returned,
    and the cache left alone, at every time before the two add up; from
    then on nothing is returned and the entry is deleted. *)
Theorem cached_data_is_served_until_it_expires
    {A} written key (data : A) ttlMs (cache : gmap string (Cache.Entry A))
    now :
  let cache' := Cache.setCache written key data ttlMs cache in
  (ms now < ms written + ttlMs →
     Cache.getCached now key cache' = (Some data, cache'))
  ∧ (ms written + ttlMs <= ms now →
       Cache.getCached now key cache' = (None, delete key cache)).
Proof. apply getCached_setCache. Qed.

Lemma getState_miss now a (cache : gmap string (Cache.Entry StateView)) :
  cache !! ("state:" +:+ currentPath a) = None →
  getState now a cache
  = (stateView a,
     Cache.setCache now ("state:" +:+ currentPath a) (stateView a) 30000 cache).
Proof.
  intros Hmiss. unfold getState, Cache.getCached. cbv zeta.
  rewrite Hmiss. by rewrite delete_id.
Qed.

(** X15. [GET /state] answers from its cache for 30 seconds: once it has
    answered for an agent, it gives that same answer, whatever the agent
    has become at the same path, until 30 seconds have passed or the entry
    is deleted, and only then the answer of the agent as it is. *)
Theorem state_is_answered_from_the_cache_for_30_seconds
    first later a a' (cache : gmap string (Cache.Entry StateView)) :
  cache !! ("state:" +:+ currentPath a) = None →
  currentPath a' = currentPath a →
  let answered := getState first a cache in
  answered.1 = stateView a
  ∧ (ms later < ms first + 30000 →
       getState later a' answered.2 = (stateView a, answered.2))
  ∧ (ms first + 30000 <= ms later →
       (getState later a' answered.2).1 = stateView a')
  ∧ (getState later a'
       (delete ("state:" +:+ currentPath a) answered.2)).1 = stateView a'.
Proof.
  intros Hmiss Hpath answered. subst answered.
  rewrite getState_miss by done. cbn [fst snd].
  destruct (getCached_setCache first
              ("state:" +:+ currentPath a) (stateView a) 30000 cache later)
    as [Hhit Hgone].
  cbv zeta in Hhit, Hgone.
  repeat split.
  - intros H. unfold getState. cbv zeta. rewrite Hpath. by rewrite (Hhit H).
  - intros H. unfold getState. cbv zeta. rewrite Hpath. by rewrite (Hgone H).
  - rewrite getState_miss; [done|]. rewrite Hpath. apply lookup_delete_eq.
Qed.

Lemma state_is_answered_from_the_cache_for_30_seconds_witness :
  let a := newAgent emptyStore in
  let a' := step a (doIncrement exampleTime) in
  let answered := getState exampleTime a ∅ in
  counter (state a') = 1
  ∧ view_counter answered.1 = 0
  ∧ getState soonTime a' answered.2 = (stateView a, answered.2).
Proof.
  intros a a' answered.
  destruct (state_is_answered_from_the_cache_for_30_seconds exampleTime
              soonTime a a' ∅) as (H1 & H2 & _).
  - reflexivity.
  - reflexivity.
  - split; [reflexivity|]. split; [reflexivity|].
    apply H2. simpl. lia.
Defined.

(* --------------------------------------------------------------------- *)
(** ** The inventory endpoints *)
(* --------------------------------------------------------------------- *)

Lemma handleStockOperation_post env now body cache a :
  handleStockOperation env now (StockPost body) cache a
  = if StockUpdateSchema body
    then (step a (doStockUpdate env now body),
          Returned (200, AnsUpdated body, cache))
    else (a, Returned (400,
                       AnsError {| err_code := "VALIDATION_ERROR";
                                   err_message := "Invalid input";
                                   err_timestamp := iso now |},
                       cache)).
Proof.
  unfold handleStockOperation, validateInput. unfold_M. cbv beta iota.
  destruct (StockUpdateSchema body); [|reflexivity].
  cbv beta iota. simpl step. rewrite processStockUpdate_run. reflexivity.
Qed.

Lemma StockUpdateSchema_quantity body :
  StockUpdateSchema body = true → 0 <= u_quantity body.
Proof.
  unfold StockUpdateSchema. intros [_ H]%andb_prop. by apply Z.leb_le.
Qed.

Lemma handleStockOperation_get env now cache a :
  handleStockOperation env now StockGet cache a
  = (a, Returned
          (let cacheKey := "inventory:" +:+ currentPath a in
           match Cache.getCached now cacheKey cache with
           | (Some cached, cache') => (200, AnsInventory cached, cache')
           | (None, cache') =>
               let inventory := (map_to_list (inventory (state a))).*1 in
               let response :=
                 {| iv_location := currentPath a;
                    iv_agentType := agentType (state a);
                    iv_inventory := inventory;
                    iv_totalItems := Z.of_nat (length inventory);
                    iv_lastUpdated := iso now |} in
               (200, AnsInventory response,
                Cache.setCache now cacheKey response 60000 cache')
           end)).
Proof.
  unfold handleStockOperation. unfold_M. cbv beta iota zeta.
  by destruct (Cache.getCached now _ cache) as [[cached|] cache'].
Qed.

(** X17. [/inventory/stock] checks a request before it changes anything.  A
    [POST] whose body the schema refuses is answered with 400 and
    [VALIDATION_ERROR], a request of another method with 405 and
    [METHOD_NOT_ALLOWED], a [POST] whose body is not JSON with 500 and
    [INTERNAL_ERROR], and none of them changes the agent or the cache; a
    [POST] whose body the schema accepts is processed as a stock update
    and answered with 200.  So no request to this endpoint makes a stock
    negative. *)
Theorem stock_endpoint_checks_before_it_changes env now cache a :
  (∀ body, StockUpdateSchema body = false →
     handleStockOperation env now (StockPost body) cache a
     = (a, Returned (400,
                     AnsError {| err_code := "VALIDATION_ERROR";
                                 err_message := "Invalid input";
                                 err_timestamp := iso now |},
                     cache)))
  ∧ (∀ body, StockUpdateSchema body = true →
       handleStockOperation env now (StockPost body) cache a
       = (step a (doStockUpdate env now body),
          Returned (200, AnsUpdated body, cache)))
  ∧ (∀ method,
       handleStockOperation env now (StockOther method) cache a
       = (a, Returned (405,
                       AnsError {| err_code := "METHOD_NOT_ALLOWED";
                                   err_message := "Method not allowed";
                                   err_timestamp := iso now |},
                       cache)))
  ∧ (∀ reason,
       handleStockOperation env now (StockUnparsed reason) cache a
       = (a, Returned (500,
                       AnsError {| err_code := "INTERNAL_ERROR";
                                   err_message := "An unexpected error occurred";
                                   err_timestamp := iso now |},
                       cache)))
  ∧ (∀ request,
       stocksNonNegative a →
       stocksNonNegative (fst (handleStockOperation env now request cache a))).
Proof.
  split; [|split; [|split; [|split]]].
  - intros body Hv. by rewrite handleStockOperation_post, Hv.
  - intros body Hv. by rewrite handleStockOperation_post, Hv.
  - reflexivity.
  - reflexivity.
  - intros [|body|reason|method] Hs; try done.
    + by rewrite handleStockOperation_get.
    + rewrite handleStockOperation_post.
      destruct (StockUpdateSchema body) eqn:Hv; [|done]. cbn [fst].
      apply (stocksNonNegative_run [doStockUpdate env now body] a); [|done].
      repeat constructor. simpl. by apply StockUpdateSchema_quantity.
Qed.

Example negative_quantity_is_refused :
  ∀ cache,
  handleStockOperation exampleEnv laterTime
    (StockPost {| u_sku := "SKU-1"; u_quantity := -5;
                  u_operation := opIncrement |}) cache stockedAgent
  = (stockedAgent,
     Returned (400,
               AnsError {| err_code := "VALIDATION_ERROR";
                           err_message := "Invalid input";
                           err_timestamp := iso laterTime |},
               cache)).
Proof. reflexivity. Qed.

(** X16. The listing that [GET /inventory/stock] has answered with is the
    one it answers with for the next 60 seconds: the same items, by the
    keys they are listed under, the same count, location, agent type and
    time, whatever has been stocked in between, so that a SKU that is
    first stocked in between is not listed; after that it answers with the
    listing as it is.  (The items of a cached listing are the objects of
    the inventory themselves: what an answer shows of their stock is not
    fixed by the cache.) *)
Theorem inventory_listing_is_cached_for_60_seconds
    env first later a a' (cache : gmap string (Cache.Entry InventoryView)) :
  cache !! ("inventory:" +:+ currentPath a) = None →
  currentPath a' = currentPath a →
  let listing (now : Time) (x : Agent) :=
    {| iv_location := currentPath x;
       iv_agentType := agentType (state x);
       iv_inventory := (map_to_list (inventory (state x))).*1;
       iv_totalItems :=
         Z.of_nat (length ((map_to_list (inventory (state x))).*1));
       iv_lastUpdated := iso now |} in
  ∃ cache1,
    handleStockOperation env first StockGet cache a
    = (a, Returned (200, AnsInventory (listing first a), cache1))
    ∧ (ms later < ms first + 60000 →
         handleStockOperation env later StockGet cache1 a'
         = (a', Returned (200, AnsInventory (listing first a), cache1)))
    ∧ (ms first + 60000 <= ms later →
         ∃ cache2,
           handleStockOperation env later StockGet cache1 a'
           = (a', Returned (200, AnsInventory (listing later a'), cache2))).
Proof.
  intros Hmiss Hpath listing.
  exists (Cache.setCache first ("inventory:" +:+ currentPath a)
            (listing first a) 60000 cache).
  destruct (getCached_setCache first ("inventory:" +:+ currentPath a)
              (listing first a) 60000 cache later) as [Hhit Hgone].
  cbv zeta in Hhit, Hgone.
  rewrite !handleStockOperation_get. cbv zeta. rewrite Hpath.
  repeat split.
  - unfold Cache.getCached at 1. rewrite Hmiss. by rewrite delete_id.
  - intros H. by rewrite (Hhit H).
  - intros H. rewrite (Hgone H). rewrite <- Hpath. by eexists.
Qed.

Lemma inventory_listing_is_cached_for_60_seconds_witness :
  let a := stockedAgent in
  let a' :=
    step a (doStockUpdate exampleEnv exampleTime
              {| u_sku := "SKU-2"; u_quantity := 7; u_operation := opSet |}) in
  let first :=
    {| iv_location := "/"; iv_agentType := "orchestrator";
       iv_inventory := ["SKU-1"]; iv_totalItems := 1;
       iv_lastUpdated := iso exampleTime |} in
  is_Some (inventory (state a') !! "SKU-2")
  ∧ ∃ cache1,
      handleStockOperation exampleEnv exampleTime StockGet ∅ a
      = (a, Returned (200, AnsInventory first, cache1))
      ∧ handleStockOperation exampleEnv soonTime StockGet cache1 a'
        = (a', Returned (200, AnsInventory first, cache1)).
Proof.
  intros a a' first.
  split; [vm_compute; eauto|].
  destruct (inventory_listing_is_cached_for_60_seconds exampleEnv
              exampleTime soonTime a a' ∅)
    as (cache1 & H1 & H2 & _).
  - reflexivity.
  - reflexivity.
  - exists cache1. split; [exact H1|]. apply H2. simpl. lia.
Defined.

Lemma handleInventoryQuery_sku env now k request cache a :
  k ≠ "" →
  handleInventoryQuery env now (Some k) request cache a
  = (a, Returned
          match inventory (state a) !! k with
          | Some item =>
              (200, AnsItem (currentPath a) item (0 <? currentStock item),
               cache)
          | None => (404, AnsNotFound (currentPath a) k, cache)
          end).
Proof.
  intros Hk. unfold handleInventoryQuery. unfold_M. cbv beta iota.
  destruct k as [|c k]; [done|]. cbn [JS.truthy].
  by destruct (inventory (state a) !! String c k).
Qed.

(** X18. A query for a SKU answers with what the last stock update of the SKU
    wrote: status 200, the item as updated, and [available] exactly when
    its stock is above 0.  A SKU that the inventory does not hold is
    answered with 404. *)
Theorem stock_query_answers_what_the_update_wrote
    env now later update request cache a :
  u_sku update ≠ "" →
  let a' := step a (doStockUpdate env now update) in
  let item := InventoryService.updatedItem now update (inventory (state a)) in
  handleInventoryQuery env later (Some (u_sku update)) request cache a'
  = (a', Returned (200,
                   AnsItem (currentPath a) item (0 <? currentStock item),
                   cache))
  ∧ (∀ k, k ≠ "" → inventory (state a') !! k = None →
       handleInventoryQuery env later (Some k) request cache a'
       = (a', Returned (404, AnsNotFound (currentPath a) k, cache))).
Proof.
  intros Hk a' item. split.
  - rewrite handleInventoryQuery_sku by done. subst a'.
    rewrite stockUpdate_inventory, lookup_insert_eq.
    by rewrite stockUpdate_currentPath.
  - intros k Hne Hnone. rewrite handleInventoryQuery_sku by done.
    rewrite Hnone. subst a'. by rewrite stockUpdate_currentPath.
Qed.

Lemma stock_query_answers_what_the_update_wrote_witness :
  let update :=
    {| u_sku := "SKU-1"; u_quantity := 150; u_operation := opDecrement |} in
  let a' := step stockedAgent (doStockUpdate exampleEnv laterTime update) in
  handleInventoryQuery exampleEnv laterTime (Some "SKU-1") StockGet ∅ a'
  = (a', Returned (200,
                   AnsItem "/"
                     {| sku := "SKU-1"; name := "Product SKU-1";
                        currentStock := 0; lowStockThreshold := 10;
                        lastUpdated := iso laterTime |}
                     false,
                   ∅)).
Proof.
  intros update a'.
  refine (proj1 (stock_query_answers_what_the_update_wrote exampleEnv laterTime
                   laterTime update StockGet ∅ stockedAgent _)).
  discriminate.
Defined.

Lemma syncLoop_run env now updates successCount errorCount errors a :
  syncLoop env now updates (successCount, errorCount, errors) a
  = (run (map (doStockUpdate env now) updates) a,
     Returned (successCount + Z.of_nat (length updates), errorCount, errors)).
Proof.
  revert successCount a.
  induction updates as [|update rest IH]; intros successCount a.
  - simpl. unfold_M. by rewrite Z.add_0_r.
  - cbn [syncLoop]. unfold_M. cbv beta iota.
    rewrite processStockUpdate_run. cbv beta iota.
    rewrite IH. f_equal.
    + cbn [map]. unfold run. cbn [fold_left]. f_equal. simpl step.
      by rewrite processStockUpdate_run.
    + do 3 f_equal. cbn [length]. lia.
Qed.

Lemma stockOf_step env now update k a :
  stockOf k (step a (doStockUpdate env now update))
  = if decide (u_sku update = k)
    then InventoryService.applyOperation (u_operation update) (stockOf k a)
           (u_quantity update)
    else stockOf k a.
Proof.
  unfold stockOf. rewrite stockUpdate_inventory.
  destruct (decide (u_sku update = k)) as [<-|Hne].
  - rewrite lookup_insert_eq.
    unfold InventoryService.updatedItem, InventoryService.getOrCreate.
    cbn [currentStock].
    by destruct (inventory (state a) !! u_sku update).
  - by rewrite lookup_insert_ne.
Qed.

(** X19. [POST /inventory/sync] processes its updates one after the other and
    reports every one of them as successful.  The stock it leaves of a SKU
    is what the updates of that SKU, applied in the order they come, make
    of the stock the SKU had, 0 for a SKU that was not held; the updates
    of the other SKUs do not touch it. *)
Theorem sync_applies_the_updates_in_order env now updates a :
  let answered := handleInventorySync env now updates a in
  answered.2
  = Returned {| syncResult :=
                  {| totalUpdates := Z.of_nat (length updates);
                     successful := Z.of_nat (length updates);
                     failed := 0; errors := [] |};
                sync_location := currentPath a |}
  ∧ answered.1 = run (map (doStockUpdate env now) updates) a
  ∧ ∀ k, stockOf k answered.1
         = applyAll (filter (λ u, u_sku u = k) updates) (stockOf k a).
Proof.
  cbv zeta. unfold handleInventorySync. unfold_M.
  rewrite syncLoop_run. cbn [fst snd]. split; [|split; [done|]].
  - do 2 f_equal. revert a.
    induction updates as [|update rest IH]; intros a; [done|].
    cbn [map]. unfold run. cbn [fold_left].
    fold (run (map (doStockUpdate env now) rest)).
    by rewrite IH, stockUpdate_currentPath.
  - intros k. revert a. induction updates as [|update rest IH]; intros a.
    + reflexivity.
    + cbn [map]. unfold run. cbn [fold_left].
      fold (run (map (doStockUpdate env now) rest)).
      rewrite IH, stockOf_step, filter_cons.
      by destruct (decide (u_sku update = k)).
Qed.

Example sync_takes_a_negative_quantity :
  stockOf "SKU-1"
    (fst (handleInventorySync exampleEnv exampleTime
            [{| u_sku := "SKU-1"; u_quantity := -5; u_operation := opSet |}]
            stockedAgent))
  = -5.
Proof. vm_compute. reflexivity. Qed.

Example sync_last_set_wins :
  stockOf "SKU-1"
    (fst (handleInventorySync exampleEnv exampleTime
            [{| u_sku := "SKU-1"; u_quantity := 40; u_operation := opSet |};
             {| u_sku := "SKU-2"; u_quantity := 7; u_operation := opIncrement |};
             {| u_sku := "SKU-1"; u_quantity := 50; u_operation := opDecrement |};
             {| u_sku := "SKU-1"; u_quantity := 3; u_operation := opIncrement |}]
            stockedAgent))
  = 3.
Proof. vm_compute. reflexivity. Qed.

Lemma omap_length_le {A B} (f : A → option B) (l : list A) :
  (length (omap f l) <= length l)%nat.
Proof.
  induction l as [|x l IH]; [done|]. cbn.
  destruct (f x); cbn; fold (omap f l); lia.
Qed.

Lemma alerts_elem a al :
  al ∈ aa_alerts (getInventoryAlerts a)
  ↔ ∃ k item, inventory (state a) !! k = Some item
              ∧ currentStock item <= lowStockThreshold item
              ∧ al = alertOf (currentPath a) k item.
Proof.
  unfold getInventoryAlerts. cbn [aa_alerts].
  rewrite list_elem_of_omap. split.
  - intros ([k item] & Hin & Hal). apply elem_of_map_to_list in Hin.
    destruct (Z.leb_spec (currentStock item) (lowStockThreshold item));
      [|done].
    injection Hal as <-. eauto.
  - intros (k & item & Hin & Hlow & ->). exists (k, item).
    rewrite elem_of_map_to_list. split; [done|].
    by destruct (Z.leb_spec (currentStock item) (lowStockThreshold item));
      [|lia].
Qed.

(** X20. [/inventory/alerts] lists exactly the items that are at or below
    their threshold, each under the key it is held under; an alert is
    critical exactly when the stock is 0; and of the two counts of the
    answer, the critical alerts are among the alerts, which are no more
    than the items. *)
Theorem alerts_are_exactly_the_low_items a :
  let answer := getInventoryAlerts a in
  (∀ k, (∃ al, al ∈ aa_alerts answer ∧ al_sku al = k)
        ↔ ∃ item, inventory (state a) !! k = Some item
                  ∧ currentStock item <= lowStockThreshold item)
  ∧ (∀ al, al ∈ aa_alerts answer →
       (al_severity al = "critical" ↔ al_currentStock al = 0)
       ∧ al_currentStock al <= al_threshold al
       ∧ al_location al = currentPath a)
  ∧ 0 <= aa_criticalAlerts answer <= aa_totalAlerts answer
  ∧ aa_totalAlerts answer <= Z.of_nat (size (inventory (state a))).
Proof.
  intros answer. subst answer.
  split; [|split; [|split; [split|]]].
  - intros k. split.
    + intros (al & Hal & <-).
      apply alerts_elem in Hal as (k & item & ? & ? & ->). eauto.
    + intros (item & Hin & Hlow). exists (alertOf (currentPath a) k item).
      split; [|done]. apply alerts_elem. eauto.
  - intros al (k & item & _ & Hlow & ->)%alerts_elem. simpl.
    split; [|done].
    by destruct (Z.eqb_spec (currentStock item) 0).
  - unfold getInventoryAlerts. cbn [aa_criticalAlerts]. lia.
  - unfold getInventoryAlerts. cbn [aa_criticalAlerts aa_totalAlerts].
    apply inj_le, length_filter.
  - unfold getInventoryAlerts. cbn [aa_totalAlerts].
    apply inj_le. rewrite <- length_map_to_list. apply omap_length_le.
Qed.

(* --------------------------------------------------------------------- *)
(** ** Restarts *)
(* --------------------------------------------------------------------- *)

Lemma written_core a b : core a = core b → written a = written b.
Proof.
  intros (?&?&?&_&_&_&_&_&_&_&?)%core_fields. unfold written. congruence.
Qed.

Lemma writtenThrough_written a b :
  written a = written b → writtenThrough a → writtenThrough b.
Proof.
  unfold written, writtenThrough. intros [= <- <- <- <-]. done.
Qed.

Lemma writtenThrough_persisted now a : writtenThrough (persisted now a).
Proof.
  intros row. rewrite persisted_fleet_state, persisted_currentPath.
  rewrite lookup_insert_eq. intros [= <-]. rewrite persisted_state. simpl.
  split; [done|]. apply list_to_set_elements_L.
Qed.

Lemma writtenThrough_loaded now a :
  writtenThrough (fst (loadStateFromStorage now a)).
Proof.
  intros row. rewrite loaded_sqlStorage, loaded_currentPath.
  rewrite loaded_counter, loaded_agents. by intros ->.
Qed.

Lemma written_statsUpdated now type a :
  written (statsUpdated now type a) = written a.
Proof. by rewrite (written_core _ _ (statsUpdated_core _ _ _)). Qed.

Lemma written_chatted now actions a :
  written (fold_left (actionCounted now) actions a) = written a.
Proof.
  revert a. induction actions as [|ok actions IH]; intros a; simpl; [done|].
  rewrite IH. unfold actionCounted.
  destruct ok; by rewrite !written_statsUpdated.
Qed.

Lemma cache_core a b : core a = core b → cache a = cache b.
Proof. by intros (_&_&_&_&_&_&?&_)%core_fields. Qed.

Lemma cache_statsUpdated now type a :
  cache (statsUpdated now type a) = cache a.
Proof.
  rewrite (cache_core _ _ (statsUpdated_core _ _ _)).
  by rewrite saveChatStatistics_run.
Qed.

Lemma sqlStorage_statsUpdated now type a :
  sqlStorage (statsUpdated now type a) = sqlStorage a.
Proof.
  pose proof (statsUpdated_core now type a) as H.
  apply core_fields in H as (_&_&_&_&_&_&_&_&_&_&->).
  by rewrite saveChatStatistics_run.
Qed.

Lemma or_else_slash q : JS.or_else q "/" ≠ "".
Proof. unfold JS.or_else. by destruct q. Qed.

(** A request for [p] leaves an agent that has a path at [p]. *)
Lemma servedAt_serves p fleetPath a :
  JS.or_else fleetPath "/" = p → currentPath a ≠ "" →
  servedAt fleetPath a = p.
Proof.
  intros Hp Hpath. unfold servedAt.
  destruct (String.eqb_spec fleetPath (currentPath a)) as [->|_]; [|done].
  rewrite <- Hp. unfold JS.or_else. by destruct (currentPath a).
Qed.

Lemma writtenThrough_fetched p now fleetPath a :
  JS.or_else fleetPath "/" = p → onePath p a →
  writtenThrough a → writtenThrough (fetched now fleetPath a).
Proof.
  intros Hp [Hpath Hone] H.
  destruct (fetched_cases now fleetPath a) as [->|(_ & Hkey & ->)].
  - eapply writtenThrough_written; [|apply writtenThrough_loaded].
    reflexivity.
  - rewrite (servedAt_serves p) in * by done.
    destruct (Hone p Hkey) as [_ <-]. by rewrite setCurrentPath_id.
Qed.

Lemma writtenThrough_resumed now path store :
  writtenThrough (resume now path store).
Proof.
  unfold resume. rewrite fetchPath_run. cbn [fst].
  destruct (fetched_cases now path (initialize now store))
    as [->|(_ & Hkey & _)].
  - eapply writtenThrough_written; [|apply writtenThrough_loaded].
    reflexivity.
  - rewrite initialize_cache in Hkey. by apply not_elem_of_empty in Hkey.
Qed.

(** Every operation leaves the counter and the children written, on an
    agent that serves one path. *)
Lemma writtenThrough_step p a o :
  servesPath p o → onePath p a →
  writtenThrough a → writtenThrough (step a o).
Proof.
  intros Hserves [Hpath Hone] H.
  destruct o as [now|now name|now cascade name|now children
    |env now update|now actions|server|ws|now path|now path]; simpl.
  - rewrite incrementCounter_run. simpl.
    eapply writtenThrough_written;
      [symmetry; apply written_core, stateBroadcast_core|].
    apply writtenThrough_persisted.
  - destruct (AgentNameSchema (JS.trim name)) eqn:Hv.
    + destruct (decide (JS.trim name ∈ agents (state a))) as [Hin|Hin].
      * destruct (createAgent_exists now name a Hv Hin) as [_ ->]. simpl.
        eapply writtenThrough_written;
          [symmetry; apply written_core, broadcastTo_core|done].
      * rewrite (createAgent_fresh now name a Hv Hin). simpl.
        eapply writtenThrough_written;
          [symmetry; apply written_core, stateBroadcast_core|].
        eapply writtenThrough_written;
          [symmetry; apply written_core, broadcastTo_core|].
        match goal with |- writtenThrough (setCache _ (setCache _ ?x)) =>
          apply (writtenThrough_written x); [reflexivity|] end.
        apply writtenThrough_persisted.
    + rewrite (createAgent_invalid now name a Hv). simpl.
      eapply writtenThrough_written;
        [symmetry; apply written_core, broadcastTo_core|done].
  - destruct (decide (name ∈ agents (state a))) as [Hin|Hin].
    + destruct cascade as [status|reason].
      * rewrite (deleteAgent_responded now status name a Hin). simpl.
        eapply writtenThrough_written;
          [symmetry; apply written_core, stateBroadcast_core|].
        eapply writtenThrough_written;
          [symmetry; apply written_core, broadcastTo_core|].
        match goal with |- writtenThrough (setCache _ ?x) =>
          apply (writtenThrough_written x); [reflexivity|] end.
        apply writtenThrough_persisted.
      * rewrite (deleteAgent_rejected now reason name a Hin). simpl.
        eapply writtenThrough_written;
          [symmetry; apply written_core, stateBroadcast_core|].
        eapply writtenThrough_written;
          [symmetry; apply written_core, broadcastTo_core|].
        apply writtenThrough_persisted.
    + rewrite (deleteAgent_absent now cascade name a Hin). simpl.
      eapply writtenThrough_written;
        [symmetry; apply written_core, broadcastTo_core|done].
  - rewrite handleDeleteSubtree_run. simpl.
    match goal with |- writtenThrough (setState (setWebsockets []) ?x) =>
      apply (writtenThrough_written x); [reflexivity|] end.
    eapply writtenThrough_written;
      [symmetry; apply written_core, addEvents_core|].
    apply writtenThrough_persisted.
  - rewrite processStockUpdate_run. simpl.
    eapply writtenThrough_written;
      [symmetry; apply written_core, propagateStockUpdate_core|].
    apply writtenThrough_persisted.
  - rewrite processChatMessage_run. simpl.
    eapply writtenThrough_written; [|exact H].
    by rewrite written_chatted, written_statsUpdated.
  - eapply writtenThrough_written;
      [symmetry; apply written_core, handleWebSocket_core|done].
  - revert H. by apply writtenThrough_written.
  - rewrite fetchPath_run. cbn [fst].
    by apply (writtenThrough_fetched p).
  - apply writtenThrough_resumed.
Qed.

Lemma onePath_same p a b :
  currentPath a = currentPath b → cache b ⊆ cache a →
  onePath p a → onePath p b.
Proof.
  intros Hp Hc [Hpath Hone]. split; [by rewrite <- Hp|].
  intros q Hq. rewrite <- Hp. apply Hone. by apply Hc.
Qed.

Lemma onePath_fetched p now fleetPath a :
  JS.or_else fleetPath "/" = p → currentPath a ≠ "" →
  (∀ q, "loaded:" +:+ q ∈ cache a → q = p) →
  onePath p (fetched now fleetPath a).
Proof.
  intros Hp Hpath Hone.
  assert (p ≠ "") as Hne by (rewrite <- Hp; apply or_else_slash).
  split.
  - by rewrite fetched_currentPath, (servedAt_serves p).
  - intros q. rewrite fetched_currentPath, (servedAt_serves p) by done.
    destruct (fetched_cases now fleetPath a) as [->|(_ & _ & ->)].
    + change (cache (setCache ?f (setStateLoaded ?b ?x))) with (f (cache x)).
      rewrite loaded_cache. cbn [cache setCurrentPath].
      rewrite (servedAt_serves p) by done.
      intros [Hq|Hq%elem_of_singleton]%elem_of_union.
      * split; [by apply Hone|done].
      * by apply (String.app_inj "loaded:") in Hq.
    + cbn [cache setCurrentPath]. intros Hq. split; [by apply Hone|done].
Qed.

(** The keys of the cache that an operation holds as loaded were there
    before it, unless the operation brings a request. *)
Lemma cache_step a o :
  match o with
  | doFetchPath _ _ | doRestart _ _ => True
  | _ => cache (step a o) ⊆ cache a
  end.
Proof.
  destruct o as [now|now name|now cascade name|now children
    |env now update|now actions|server|ws|now path|now path]; simpl;
    [..|done|done].
  - rewrite incrementCounter_run. simpl.
    by rewrite (cache_core _ _ (stateBroadcast_core _)).
  - destruct (AgentNameSchema (JS.trim name)) eqn:Hv.
    + destruct (decide (JS.trim name ∈ agents (state a))) as [Hin|Hin].
      * destruct (createAgent_exists now name a Hv Hin) as [_ ->]. simpl.
        by rewrite (cache_core _ _ (broadcastTo_core _ _)).
      * rewrite (createAgent_fresh now name a Hv Hin). simpl.
        rewrite (cache_core _ _ (stateBroadcast_core _)).
        rewrite (cache_core _ _ (broadcastTo_core _ _)). simpl.
        intros x Hx. repeat apply elem_of_difference in Hx as [Hx _]. done.
    + rewrite (createAgent_invalid now name a Hv). simpl.
      by rewrite (cache_core _ _ (broadcastTo_core _ _)).
  - destruct (decide (name ∈ agents (state a))) as [Hin|Hin].
    + destruct cascade as [status|reason].
      * rewrite (deleteAgent_responded now status name a Hin). simpl.
        rewrite (cache_core _ _ (stateBroadcast_core _)).
        rewrite (cache_core _ _ (broadcastTo_core _ _)). simpl.
        intros x Hx. repeat apply elem_of_difference in Hx as [Hx _]. done.
      * rewrite (deleteAgent_rejected now reason name a Hin). simpl.
        rewrite (cache_core _ _ (stateBroadcast_core _)).
        by rewrite (cache_core _ _ (broadcastTo_core _ _)).
    + rewrite (deleteAgent_absent now cascade name a Hin). simpl.
      by rewrite (cache_core _ _ (broadcastTo_core _ _)).
  - rewrite handleDeleteSubtree_run. simpl.
    rewrite (cache_core _ _ (addEvents_core _ _ _)). simpl.
    by rewrite (cache_core _ _ (addEvents_core _ _ _)).
  - rewrite processStockUpdate_run. simpl.
    rewrite (cache_core _ _ (propagateStockUpdate_core _)).
    rewrite persisted_cache.
    by rewrite (cache_core _ _ (broadcastAll_core _ _)).
  - rewrite processChatMessage_run. simpl.
    assert (∀ x, cache (fold_left (actionCounted now) actions x) = cache x)
      as ->.
    { induction actions as [|ok actions IH]; intros x; simpl; [done|].
      rewrite IH. unfold actionCounted.
      destruct ok; by rewrite !cache_statsUpdated. }
    by rewrite cache_statsUpdated.
  - by rewrite (cache_core _ _ (handleWebSocket_core _ _)).
  - done.
Qed.

Lemma onePath_step p a o :
  servesPath p o → onePath p a → onePath p (step a o).
Proof.
  intros Hserves Hone.
  pose proof (cache_step a o) as Hcache.
  pose proof (currentPath_step a o) as Hpath.
  destruct o; try (revert Hone; by apply onePath_same).
  - simpl. rewrite fetchPath_run. cbn [fst].
    destruct Hone as [Hne Hone].
    apply onePath_fetched; [done..|]. intros q Hq. by apply Hone.
  - simpl. unfold resume. rewrite fetchPath_run. cbn [fst].
    apply onePath_fetched; [done| |].
    + by rewrite initialize_currentPath.
    + intros q. rewrite initialize_cache. by intros ?%not_elem_of_empty.
Qed.

Lemma writtenThrough_run p ops a :
  Forall (servesPath p) ops → onePath p a →
  writtenThrough a →
  writtenThrough (run ops a) ∧ onePath p (run ops a).
Proof.
  unfold run. revert a.
  induction ops as [|o ops IH]; intros a Hops Hone H; simpl; [done|].
  inversion Hops; subst.
  apply IH; [done|by apply onePath_step|by apply (writtenThrough_step p)].
Qed.

Lemma resume_sqlStorage now path store :
  sqlStorage (resume now path store) = store.
Proof.
  unfold resume. rewrite fetchPath_run. cbn [fst].
  destruct (fetched_cases now path (initialize now store))
    as [->|(_ & _ & ->)].
  - change (sqlStorage (setCache ?f (setStateLoaded ?b ?x)))
      with (sqlStorage x).
    rewrite loaded_sqlStorage. apply initialize_sqlStorage.
  - apply initialize_sqlStorage.
Qed.

(** X22. An agent that serves one path and is restarted at any point comes
    back with its counter and its children: in every state that the
    operations reach when every request they bring is for the path [p], a
    new instance resumed from the store at the path of the agent, whose
    row the store holds, has the counter and the children that memory
    had.  (An agent that serves two paths by turns does not: see
    [two_paths_leave_the_counter_unwritten].) *)
Theorem restart_loses_no_counter_and_no_child p ops later :
  Forall (servesPath p) ops →
  let a := run ops (newAgent emptyStore) in
  is_Some (fleet_state (sqlStorage a) !! currentPath a) →
  let a' := resume later (currentPath a) (sqlStorage a) in
  counter (state a') = counter (state a)
  ∧ agents (state a') = agents (state a)
  ∧ sqlStorage a' = sqlStorage a.
Proof.
  intros Hops a [row Hrow] a'.
  destruct (writtenThrough_run p ops (newAgent emptyStore) Hops)
    as [Hw [Hpath _]].
  { split; [done|]. intros q Hq. by apply not_elem_of_empty in Hq. }
  { intros r. simpl. by rewrite lookup_empty. }
  fold a in Hw, Hpath. destruct (Hw row Hrow) as [Hc Ha].
  subst a'. rewrite resume_sqlStorage, resume_loads by done.
  change (state (setCache ?f (setStateLoaded ?b ?x))) with (state x).
  rewrite loaded_counter, loaded_agents.
  cbn [currentPath setCurrentPath sqlStorage].
  rewrite initialize_sqlStorage, Hrow. done.
Qed.

Lemma restart_loses_no_counter_and_no_child_witness :
  let a := warehouseAgent in
  let a' := resume laterTime (currentPath a) (sqlStorage a) in
  counter (state a') = counter (state a)
  ∧ agents (state a') = agents (state a)
  ∧ sqlStorage a' = sqlStorage a.
Proof.
  apply (restart_loses_no_counter_and_no_child "/a"
           [doFetchPath exampleTime "/a";
            doIncrement exampleTime;
            doCreateAgent exampleTime "b";
            doStockUpdate exampleEnv exampleTime
              {| u_sku := "SKU-1"; u_quantity := 100; u_operation := opSet |}]
           laterTime).
  - repeat constructor.
  - vm_compute. eauto.
Defined.

(** An agent object that serves two paths by turns keeps in memory what
    it counted at the other path: back at [/a] it holds a counter of 2
    while the row of [/a] holds 1, and a restart brings back the 1. *)
Example two_paths_leave_the_counter_unwritten :
  currentPath twoPathAgent = "/a"
  ∧ counter (state twoPathAgent) = 2
  ∧ fs_counter <$> fleet_state (sqlStorage twoPathAgent) !! "/a" = Some 1
  ∧ counter (state (resume laterTime "/a" (sqlStorage twoPathAgent))) = 1.
Proof. vm_compute. repeat split; reflexivity. Qed.

(** No operation touches the tables that are written with one array. *)
Lemma logTables_run ops a :
  logTables (sqlStorage (run ops a)) = logTables (sqlStorage a).
Proof.
  apply (preserved_run
           (λ x, logTables (sqlStorage x) = logTables (sqlStorage a))
           ) with (admitted := λ _, True); try done.
  - intros x b _ _ _ _ _ _ <-. done.
  - intros now path x Hx.
    destruct (fetched_cases now path x) as [->|(_ & _ & ->)]; [|done].
    change (sqlStorage (setCache ?f (setStateLoaded ?b ?y)))
      with (sqlStorage y).
    by rewrite loaded_sqlStorage.
  - intros now x Hx. by rewrite initialize_sqlStorage.
  - intros now actions x Hx.
    assert (∀ y, sqlStorage (fold_left (actionCounted now) actions y)
                 = sqlStorage y) as ->.
    { induction actions as [|ok actions IH]; intros y; simpl; [done|].
      rewrite IH. unfold actionCounted.
      destruct ok; by rewrite !sqlStorage_statsUpdated. }
    by rewrite sqlStorage_statsUpdated.
  - intros env now update x _ Hx. unfold serviced.
    cbn [sqlStorage setSql]. by rewrite service_store.
  - apply Forall_true. done.
Qed.

(** The statistics of a restarted agent are the ones that the constructor
    starts from, whatever the store holds. *)
Lemma resume_chatStats later path store :
  chatStats (resume later path store) = noChatStats.
Proof.
  unfold resume. rewrite fetchPath_run. cbn [fst].
  assert (chatStats (initialize later store) = noChatStats) as Hinit.
  { unfold initialize. rewrite loadChatStatistics_run. cbn [fst].
    change (chatStats (setInitializationComplete true ?x))
      with (chatStats x).
    by rewrite loaded_chatStats. }
  destruct (fetched_cases later path (initialize later store))
    as [->|(_ & _ & ->)]; [|done].
  change (chatStats (setCache ?f (setStateLoaded ?b ?x)))
    with (chatStats x).
  by rewrite loaded_chatStats.
Qed.

(** X23. The chat statistics are kept in memory only, and no restart
    brings them back.  An update counts in memory and recomputes the rate
    there, and leaves [chat_statistics] as it was: the statement that
    would write the row is handed its ten values as one array and throws.
    No run of operations writes the table.  And a restarted agent starts
    from zero whatever was counted, at the path [/] as at any other: the
    [SELECT] of the constructor is handed one array for its two
    placeholders. *)
Theorem chat_statistics_do_not_survive_a_restart :
  (∀ now type a,
     let a' := fst (updateChatStats now type a) in
     chatStats a' = withSuccessRate (countStat type (chatStats a))
     ∧ chat_statistics (sqlStorage a') = chat_statistics (sqlStorage a))
  ∧ (∀ ops a,
       chat_statistics (sqlStorage (run ops a))
       = chat_statistics (sqlStorage a))
  ∧ (∀ later path store,
       chatStats (resume later path store) = noChatStats).
Proof.
  split; [|split].
  - intros now type a a'. subst a'. rewrite updateChatStats_run. cbn [fst].
    split; [apply statsUpdated_chatStats|].
    by rewrite sqlStorage_statsUpdated.
  - intros ops a. pose proof (logTables_run ops a) as H.
    unfold logTables in H. by simplify_eq.
  - apply resume_chatStats.
Qed.

(** One message counted at [/], the same day: the restarted agent has
    counted none. *)
Example restart_forgets_the_messages_of_the_day :
  let a := fst (updateChatStats exampleTime statMessage
                  (newAgent emptyStore)) in
  messagesToday (chatStats a) = 1
  ∧ messagesToday (chatStats (resume laterTime "/" (sqlStorage a))) = 0.
Proof. split; reflexivity. Qed.

(* --------------------------------------------------------------------- *)
(** ** The records of a low stock *)
(* --------------------------------------------------------------------- *)


(** A decrement that empties the stock, with a model that advises a
    critical reorder and a workflow that would start: the sockets are
    handed the alert and the stock, and no table records anything. *)
Example critical_reorder_is_not_announced :
  let env :=
    {| InventoryService.aiParsed :=
         Some {| shouldReorder := true; reorderQuantity := 5000;
                 urgency := "critical"; leadTimeMs := 0;
                 reasoning := "out of stock"; confidence := 1 |};
       InventoryService.reorderWorkflow := Some "wf-1" |} in
  let update :=
    {| u_sku := "SKU-1"; u_quantity := 100; u_operation := opDecrement |} in
  let a' := step stockedAgent (doStockUpdate env laterTime update) in
  announced env laterTime update stockedAgent
  = [MsgLowStockAlert "SKU-1" 0 10 "/"; MsgStockUpdate "SKU-1" 0 opSet]
  ∧ inventory_analysis (sqlStorage a') = []
  ∧ inventory_decisions (sqlStorage a') = [].
Proof. repeat split; reflexivity. Qed.

(* --------------------------------------------------------------------- *)
(** ** A child created and deleted *)
(* --------------------------------------------------------------------- *)

Lemma agents_core a b : core a = core b → agents (state a) = agents (state b).
Proof. by intros (_&_&?&_)%core_fields. Qed.

Lemma counter_core a b : core a = core b → counter (state a) = counter (state b).
Proof. by intros (_&?&_)%core_fields. Qed.

Lemma sqlStorage_core a b : core a = core b → sqlStorage a = sqlStorage b.
Proof. by intros (_&_&_&_&_&_&_&_&_&_&?)%core_fields. Qed.

(** What deleting a child that is there leaves, however the cascade
    ends. *)
Lemma deleteAgent_present now cascade name a :
  name ∈ agents (state a) →
  let a' := step a (doDeleteAgent now cascade name) in
  agents (state a') = agents (state a) ∖ {[name]}
  ∧ counter (state a') = counter (state a)
  ∧ currentPath a' = currentPath a
  ∧ fleet_state (sqlStorage a')
    = <[currentPath a :=
          {| fs_counter := counter (state a);
             fs_agents := elements (agents (state a) ∖ {[name]});
             fs_agent_type := agentType (state a);
             fs_created_at := unixSeconds now;
             fs_updated_at := unixSeconds now |}]>
        (fleet_state (sqlStorage a))
  ∧ called a' = called a ++ [childPath (currentPath a) name].
Proof.
  intros Hin a'. subst a'. simpl. destruct cascade as [status|reason].
  - rewrite (deleteAgent_responded now status name a Hin). simpl.
    rewrite called_stateBroadcast, called_broadcastTo.
    match goal with |- context [stateBroadcast ?x] =>
      pose proof (stateBroadcast_core x) as Hcore;
      rewrite broadcastTo_core in Hcore end.
    apply core_fields in Hcore as (->&->&->&_&_&_&_&_&_&_&->).
    repeat split. apply (called_addEvent (cascadeCall a name) a).
  - rewrite (deleteAgent_rejected now reason name a Hin). simpl.
    rewrite called_stateBroadcast, called_broadcastTo.
    match goal with |- context [stateBroadcast ?x] =>
      pose proof (stateBroadcast_core x) as Hcore;
      rewrite broadcastTo_core in Hcore end.
    apply core_fields in Hcore as (->&->&->&_&_&_&_&_&_&_&->).
    repeat split. apply (called_addEvent (cascadeCall a name) a).
Qed.

(** What creating a child of a new and valid name leaves. *)
Lemma createAgent_new now name a :
  AgentNameSchema (JS.trim name) = true →
  JS.trim name ∉ agents (state a) →
  let a' := step a (doCreateAgent now name) in
  agents (state a') = agents (state a) ∪ {[JS.trim name]}
  ∧ counter (state a') = counter (state a)
  ∧ currentPath a' = currentPath a
  ∧ agentType (state a') = agentType (state a)
  ∧ fleet_state (sqlStorage a')
    = <[currentPath a :=
          {| fs_counter := counter (state a);
             fs_agents := elements (agents (state a) ∪ {[JS.trim name]});
             fs_agent_type := agentType (state a);
             fs_created_at := unixSeconds now;
             fs_updated_at := unixSeconds now |}]>
        (fleet_state (sqlStorage a))
  ∧ called a' = called a.
Proof.
  intros Hv Hnew a'. subst a'. simpl.
  rewrite (createAgent_fresh now name a Hv Hnew). simpl.
  rewrite called_stateBroadcast, called_broadcastTo.
  match goal with |- context [stateBroadcast ?x] =>
    pose proof (stateBroadcast_core x) as Hcore;
    rewrite broadcastTo_core in Hcore end.
  apply core_fields in Hcore as (->&->&->&_&_&->&_&_&_&_&->).
  repeat split.
Qed.

(** X24. Creating a child and deleting it again gives back the children that
    were there: the set in memory and the one of the row are as before,
    the counter has not moved, and the one agent called is the child, for
    the cascade. *)
Theorem child_created_then_deleted_is_gone
    created deleted cascade name a :
  AgentNameSchema (JS.trim name) = true →
  JS.trim name ∉ agents (state a) →
  let a1 := step a (doCreateAgent created name) in
  let a2 := step a1 (doDeleteAgent deleted cascade (JS.trim name)) in
  JS.trim name ∈ agents (state a1)
  ∧ agents (state a2) = agents (state a)
  ∧ counter (state a2) = counter (state a)
  ∧ (∃ row, fleet_state (sqlStorage a2) !! currentPath a = Some row
            ∧ fs_agents row = elements (agents (state a))
            ∧ fs_counter row = counter (state a))
  ∧ called a2 = called a ++ [childPath (currentPath a) (JS.trim name)].
Proof.
  intros Hv Hnew a1 a2.
  destruct (createAgent_new created name a Hv Hnew)
    as (Ha1 & Hc1 & Hp1 & Ht1 & Hf1 & Hk1).
  fold a1 in Ha1, Hc1, Hp1, Ht1, Hf1, Hk1.
  assert (JS.trim name ∈ agents (state a1)) as Hin1.
  { rewrite Ha1. apply elem_of_union. right. by apply elem_of_singleton. }
  destruct (deleteAgent_present deleted cascade (JS.trim name) a1 Hin1)
    as (Ha2 & Hc2 & Hp2 & Hf2 & Hk2).
  fold a2 in Ha2, Hc2, Hp2, Hf2, Hk2.
  assert (agents (state a1) ∖ {[JS.trim name]} = agents (state a)) as Hback.
  { rewrite Ha1. apply set_eq. intros x.
    rewrite elem_of_difference, elem_of_union, elem_of_singleton.
    split; [intros [[?|?] ?]; done|]. intros Hx. split; [by left|].
    by intros ->. }
  split; [done|]. split; [by rewrite Ha2|]. split; [by rewrite Hc2|].
  split.
  - eexists. rewrite Hf2, Hp1, lookup_insert_eq. split; [done|].
    simpl. by rewrite Hback, Hc1.
  - by rewrite Hk2, Hk1, Hp1.
Qed.

Lemma child_created_then_deleted_is_gone_witness :
  let a1 := step rootAgent (doCreateAgent exampleTime "  dock 7 ") in
  let a2 := step a1 (doDeleteAgent laterTime (Rejected "timeout") "dock 7") in
  "dock 7" ∈ agents (state a1)
  ∧ agents (state a2) = agents (state rootAgent)
  ∧ called a2 = called rootAgent ++ ["/dock%207"].
Proof.
  intros a1 a2.
  destruct (child_created_then_deleted_is_gone exampleTime laterTime
              (Rejected "timeout") "  dock 7 " rootAgent)
    as (H1 & H2 & _ & _ & H3).
  - reflexivity.
  - vm_compute. discriminate.
  - split; [exact H1|]. split; [exact H2|exact H3].
Defined.

(* --------------------------------------------------------------------- *)
(** ** The average confidence *)
(* --------------------------------------------------------------------- *)

Lemma totalConfidence_bounds analyses (s : Q) (n : nat) :
  Forall (λ r, (0 <= an_confidence r)%Q ∧ (an_confidence r <= 1)%Q) analyses →
  (0 <= s)%Q → (s <= inject_Z (Z.of_nat n))%Q →
  let t := fold_left
             (λ sum analysis, (sum + rate_or (an_confidence analysis) 0)%Q)
             analyses s in
  (0 <= t)%Q ∧ (t <= inject_Z (Z.of_nat (n + length analyses)))%Q.
Proof.
  intros H. revert s n. induction H as [|r l [H0 H1] _ IH]; intros s n Hs0 Hsn.
  - simpl. by rewrite Nat.add_0_r.
  - simpl.
    assert ((0 <= rate_or (an_confidence r) 0)%Q
            ∧ (rate_or (an_confidence r) 0 <= 1)%Q) as [Hr0 Hr1].
    { unfold rate_or. destruct (Qeq_bool (an_confidence r) 0); [|done].
      split; [apply Qle_refl|discriminate]. }
    replace (n + S (length l))%nat with (S n + length l)%nat by lia.
    apply IH.
    + apply (Qle_trans _ (0 + 0)); [discriminate|by apply Qplus_le_compat].
    + rewrite Nat2Z.inj_succ. unfold Z.succ. rewrite inject_Z_plus.
      by apply Qplus_le_compat.
Qed.

(** X25. The average confidence of no analysis is 0, without a division by the
    empty length; the average of confidences that lie between 0 and 1 lies
    between 0 and 1. *)
Theorem average_confidence_stays_between_0_and_1 analyses :
  Forall (λ r, (0 <= an_confidence r)%Q ∧ (an_confidence r <= 1)%Q) analyses →
  (0 <= calculateAverageConfidence analyses)%Q
  ∧ (calculateAverageConfidence analyses <= 1)%Q
  ∧ (analyses = [] → calculateAverageConfidence analyses = 0%Q).
Proof.
  intros H. unfold calculateAverageConfidence.
  destruct analyses as [|r l]; [by repeat split|].
  change (length (r :: l) =? 0)%nat with false. cbv iota zeta.
  destruct (totalConfidence_bounds (r :: l) 0%Q 0%nat H) as [H0 H1];
    [apply Qle_refl|apply Qle_refl|].
  rewrite Nat.add_0_l in H1.
  assert (0 < inject_Z (Z.of_nat (length (r :: l))))%Q as Hpos.
  { change 0%Q with (inject_Z 0). rewrite <- Zlt_Qlt. simpl length. lia. }
  split; [|split; [|done]].
  - apply Qle_shift_div_l; [done|]. by rewrite Qmult_0_l.
  - apply Qle_shift_div_r; [done|]. by rewrite Qmult_1_l.
Qed.

Lemma average_confidence_stays_between_0_and_1_witness :
  let insights c :=
    {| shouldReorder := true; reorderQuantity := 10; urgency := "high";
       leadTimeMs := 0; reasoning := "low"; confidence := c |} in
  let row c := {| an_sku := "A"; an_location := "/"; an_analysis := insights c;
                  an_confidence := c; an_timestamp := "t" |} in
  (0 <= calculateAverageConfidence [row (1#2); row 1%Q; row 0%Q])%Q
  ∧ (calculateAverageConfidence [row (1#2); row 1%Q; row 0%Q] <= 1)%Q.
Proof.
  intros insights row.
  destruct (average_confidence_stays_between_0_and_1
              [row (1#2); row 1%Q; row 0%Q]) as (H0 & H1 & _); [|by split].
  repeat constructor; simpl; discriminate.
Defined.
